(** * Probabilistic interleaving: a shallow embedding of
      [interleaving/probabilistic.py]

    The definitions follow the Python module top to bottom:

    - [Py]: the fragment of Python the module relies on (exceptions,
      subscripting with negative indices, [list.remove], [max]/[min],
      floats and complex numbers with [+], [/], [**] and [<]);
    - [Memo]: a dictionary with a [__missing__] hook;
    - [NumpyRandom]: [np.random] as a draw oracle read through a cursor;
    - [CumulationCache]: the three nested caches ([MemberCache],
      [SumCache], [CumulationCache]) and [choice_one_of];
    - [Probabilistic]: [interleave], [multileave] and [evaluate];
    - [Spec]: the quantities the specification speaks of, defined
      without reference to the loops of the code;
    - [Scenario]: concrete inputs;
    - [Trace]: the order in which [multileave] pops ranker indexes, and
      what it means for an item to come from the list its ranker index
      names;
    - [Registry]: the caches as the classes keep them, three
      registries [_tau_to_instance] of dictionaries, with the lookups
      that fill them.

    The theorems come after all definitions, one module of facts per
    layer, and the properties of the specification in [EngineClaims],
    [CacheClaims] and [EvaluateClaims].

    Numbers.  A Python number is a float or, where [**] leaves the
    reals, a complex number.  Floats have the special values [inf],
    [-inf] and [nan], and an operation raises [OverflowError] or
    [ZeroDivisionError] where Python's does.  Of the rounding of an
    operation its range is modelled: an exact result that rounds to an
    infinity or to zero does so here; any other result is kept exact,
    so what is proved of the value of a weight or of a breakpoint holds
    up to the rounding of each operation.  [sum] adds from the left,
    as CPython does before version 3.12.  The exponent [tau] is a
    finite float, as its default [3.0] is.

    Randomness.  The generator is an oracle: three tapes give the
    successive answers of [random()], [randint(0, 2)] and [shuffle],
    and a cursor counts how many answers of each kind were consumed.
    Theorems assume of the tapes only what numpy guarantees.

    Memoisation.  The three caches are dictionaries filled by
    [__missing__] and never written otherwise, so a lookup [self[k]]
    yields what [__missing__(k)] computes ([MemoFacts]); the caches are
    embedded as the functions their [__missing__] methods compute.

    Non-termination.  The [while True] loop of [multileave] runs for a
    number of rounds bounded by a fuel argument; the theorems give a
    fuel that suffices. *)

From Stdlib Require Import List ZArith Reals Lra Lia Permutation Bool Arith.
Import ListNotations.

(** ** Python fragment *)

Module Py.

(** The exceptions the module can raise.  [InvalidArgument] is the error
    class named by the specification; no statement of the module raises
    it. *)
Inductive exn : Set :=
| ZeroDivisionError
| OverflowError
| IndexError
| ValueError
| TypeError
| InvalidArgument.

Inductive outcome (A : Type) : Type :=
| Ok (a : A)
| Raise (e : exn).

Arguments Ok {A} a.
Arguments Raise {A} e.

Definition bind {A B : Type} (m : outcome A) (k : A -> outcome B) : outcome B :=
  match m with
  | Ok a => k a
  | Raise e => Raise e
  end.

Notation "x <- m ;; k" := (bind m (fun x => k))
  (at level 61, m at next level, right associativity).

Fixpoint mapM {A B : Type} (f : A -> outcome B) (l : list A) : outcome (list B) :=
  match l with
  | [] => Ok []
  | x :: xs => y <- f x ;; ys <- mapM f xs ;; Ok (y :: ys)
  end.

(** [l[i]]: a negative index counts from the end; anything outside
    [-len(l) <= i < len(l)] raises [IndexError]. *)
Definition getitem {A : Type} (l : list A) (i : Z) : outcome A :=
  let n := Z.of_nat (length l) in
  let j := if (i <? 0)%Z then (i + n)%Z else i in
  if ((0 <=? j)%Z && (j <? n)%Z)%bool then
    match nth_error l (Z.to_nat j) with
    | Some x => Ok x
    | None => Raise IndexError
    end
  else Raise IndexError.

(** [range(lo, hi)] for natural bounds, as Python integers. *)
Definition range (lo hi : nat) : list Z := map Z.of_nat (seq lo (hi - lo)).

(** [max(l)] and [min(l)] on a list of counters; [ValueError] on []. *)
Definition max_ (l : list nat) : outcome nat :=
  match l with
  | [] => Raise ValueError
  | x :: xs => Ok (fold_left Nat.max xs x)
  end.

Definition min_ (l : list nat) : outcome nat :=
  match l with
  | [] => Raise ValueError
  | x :: xs => Ok (fold_left Nat.min xs x)
  end.

Section Remove.
Variable A : Type.
Variable eq_dec : forall x y : A, {x = y} + {x <> y}.

(** [l.remove(x)]: drops the first item equal to [x], raises
    [ValueError] when there is none. *)
Fixpoint remove (x : A) (l : list A) : outcome (list A) :=
  match l with
  | [] => Raise ValueError
  | y :: ys =>
      if eq_dec y x then Ok ys
      else ys' <- remove x ys ;; Ok (y :: ys')
  end.
End Remove.

Arguments remove {A} eq_dec x l.

Open Scope R_scope.

(** *** Floats

    A float is a real number or one of three special values.  The two
    signs of zero are not told apart: no operation of the module
    observes the sign of a zero. *)
Inductive float : Type :=
| Finite (x : R)
| PInf
| NInf
| NaN.

(** The least magnitude that rounds to an infinity, [2^1024 - 2^970],
    and the greatest that rounds to zero, [2^-1075]. *)
Definition overflow_threshold : R := 2 ^ 1024 - 2 ^ 970.

Definition underflow_threshold : R := / 2 ^ 1075.

(** The float an exact result becomes: an infinity beyond the range,
    zero below it, the result itself inside. *)
Definition fl (x : R) : float :=
  if Rle_dec overflow_threshold x then PInf
  else if Rle_dec x (- overflow_threshold) then NInf
  else if Rle_dec (Rabs x) underflow_threshold then Finite 0
  else Finite x.

(** The infinity that has the sign of [x]. *)
Definition inf_of_sign (x : R) : float := if Rlt_dec 0 x then PInf else NInf.

Definition fneg (a : float) : float :=
  match a with
  | Finite x => Finite (- x)
  | PInf => NInf
  | NInf => PInf
  | NaN => NaN
  end.

(** [a + b] and [a * b] on floats; neither raises. *)
Definition fadd (a b : float) : float :=
  match a, b with
  | Finite x, Finite y => fl (x + y)
  | NaN, _ | _, NaN => NaN
  | PInf, NInf | NInf, PInf => NaN
  | PInf, _ | _, PInf => PInf
  | NInf, _ | _, NInf => NInf
  end.

Definition fmul (a b : float) : float :=
  match a, b with
  | Finite x, Finite y => fl (x * y)
  | NaN, _ | _, NaN => NaN
  | Finite x, PInf | PInf, Finite x =>
      if Req_dec_T x 0 then NaN else inf_of_sign x
  | Finite x, NInf | NInf, Finite x =>
      if Req_dec_T x 0 then NaN else inf_of_sign (- x)
  | PInf, PInf | NInf, NInf => PInf
  | PInf, NInf | NInf, PInf => NInf
  end.

(** [a / b] on floats: [ZeroDivisionError] on a zero divisor, and
    otherwise the quotient, which may be an infinity or [nan]. *)
Definition fdiv (a b : float) : outcome float :=
  match b with
  | Finite y =>
      if Req_dec_T y 0 then Raise ZeroDivisionError
      else Ok match a with
              | Finite x => fl (x / y)
              | PInf => inf_of_sign y
              | NInf => inf_of_sign (- y)
              | NaN => NaN
              end
  | PInf | NInf =>
      Ok match a with
         | Finite _ => Finite 0
         | _ => NaN
         end
  | NaN => Ok NaN
  end.

(** [a < b] on floats; [False] as soon as one of them is [nan]. *)
Definition flt (a b : float) : bool :=
  match a, b with
  | Finite x, Finite y => if Rlt_dec x y then true else false
  | NaN, _ | _, NaN => false
  | _, NInf => false
  | PInf, _ => false
  | NInf, _ => true
  | _, PInf => true
  end.

(** *** Numbers

    The values of the module's arithmetic: floats, and the complex
    numbers that [**] yields for a negative base and a fractional
    exponent.  The integers [0] and [1] that the module mixes with
    floats ([sum] starts from [0], the last breakpoint is [1]) are the
    floats of the same value, to which every operator converts them. *)
Inductive number : Type :=
| Float (x : float)
| Complex (re im : float).

(** A float literal. *)
Definition real (x : R) : number := Float (Finite x).

Definition as_complex (x : number) : float * float :=
  match x with
  | Float a => (a, Finite 0)
  | Complex a b => (a, b)
  end.

(** [x + y]. *)
Definition add (x y : number) : number :=
  match x, y with
  | Float a, Float b => Float (fadd a b)
  | _, _ =>
      let (a, b) := as_complex x in
      let (c, d) := as_complex y in
      Complex (fadd a c) (fadd b d)
  end.

(** The quotient of two complex numbers: [ZeroDivisionError] on a zero
    divisor, and for finite operands the exact quotient, each part
    brought into the range of floats.  The parts are [nan] when an
    operand is not finite; the module never divides such a number,
    its only complex divisor being a power that did not overflow. *)
Definition cdiv (x y : float * float) : outcome number :=
  match y with
  | (Finite c, Finite d) =>
      if Req_dec_T (c * c + d * d) 0 then Raise ZeroDivisionError
      else
        match x with
        | (Finite a, Finite b) =>
            Ok (Complex (fl ((a * c + b * d) / (c * c + d * d)))
                        (fl ((b * c - a * d) / (c * c + d * d))))
        | _ => Ok (Complex NaN NaN)
        end
  | _ => Ok (Complex NaN NaN)
  end.

(** [x / y]. *)
Definition truediv (x y : number) : outcome number :=
  match x, y with
  | Float a, Float b => q <- fdiv a b ;; Ok (Float q)
  | _, _ => cdiv (as_complex x) (as_complex y)
  end.

(** [x < y]; complex numbers are not ordered. *)
Definition lt (x y : number) : outcome bool :=
  match x, y with
  | Float a, Float b => Ok (flt a b)
  | _, _ => Raise TypeError
  end.

(** The conversion of an integer operand to a float, which fails on an
    integer beyond the range. *)
Definition of_int (r : Z) : outcome R :=
  if Rle_dec overflow_threshold (Rabs (IZR r)) then Raise OverflowError
  else Ok (IZR r).

(** The C library's [pow] on a positive base, as [**] uses it: an
    overflow is an [OverflowError], an underflow is zero. *)
Definition libm_pow (x y : R) : outcome float :=
  if Rle_dec overflow_threshold (Rpower x y) then Raise OverflowError
  else Ok (fl (Rpower x y)).

(** [r ** tau] for an integer [r] and a float [tau] in Python 3, case
    by case as CPython's [float_pow] goes: the base is converted to a
    float; anything to the power zero is [1.0]; zero to a negative
    power is an error; a negative base gives a float, signed by the
    parity of the exponent, when the exponent is an integer, and the
    complex number of modulus [|r| ** tau] and argument [pi * tau]
    when it is not. *)
Definition pow (r : Z) (tau : R) : outcome number :=
  iv <- of_int r ;;
  if Req_dec_T tau 0 then Ok (real 1)
  else
    match total_order_T iv 0 with
    | inleft (left _) =>
        ix <- libm_pow (- iv) tau ;;
        if Req_dec_T (IZR (Int_part tau)) tau then
          Ok (Float (if Z.odd (Int_part tau) then fneg ix else ix))
        else
          Ok (Complex (fmul ix (Finite (cos (PI * tau))))
                      (fmul ix (Finite (sin (PI * tau)))))
    | inleft (right _) =>
        if Rlt_dec tau 0 then Raise ZeroDivisionError else Ok (real 0)
    | inright _ =>
        ix <- libm_pow iv tau ;; Ok (Float ix)
    end.

(** [sum(l)]: starts from [0] and adds from the left. *)
Definition sum (l : list number) : number := fold_left add l (real 0).

Close Scope R_scope.

End Py.

Import Py.

(** ** A dictionary with a [__missing__] hook *)

Module Memo.
Section Memo.
Variables K V : Type.
Variable eq_dec : forall x y : K, {x = y} + {x <> y}.
Variable missing : K -> outcome V.

Definition dict := list (K * V).

Fixpoint find (d : dict) (k : K) : option V :=
  match d with
  | [] => None
  | (k', v) :: d' => if eq_dec k' k then Some v else find d' k
  end.

(** [self[k]]: a hit returns the stored value; a miss runs
    [__missing__], which stores its result and returns it. *)
Definition lookup (d : dict) (k : K) : outcome (V * dict) :=
  match find d k with
  | Some v => Ok (v, d)
  | None => v <- missing k ;; Ok (v, (k, v) :: d)
  end.

(** Every stored value is what the hook computes for its key. *)
Definition consistent (d : dict) : Prop :=
  forall k v, find d k = Some v -> missing k = Ok v.
End Memo.

Arguments find {K V} eq_dec d k.
Arguments lookup {K V} eq_dec missing d k.
Arguments consistent {K V} eq_dec missing d.

End Memo.

(** ** [np.random] *)

Module NumpyRandom.

(** What the generator will answer: the successive values of
    [np.random.random()], of [np.random.randint(0, 2)], and the
    successive rearrangements [np.random.shuffle] performs. *)
Record Draws : Type := {
  random_tape : nat -> R;
  randint_tape : nat -> nat;
  shuffle_tape : nat -> list nat -> list nat
}.

(** How many draws of each kind have been consumed. *)
Record Cursor : Set := {
  random_pos : nat;
  randint_pos : nat;
  shuffle_pos : nat
}.

Definition start : Cursor :=
  {| random_pos := 0; randint_pos := 0; shuffle_pos := 0 |}.

(** Computations that read the generator and may raise. *)
Definition M (A : Type) : Type := Cursor -> outcome (A * Cursor).

Definition ret {A : Type} (a : A) : M A := fun c => Ok (a, c).

Definition bindM {A B : Type} (m : M A) (k : A -> M B) : M B :=
  fun c =>
    match m c with
    | Ok (a, c') => k a c'
    | Raise e => Raise e
    end.

Definition lift {A : Type} (o : outcome A) : M A :=
  fun c => match o with Ok a => Ok (a, c) | Raise e => Raise e end.

Notation "x <~ m ;; k" := (bindM m (fun x => k))
  (at level 61, m at next level, right associativity).

(** Consuming one draw of each kind. *)
Definition advance_random (c : Cursor) : Cursor :=
  {| random_pos := S (random_pos c);
     randint_pos := randint_pos c;
     shuffle_pos := shuffle_pos c |}.

Definition advance_randint (c : Cursor) : Cursor :=
  {| random_pos := random_pos c;
     randint_pos := S (randint_pos c);
     shuffle_pos := shuffle_pos c |}.

Definition advance_shuffle (c : Cursor) : Cursor :=
  {| random_pos := random_pos c;
     randint_pos := randint_pos c;
     shuffle_pos := S (shuffle_pos c) |}.

Section Generator.
Variable rng : Draws.

(** [np.random.random()]. *)
Definition random : M R := fun c =>
  Ok (random_tape rng (random_pos c), advance_random c).

(** [np.random.randint(0, 2)]. *)
Definition randint_0_2 : M nat := fun c =>
  Ok (randint_tape rng (randint_pos c), advance_randint c).

(** [np.random.shuffle(l)], returning the rearranged list. *)
Definition shuffle (l : list nat) : M (list nat) := fun c =>
  Ok (shuffle_tape rng (shuffle_pos c) l, advance_shuffle c).
End Generator.

(** The contract of numpy's generator. *)
Definition random_in_unit (rng : Draws) : Prop :=
  forall i, (0 <= random_tape rng i < 1)%R.

Definition randint_below_2 (rng : Draws) : Prop :=
  forall i, randint_tape rng i < 2.

Definition shuffle_permutes (rng : Draws) : Prop :=
  forall i l, Permutation (shuffle_tape rng i l) l.

End NumpyRandom.

Import NumpyRandom.

(** ** [class CumulationCache] *)

Module CumulationCache.

Open Scope R_scope.

(** [MemberCache.__missing__]: [1.0 / r ** self.tau]. *)
Definition member_cache (tau : R) (r : Z) : outcome number :=
  p <- pow r tau ;; truediv (real 1) p.

(** [SumCache.__missing__]:
    [sum([self.member_cache[r] for r in range(1, n + 1)])]. *)
Definition sum_cache (tau : R) (n : nat) : outcome number :=
  ws <- mapM (member_cache tau) (range 1 (n + 1)) ;; Ok (sum ws).

(** The [for r in range(1, l)] loop of [CumulationCache.__missing__]. *)
Fixpoint cumulate (tau : R) (rs : list Z) (numerator denominator : number)
    (result : list number) : outcome (list number) :=
  match rs with
  | [] => Ok result
  | r :: rs' =>
      w <- member_cache tau r ;;
      let numerator := add numerator w in
      q <- truediv numerator denominator ;;
      cumulate tau rs' numerator denominator (result ++ [q])
  end.

(** [CumulationCache.__missing__]. *)
Definition cumulation (tau : R) (l : nat) : outcome (list number) :=
  denominator <- sum_cache tau l ;;
  result <- cumulate tau (range 1 l) (real 0) denominator [] ;;
  Ok (result ++ [real 1]).

Section Choice.
Variable document : Type.

(** The [for i in range(0, n)] scan of [choice_one_of]; running off the
    end of the loop returns [None]. *)
Fixpoint scan (f : R) (cumulation : list number) (l : list document)
    (indexes : list Z) : outcome (option document) :=
  match indexes with
  | [] => Ok None
  | i :: rest =>
      c <- getitem cumulation i ;;
      below <- lt (real f) c ;;
      if below then d <- getitem l i ;; Ok (Some d)
      else scan f cumulation l rest
  end.

(** [choice_one_of]. *)
Definition choice_one_of (rng : Draws) (tau : R) (l : list document)
    : M (option document) :=
  let n := length l in
  f <~ random rng ;;
  cumulation <~ lift (cumulation tau n) ;;
  lift (scan f cumulation l (range 0 n)).
End Choice.

Arguments scan {document} f cumulation l indexes.
Arguments choice_one_of {document} rng tau l.

Close Scope R_scope.

End CumulationCache.

Import CumulationCache.

(** ** [class Probabilistic] *)

Module Probabilistic.

(** How a loop body ends: by [return], or by falling through to the next
    iteration with the loop's variables. *)
Inductive flow (V A : Type) : Type :=
| Return (a : A)
| Continue (s : V).

Arguments Return {V A} a.
Arguments Continue {V A} s.

Section Engine.
Variable document : Type.
Variable document_eq_dec : forall x y : document, {x = y} + {x <> y}.

(** Modelled from the spec: the class [Ranking] of
    [interleaving/ranking.py], which is imported but not among the
    sources: an ordered sequence of documents together with
    [number_of_rankers] and [rank_to_ranker_index].  An item is
    [Some d] for a document and [None] for Python's [None], which
    [choice_one_of] hands over when its scan selects nothing. *)
Record Ranking : Type := {
  items : list (option document);
  number_of_rankers : nat;
  rank_to_ranker_index : list nat
}.

(** [result.append(document)] followed by
    [result.rank_to_ranker_index.append(ranker_index)]. *)
Definition append (result : Ranking) (d : option document)
    (ranker_index : nat) : Ranking :=
  {| items := items result ++ [d];
     number_of_rankers := number_of_rankers result;
     rank_to_ranker_index := rank_to_ranker_index result ++ [ranker_index] |}.

(** [try: r_j.remove(document) except ValueError: continue].  [None]
    is no document, so removing it is the [ValueError] case. *)
Definition try_remove (d : option document) (r_j : list document)
    : outcome (list document) :=
  match d with
  | None => Ok r_j
  | Some x =>
      match Py.remove document_eq_dec x r_j with
      | Ok r => Ok r
      | Raise ValueError => Ok r_j
      | Raise e => Raise e
      end
  end.

Section Sampling.
Variable rng : Draws.
Variable tau : R.

(** The part of both loop bodies from the sample to the test
    [if k <= len(result): return result] and the removal loop. *)
Definition pick (k : nat) (ranker_index : nat)
    (rankings : list (list document)) (result : Ranking)
    : M (flow (list (list document) * Ranking) Ranking) :=
  ranking <~ lift (getitem rankings (Z.of_nat ranker_index)) ;;
  d <~ choice_one_of rng tau ranking ;;
  let result := append result d ranker_index in
  if k <=? length (items result) then ret (Return result)
  else
    rankings <~ lift (mapM (try_remove d) rankings) ;;
    ret (Continue (rankings, result)).

(** The [for i in range(k)] loop of [interleave]; when the loop runs
    out the method ends without [return], that is with [None]. *)
Fixpoint interleave_loop (k : nat) (iterations : nat)
    (rankings : list (list document)) (result : Ranking)
    : M (option Ranking) :=
  match iterations with
  | O => ret None
  | S iterations' =>
      ranker_index <~ randint_0_2 rng ;;
      s <~ pick k ranker_index rankings result ;;
      match s with
      | Return result => ret (Some result)
      | Continue (rankings, result) =>
          interleave_loop k iterations' rankings result
      end
  end.

(** [interleave]. *)
Definition interleave (a b : list document) : M (option Ranking) :=
  let k := Nat.min (length a) (length b) in
  let result :=
    {| items := []; number_of_rankers := 2; rank_to_ranker_index := [] |} in
  interleave_loop k k [a; b] result.

(** The inner [while 0 < len(ranker_indexes)] loop of [multileave],
    over the indexes in the order [pop()] hands them out. *)
Fixpoint multileave_round (k : nat) (popped : list nat)
    (rankings : list (list document)) (result : Ranking)
    : M (flow (list (list document) * Ranking) Ranking) :=
  match popped with
  | [] => ret (Continue (rankings, result))
  | ranker_index :: popped' =>
      s <~ pick k ranker_index rankings result ;;
      match s with
      | Return result => ret (Return result)
      | Continue (rankings, result) =>
          multileave_round k popped' rankings result
      end
  end.

(** The outer [while True] loop, for at most [fuel] rounds;
    [Continue] is a loop that has not returned yet. *)
Fixpoint multileave_loop (fuel : nat) (k : nat)
    (rankings : list (list document)) (result : Ranking)
    : M (flow (list (list document) * Ranking) Ranking) :=
  match fuel with
  | O => ret (Continue (rankings, result))
  | S fuel' =>
      let ranker_indexes := seq 0 (length rankings) in
      ranker_indexes <~ shuffle rng ranker_indexes ;;
      s <~ multileave_round k (rev ranker_indexes) rankings result ;;
      match s with
      | Return result => ret (Return result)
      | Continue (rankings, result) =>
          multileave_loop fuel' k rankings result
      end
  end.

(** [multileave]. *)
Definition multileave (fuel : nat) (lists : list (list document))
    : M (flow (list (list document) * Ranking) Ranking) :=
  k <~ lift (min_ (map (@length document) lists)) ;;
  let result :=
    {| items := [];
       number_of_rankers := length lists;
       rank_to_ranker_index := [] |} in
  multileave_loop fuel k lists result.
End Sampling.

(** [counts[i] += 1]. *)
Fixpoint setitem (counts : list nat) (i : nat) (v : nat) : list nat :=
  match counts, i with
  | [], _ => []
  | _ :: cs, O => v :: cs
  | c :: cs, S i' => c :: setitem cs i' v
  end.

Definition increment (counts : list nat) (i : nat) : outcome (list nat) :=
  c <- getitem counts (Z.of_nat i) ;; Ok (setitem counts i (c + 1)).

(** The [for d in clicks] loop of [evaluate]. *)
Fixpoint count_clicks (rank_to_ranker_index : list nat) (clicks : list Z)
    (counts : list nat) : outcome (list nat) :=
  match clicks with
  | [] => Ok counts
  | d :: clicks' =>
      i <- getitem rank_to_ranker_index d ;;
      counts <- increment counts i ;;
      count_clicks rank_to_ranker_index clicks' counts
  end.

(** [evaluate]. *)
Definition evaluate (ranking : Ranking) (clicks : list Z)
    : outcome (list nat) :=
  let counts := repeat 0 (number_of_rankers ranking) in
  counts <- count_clicks (rank_to_ranker_index ranking) clicks counts ;;
  max_count <- max_ counts ;;
  min_count <- min_ counts ;;
  if max_count =? min_count then Ok (map (fun _ => 0) counts)
  else Ok (map (fun c => 0 + (if max_count =? c then 1 else 0)) counts).
End Engine.

Arguments items {document} r.
Arguments number_of_rankers {document} r.
Arguments rank_to_ranker_index {document} r.
Arguments append {document} result d ranker_index.
Arguments try_remove {document} document_eq_dec d r_j.
Arguments pick {document} document_eq_dec rng tau k ranker_index rankings result.
Arguments interleave_loop {document} document_eq_dec rng tau k iterations rankings result.
Arguments interleave {document} document_eq_dec rng tau a b.
Arguments multileave_round {document} document_eq_dec rng tau k popped rankings result.
Arguments multileave_loop {document} document_eq_dec rng tau fuel k rankings result.
Arguments multileave {document} document_eq_dec rng tau fuel lists.
Arguments evaluate {document} ranking clicks.

End Probabilistic.

Import Probabilistic.

(** ** The quantities the specification speaks of *)

Module Spec.

Open Scope R_scope.

(** The rank weight [w(r) = 1 / r^tau], with the real power function. *)
Definition weight (tau : R) (r : Z) : R := 1 / Rpower (IZR r) tau.

(** [sum(weight(tau, r) for r in 1..n)]. *)
Fixpoint weight_sum (tau : R) (n : nat) : R :=
  match n with
  | O => 0
  | S n' => weight_sum tau n' + weight tau (Z.of_nat n)
  end.

(** The breakpoints for length [n] in closed form: the normalised
    partial sums for the first [n - 1] ranks, then [1]. *)
Definition breakpoints (tau : R) (n : nat) : list R :=
  map (fun j => weight_sum tau j / weight_sum tau n) (seq 1 (n - 1)) ++ [1].

(** A sequence of numbers that never goes down. *)
Definition nondecreasing (l : list R) : Prop :=
  forall i j x y,
    (i <= j)%nat -> nth_error l i = Some x -> nth_error l j = Some y -> x <= y.

(** [f < c] holds, as Python evaluates it. *)
Definition exceeds (c : number) (f : R) : Prop := lt (real f) c = Ok true.

(** [i] is the first index whose breakpoint exceeds [f]. *)
Definition first_exceeding (f : R) (breakpoints : list number) (i : nat)
    : Prop :=
  (exists c, nth_error breakpoints i = Some c /\ exceeds c f) /\
  (forall j c, (j < i)%nat -> nth_error breakpoints j = Some c ->
               ~ exceeds c f).

(** Rank [r] and its power [r^tau] lie below the magnitude at which a
    float overflows. *)
Definition representable (tau : R) (r : Z) : Prop :=
  IZR r < overflow_threshold /\ Rpower (IZR r) tau < overflow_threshold.

(** The breakpoints for every length up to [L] can be computed: no
    computation of them raises. *)
Definition breakpoints_computed (tau : R) (L : nat) : Prop :=
  forall n, (n <= L)%nat ->
  exists cumulation, CumulationCache.cumulation tau n = Ok cumulation.

(** The computation of the breakpoints for some length up to [L] raises
    [e]. *)
Definition breakpoints_raise (tau : R) (L : nat) (e : exn) : Prop :=
  exists n, (n <= L)%nat /\ CumulationCache.cumulation tau n = Raise e.

Close Scope R_scope.

(** How many of the clicks, repeats counted, fall on an item that
    ranker [j] contributed. *)
Definition clicks_for (rank_to_ranker_index : list nat) (clicks : list Z)
    (j : nat) : nat :=
  length
    (filter (fun p => match getitem rank_to_ranker_index p with
                      | Ok i => i =? j
                      | Raise _ => false
                      end) clicks).

(** [M] is the greatest, [m] the least of the counters. *)
Definition greatest (M : nat) (counts : list nat) : Prop :=
  In M counts /\ Forall (fun c => c <= M) counts.

Definition least (m : nat) (counts : list nat) : Prop :=
  In m counts /\ Forall (fun c => m <= c) counts.

Section WorkingLists.
Variable document : Type.
Variable document_eq_dec : forall x y : document, {x = y} + {x <> y}.

(** [l] without the first occurrence of [x]; [l] itself when [x] does
    not occur. *)
Fixpoint drop_first (x : document) (l : list document) : list document :=
  match l with
  | [] => []
  | y :: ys => if document_eq_dec y x then ys else y :: drop_first x ys
  end.

(** A working list once the selected item has been taken out of it. *)
Definition discard (d : option document) (l : list document)
    : list document :=
  match d with
  | None => l
  | Some x => drop_first x l
  end.

(** Provenance is well formed: one ranker index per item, each below
    the number [m] of working lists, which is [number_of_rankers]. *)
Definition attributed (m : nat) (rankings : list (list document))
    (result : Ranking document) : Prop :=
  length rankings = m /\
  number_of_rankers result = m /\
  length (rank_to_ranker_index result) = length (items result) /\
  Forall (fun i => i < m) (rank_to_ranker_index result).

(** The working lists and the result share no document, none of them
    repeats one, and every working list still holds enough documents
    to reach [k] items. *)
Definition disjoint_progress (k m : nat) (rankings : list (list document))
    (result : Ranking document) : Prop :=
  length rankings = m /\
  Forall (@NoDup document) rankings /\
  NoDup (items result) /\
  (forall x, In (Some x) (items result) ->
             Forall (fun r => ~ In x r) rankings) /\
  Forall (fun r => k <= length r + length (items result)) rankings.

(** [k] is the least of the lengths of [lists]. *)
Definition least_length (k : nat) (lists : list (list document)) : Prop :=
  In k (map (@length document) lists) /\
  Forall (fun l => k <= length l) lists.

(** No working list is longer than [L]. *)
Definition bounded (L : nat) (rankings : list (list document)) : Prop :=
  Forall (fun r => length r <= L) rankings.
End WorkingLists.

Arguments drop_first {document} document_eq_dec x l.
Arguments discard {document} document_eq_dec d l.
Arguments attributed {document} m rankings result.
Arguments disjoint_progress {document} k m rankings result.
Arguments least_length {document} k lists.
Arguments bounded {document} L rankings.

End Spec.

Import Spec.

(** ** Concrete inputs *)

Module Scenario.

(** A generator that always answers [0.0] and [0] and whose shuffle
    leaves the list as it is. *)
Definition constant_draws : Draws :=
  {| random_tape := fun _ => 0%R;
     randint_tape := fun _ => 0;
     shuffle_tape := fun _ l => l |}.

(** The same generator with uniform draws that are all [0.95]. *)
Definition late_draws : Draws :=
  {| random_tape := fun _ => (19 / 20)%R;
     randint_tape := fun _ => 0;
     shuffle_tape := fun _ l => l |}.

(** The ranking of the specification's [evaluate] scenarios, with
    [rank_to_ranker_index = [0, 1, 0, 1]]. *)
Definition four_items : Ranking nat :=
  {| items := [Some 10; Some 20; Some 30; Some 40];
     number_of_rankers := 2;
     rank_to_ranker_index := [0; 1; 0; 1] |}.

End Scenario.

Import Scenario.

(** ** Provenance and draw order *)

Module Trace.

(** The order in which round [j] of [multileave] pops the ranker
    indexes of [m] lists: the shuffled indexes, last first. *)
Definition pop_order (rng : Draws) (m j : nat) : list nat :=
  rev (shuffle_tape rng j (seq 0 m)).

(** The ranker indexes popped by [rounds] successive rounds, the first
    of which uses shuffle number [from]. *)
Definition pops (rng : Draws) (m from rounds : nat) : list nat :=
  concat (map (pop_order rng m) (seq from rounds)).

Section Sources.
Variable document : Type.

(** The item is a document of the input list that [ranker_index]
    names. *)
Definition from_source (lists : list (list document))
    (item : option document) (ranker_index : nat) : Prop :=
  exists d source,
    item = Some d /\ nth_error lists ranker_index = Some source /\
    In d source.

(** Every working list holds only documents of its input list and
    still enough of them to reach [k] items, and every item of the
    result is a document of the list its ranker index names. *)
Definition sourced (lists : list (list document)) (k m : nat)
    (rankings : list (list document)) (result : Ranking document) : Prop :=
  length rankings = m /\
  Forall2 (fun ranking source => incl ranking source) rankings lists /\
  Forall (fun r => k <= length r + length (items result)) rankings /\
  Forall2 (from_source lists) (items result) (rank_to_ranker_index result).
End Sources.

Arguments from_source {document} lists item ranker_index.
Arguments sourced {document} lists k m rankings result.

End Trace.

Import Trace.

(** ** The caches as the classes keep them *)

Module Registry.

Section Instances.
Variables K V : Type.
Variable eq_dec : forall x y : K, {x = y} + {x <> y}.

(** A class attribute [_tau_to_instance]: the instances of a cache
    class, one dictionary per [tau]. *)
Definition registry : Type := Memo.dict R (Memo.dict K V).

(** [__new__]: [if tau not in cls._tau_to_instance:
    cls._tau_to_instance[tau] = dict.__new__(cls, tau)]. *)
Definition new_instance (reg : registry) (tau : R) : registry :=
  match Memo.find Req_dec_T reg tau with
  | Some _ => reg
  | None => (tau, []) :: reg
  end.

(** The dictionary that is the instance for [tau]. *)
Definition instance (reg : registry) (tau : R) : Memo.dict K V :=
  match Memo.find Req_dec_T reg tau with
  | Some d => d
  | None => []
  end.

(** What the instance for [tau] holds under key [k]. *)
Definition entry (reg : registry) (tau : R) (k : K) : option V :=
  Memo.find eq_dec (instance reg tau) k.

(** [self[k] = v] on the instance for [tau]. *)
Definition store_entry (reg : registry) (tau : R) (k : K) (v : V)
    : registry :=
  (tau, (k, v) :: instance reg tau) :: reg.
End Instances.

Arguments new_instance {K V} reg tau.
Arguments instance {K V} reg tau.
Arguments entry {K V} eq_dec reg tau k.
Arguments store_entry {K V} reg tau k v.

(** The three registries: [MemberCache._tau_to_instance],
    [SumCache._tau_to_instance], [CumulationCache._tau_to_instance]. *)
Record Store : Type := {
  member_instances : registry Z number;
  sum_instances : registry nat number;
  cumulation_instances : registry nat (list number)
}.

(** Computations on the caches; what was stored before an exception
    stays stored. *)
Definition C (A : Type) : Type := Store -> outcome A * Store.

Definition retC {A : Type} (a : A) : C A := fun s => (Ok a, s).

Definition bindC {A B : Type} (m : C A) (k : A -> C B) : C B :=
  fun s =>
    match m s with
    | (Ok a, s') => k a s'
    | (Raise e, s') => (Raise e, s')
    end.

Definition liftC {A : Type} (o : outcome A) : C A := fun s => (o, s).

Notation "x <~~ m ;; k" := (bindC m (fun x => k))
  (at level 61, m at next level, right associativity).

(** [MemberCache(tau)]: [__new__], then [__init__], which only records
    [tau]. *)
Definition new_MemberCache (tau : R) (s : Store) : Store :=
  {| member_instances := new_instance (member_instances s) tau;
     sum_instances := sum_instances s;
     cumulation_instances := cumulation_instances s |}.

(** [SumCache(tau)]: [__new__], then [__init__], which builds
    [MemberCache(tau)]. *)
Definition new_SumCache (tau : R) (s : Store) : Store :=
  new_MemberCache tau
    {| member_instances := member_instances s;
       sum_instances := new_instance (sum_instances s) tau;
       cumulation_instances := cumulation_instances s |}.

(** [CumulationCache(tau)]: [__new__], then [__init__], which builds
    [SumCache(tau)] and [MemberCache(tau)]. *)
Definition new_CumulationCache (tau : R) (s : Store) : Store :=
  new_MemberCache tau
    (new_SumCache tau
       {| member_instances := member_instances s;
          sum_instances := sum_instances s;
          cumulation_instances := new_instance (cumulation_instances s) tau |}).

(** [Probabilistic.__init__]. *)
Definition new_Probabilistic (tau : R) (s : Store) : Store :=
  new_CumulationCache tau s.

(** [self[r]] on the [MemberCache] for [tau]: the stored weight, or on a
    miss [__missing__], which computes the weight, stores it and
    returns it. *)
Definition member_getitem (tau : R) (r : Z) : C number := fun s =>
  match entry Z.eq_dec (member_instances s) tau r with
  | Some w => (Ok w, s)
  | None =>
      match member_cache tau r with
      | Ok w =>
          (Ok w,
           {| member_instances := store_entry (member_instances s) tau r w;
              sum_instances := sum_instances s;
              cumulation_instances := cumulation_instances s |})
      | Raise e => (Raise e, s)
      end
  end.

(** [[self.member_cache[r] for r in rs]]. *)
Fixpoint member_getitems (tau : R) (rs : list Z) : C (list number) :=
  match rs with
  | [] => retC []
  | r :: rs' =>
      w <~~ member_getitem tau r ;;
      ws <~~ member_getitems tau rs' ;;
      retC (w :: ws)
  end.

(** [self[n]] on the [SumCache] for [tau]. *)
Definition sum_getitem (tau : R) (n : nat) : C number := fun s =>
  match entry Nat.eq_dec (sum_instances s) tau n with
  | Some v => (Ok v, s)
  | None =>
      match member_getitems tau (range 1 (n + 1)) s with
      | (Ok ws, s') =>
          let v := sum ws in
          (Ok v,
           {| member_instances := member_instances s';
              sum_instances := store_entry (sum_instances s') tau n v;
              cumulation_instances := cumulation_instances s' |})
      | (Raise e, s') => (Raise e, s')
      end
  end.

(** The loop of [CumulationCache.__missing__], reading the weights
    through the [MemberCache]. *)
Fixpoint cumulate_cached (tau : R) (rs : list Z)
    (numerator denominator : number) (result : list number)
    : C (list number) :=
  match rs with
  | [] => retC result
  | r :: rs' =>
      w <~~ member_getitem tau r ;;
      let numerator := add numerator w in
      q <~~ liftC (truediv numerator denominator) ;;
      cumulate_cached tau rs' numerator denominator (result ++ [q])
  end.

(** [self[l]] on the [CumulationCache] for [tau]. *)
Definition cumulation_getitem (tau : R) (l : nat) : C (list number) :=
  fun s =>
  match entry Nat.eq_dec (cumulation_instances s) tau l with
  | Some result => (Ok result, s)
  | None =>
      match (denominator <~~ sum_getitem tau l ;;
             cumulate_cached tau (range 1 l) (real 0) denominator []) s
      with
      | (Ok result, s') =>
          let result := result ++ [real 1] in
          (Ok result,
           {| member_instances := member_instances s';
              sum_instances := sum_instances s';
              cumulation_instances :=
                store_entry (cumulation_instances s') tau l result |})
      | (Raise e, s') => (Raise e, s')
      end
  end.

(** [choice_one_of], reading the breakpoints through the cache. *)
Definition choice_one_of_cached {document : Type} (rng : Draws) (tau : R)
    (l : list document) (c : Cursor) : C (option document * Cursor) :=
  fun s =>
    let n := length l in
    match random rng c with
    | Ok (f, c') =>
        match cumulation_getitem tau n s with
        | (Ok cumulation, s') =>
            (match scan f cumulation l (range 0 n) with
             | Ok o => Ok (o, c')
             | Raise e => Raise e
             end, s')
        | (Raise e, s') => (Raise e, s')
        end
    | Raise e => (Raise e, s)
    end.

(** Every stored value is what [__missing__] computes for its key. *)
Definition consistent (s : Store) : Prop :=
  (forall tau r w,
      entry Z.eq_dec (member_instances s) tau r = Some w ->
      member_cache tau r = Ok w) /\
  (forall tau n v,
      entry Nat.eq_dec (sum_instances s) tau n = Some v ->
      sum_cache tau n = Ok v) /\
  (forall tau l v,
      entry Nat.eq_dec (cumulation_instances s) tau l = Some v ->
      cumulation tau l = Ok v).

(** [s'] holds every entry of [s], with the same value. *)
Definition extends (s s' : Store) : Prop :=
  (forall tau r w,
      entry Z.eq_dec (member_instances s) tau r = Some w ->
      entry Z.eq_dec (member_instances s') tau r = Some w) /\
  (forall tau n v,
      entry Nat.eq_dec (sum_instances s) tau n = Some v ->
      entry Nat.eq_dec (sum_instances s') tau n = Some v) /\
  (forall tau l v,
      entry Nat.eq_dec (cumulation_instances s) tau l = Some v ->
      entry Nat.eq_dec (cumulation_instances s') tau l = Some v).

(** No instance has been built yet. *)
Definition empty : Store :=
  {| member_instances := [];
     sum_instances := [];
     cumulation_instances := [] |}.

End Registry.

Import Registry.

(** ** Facts about the Python fragment *)

Module PyFacts.

Lemma getitem_of_nat {A : Type} (l : list A) (i : nat) :
  getitem l (Z.of_nat i) =
  match nth_error l i with
  | Some x => Ok x
  | None => Raise IndexError
  end.
Proof.
  unfold getitem.
  destruct (Z.ltb_spec (Z.of_nat i) 0) as [Hneg | _]; [lia |].
  destruct (Z.leb_spec 0 (Z.of_nat i)) as [_ | Hneg]; [| lia].
  destruct (Z.ltb_spec (Z.of_nat i) (Z.of_nat (length l))) as [Hlt | Hge]; simpl.
  - now rewrite Nat2Z.id.
  - assert (Hnone : nth_error l i = None) by (apply nth_error_None; lia).
    now rewrite Hnone.
Qed.

Lemma getitem_negative {A : Type} (l : list A) (i : Z) :
  (- Z.of_nat (length l) <= i < 0)%Z ->
  getitem l i = getitem l (Z.of_nat (length l) + i).
Proof.
  intros Hi. unfold getitem.
  destruct (Z.ltb_spec i 0) as [_ | Hge]; [| lia].
  destruct (Z.ltb_spec (Z.of_nat (length l) + i) 0) as [Hneg | _]; [lia |].
  now rewrite (Z.add_comm i).
Qed.

Lemma getitem_out_of_range {A : Type} (l : list A) (i : Z) :
  (Z.of_nat (length l) <= i \/ i < - Z.of_nat (length l))%Z ->
  getitem l i = Raise IndexError.
Proof.
  intros Hi. unfold getitem.
  destruct (Z.ltb_spec i 0) as [Hneg | Hpos].
  - destruct (Z.leb_spec 0 (i + Z.of_nat (length l))) as [H0 | H0]; [| reflexivity].
    simpl. destruct (Z.ltb_spec (i + Z.of_nat (length l)) (Z.of_nat (length l)));
      [| reflexivity].
    lia.
  - destruct (Z.leb_spec 0 i) as [_ | H0]; [| lia].
    destruct (Z.ltb_spec i (Z.of_nat (length l))) as [Hlt | _]; [lia | reflexivity].
Qed.

Lemma getitem_raises_IndexError {A : Type} (l : list A) (i : Z) (e : exn) :
  getitem l i = Raise e -> e = IndexError.
Proof.
  unfold getitem.
  destruct ((0 <=? _)%Z && _)%bool; [destruct (nth_error _ _) |]; congruence.
Qed.

Lemma mapM_ok {A B : Type} (f : A -> outcome B) (g : A -> B) (l : list A) :
  (forall x, In x l -> f x = Ok (g x)) -> mapM f l = Ok (map g l).
Proof.
  induction l as [| x xs IH]; intros Hf; simpl; [reflexivity |].
  rewrite (Hf x (or_introl eq_refl)); simpl.
  rewrite IH by (intros y Hy; apply Hf; now right).
  reflexivity.
Qed.

Lemma in_range (lo hi : nat) (r : Z) :
  In r (range lo hi) <-> (Z.of_nat lo <= r < Z.of_nat hi)%Z.
Proof.
  unfold range. rewrite in_map_iff. split.
  - intros [i [<- Hi]]. apply in_seq in Hi. lia.
  - intros Hr. exists (Z.to_nat r). split; [lia |]. apply in_seq. lia.
Qed.

Section RemoveFacts.
Variable A : Type.
Variable eq_dec : forall x y : A, {x = y} + {x <> y}.

Lemma remove_raises_ValueError (x : A) (l : list A) (e : exn) :
  Py.remove eq_dec x l = Raise e -> e = ValueError.
Proof.
  induction l as [| y ys IH]; simpl; [congruence |].
  destruct (eq_dec y x); [congruence |].
  destruct (Py.remove eq_dec x ys); simpl; [congruence | exact IH].
Qed.

Lemma remove_absent (x : A) (l : list A) :
  ~ In x l -> Py.remove eq_dec x l = Raise ValueError.
Proof.
  induction l as [| y ys IH]; simpl; intros Hx; [reflexivity |].
  destruct (eq_dec y x) as [-> | _]; [tauto |].
  rewrite IH by tauto. reflexivity.
Qed.

Lemma remove_present (x : A) (l : list A) :
  In x l ->
  exists l1 l2, l = l1 ++ x :: l2 /\ ~ In x l1 /\
                Py.remove eq_dec x l = Ok (l1 ++ l2).
Proof.
  induction l as [| y ys IH]; simpl; intros Hx; [tauto |].
  destruct (eq_dec y x) as [-> | Hne].
  - exists [], ys. simpl. tauto.
  - destruct Hx as [-> | Hx]; [congruence |].
    destruct (IH Hx) as (l1 & l2 & -> & Hl1 & ->).
    exists (y :: l1), l2. simpl. intuition congruence.
Qed.
End RemoveFacts.

End PyFacts.

Import PyFacts.

(** ** Facts about floats *)

Module FloatFacts.

Open Scope R_scope.

Lemma overflow_threshold_lower : 2 ^ 1000 < overflow_threshold.
Proof. unfold overflow_threshold. lra. Qed.

Lemma overflow_threshold_upper : overflow_threshold <= 2 ^ 1024.
Proof. unfold overflow_threshold. lra. Qed.

Lemma underflow_threshold_positive : 0 < underflow_threshold.
Proof. unfold underflow_threshold. apply Rinv_0_lt_compat. lra. Qed.

Lemma underflow_threshold_value : underflow_threshold = / 2 ^ 1075.
Proof. reflexivity. Qed.

Lemma underflow_below_reciprocal : underflow_threshold < / overflow_threshold.
Proof.
  unfold overflow_threshold, underflow_threshold.
  apply Rinv_lt_contravar; [| lra]. apply Rmult_lt_0_compat; lra.
Qed.

Global Opaque overflow_threshold underflow_threshold.

Lemma overflow_threshold_above_1 : 1 < overflow_threshold.
Proof. pose proof overflow_threshold_lower. lra. Qed.

Lemma underflow_threshold_below_1 : underflow_threshold < 1.
Proof.
  pose proof underflow_below_reciprocal as H.
  pose proof overflow_threshold_above_1 as H1.
  assert (/ overflow_threshold < / 1)
    by (apply Rinv_lt_contravar; lra).
  rewrite Rinv_1 in *. lra.
Qed.

(** Inside the range a result is kept as it is. *)
Lemma fl_inside (x : R) :
  underflow_threshold < x < overflow_threshold -> fl x = Finite x.
Proof.
  intros [Hlow Hhigh]. unfold fl.
  pose proof underflow_threshold_positive.
  pose proof overflow_threshold_above_1.
  destruct (Rle_dec overflow_threshold x); [lra |].
  destruct (Rle_dec x (- overflow_threshold)); [lra |].
  destruct (Rle_dec (Rabs x) underflow_threshold) as [Habs |]; [| reflexivity].
  rewrite Rabs_pos_eq in Habs by lra. lra.
Qed.

Lemma fl_zero : fl 0 = Finite 0.
Proof.
  unfold fl.
  pose proof underflow_threshold_positive.
  pose proof overflow_threshold_above_1.
  destruct (Rle_dec overflow_threshold 0); [lra |].
  destruct (Rle_dec 0 (- overflow_threshold)); [lra |].
  destruct (Rle_dec (Rabs 0) underflow_threshold); reflexivity.
Qed.

(** The reciprocal of a float between [1] and the overflow threshold. *)
Lemma reciprocal_inside (p : R) :
  1 <= p < overflow_threshold ->
  underflow_threshold < 1 / p < overflow_threshold.
Proof.
  intros [Hlow Hhigh].
  pose proof underflow_below_reciprocal.
  pose proof overflow_threshold_above_1.
  assert (/ overflow_threshold < / p)
    by (apply Rinv_lt_contravar; [apply Rmult_lt_0_compat |]; lra).
  assert (/ p <= / 1) by (apply Rinv_le_contravar; lra).
  rewrite Rinv_1 in *. unfold Rdiv. rewrite Rmult_1_l. lra.
Qed.

(** A quotient [x / y] with [1 <= x <= y] and [y] below the overflow
    threshold. *)
Lemma quotient_inside (x y : R) :
  1 <= x <= y -> y < overflow_threshold ->
  underflow_threshold < x / y < overflow_threshold.
Proof.
  intros [Hx Hxy] Hy.
  destruct (reciprocal_inside y) as [Hlow _]; [lra |].
  pose proof overflow_threshold_above_1.
  assert (Hinv : 0 < / y) by (apply Rinv_0_lt_compat; lra).
  unfold Rdiv in *. rewrite Rmult_1_l in Hlow.
  split.
  - apply Rlt_le_trans with (1 * / y); [lra |].
    apply Rmult_le_compat_r; lra.
  - apply Rle_lt_trans with 1; [| lra].
    apply (Rmult_le_reg_r y); [lra |].
    rewrite Rmult_assoc, Rinv_l by lra. lra.
Qed.

Lemma add_real (x y : R) :
  underflow_threshold < x + y < overflow_threshold ->
  add (real x) (real y) = real (x + y).
Proof. intros H. unfold add, real, fadd. now rewrite fl_inside. Qed.

Lemma truediv_real (x y : R) :
  y <> 0 -> underflow_threshold < x / y < overflow_threshold ->
  truediv (real x) (real y) = Ok (real (x / y)).
Proof.
  intros Hy H. unfold truediv, real, fdiv.
  destruct (Req_dec_T y 0); [contradiction |]. simpl.
  now rewrite fl_inside.
Qed.

Lemma truediv_zero (x : number) : truediv x (real 0) = Raise ZeroDivisionError.
Proof.
  unfold truediv, real.
  destruct x as [a | a b]; simpl.
  - destruct (Req_dec_T 0 0); [reflexivity | congruence].
  - destruct (Req_dec_T (0 * 0 + 0 * 0) 0) as [_ | H]; [reflexivity |].
    exfalso. apply H. ring.
Qed.

(** What the operators can raise. *)
Lemma fdiv_raises (a b : float) (e : exn) :
  fdiv a b = Raise e -> e = ZeroDivisionError.
Proof.
  unfold fdiv. destruct b; try discriminate.
  destruct (Req_dec_T x 0); congruence.
Qed.

Lemma cdiv_raises (x y : float * float) (e : exn) :
  cdiv x y = Raise e -> e = ZeroDivisionError.
Proof.
  unfold cdiv. destruct y as [[c | | |] [d | | |]]; try discriminate.
  destruct (Req_dec_T _ 0); [congruence |].
  destruct x as [[a | | |] [b | | |]]; discriminate.
Qed.

Lemma truediv_raises (x y : number) (e : exn) :
  truediv x y = Raise e -> e = ZeroDivisionError.
Proof.
  unfold truediv.
  destruct x as [a | a b], y as [c | c d]; try apply cdiv_raises.
  destruct (fdiv a c) eqn:H; simpl; [discriminate |].
  intros [= <-]. eapply fdiv_raises; eassumption.
Qed.

Lemma lt_raises (x y : number) (e : exn) :
  lt x y = Raise e -> e = TypeError.
Proof. unfold lt. destruct x, y; congruence. Qed.

Lemma of_int_raises (r : Z) (e : exn) :
  of_int r = Raise e -> e = OverflowError.
Proof. unfold of_int. destruct (Rle_dec _ _); congruence. Qed.

Lemma libm_pow_raises (x y : R) (e : exn) :
  libm_pow x y = Raise e -> e = OverflowError.
Proof. unfold libm_pow. destruct (Rle_dec _ _); congruence. Qed.

Lemma pow_raises (r : Z) (tau : R) (e : exn) :
  pow r tau = Raise e -> e = OverflowError \/ e = ZeroDivisionError.
Proof.
  unfold pow.
  destruct (of_int r) as [iv | e'] eqn:Hiv; simpl.
  2:{ intros [= <-]. left. eapply of_int_raises; eassumption. }
  destruct (Req_dec_T tau 0); [discriminate |].
  destruct (total_order_T iv 0) as [[Hneg | Hzero] | Hpos].
  - destruct (libm_pow (- iv) tau) as [ix | e'] eqn:Hix; simpl.
    + destruct (Req_dec_T _ tau); discriminate.
    + intros [= <-]. left. eapply libm_pow_raises; eassumption.
  - destruct (Rlt_dec tau 0); [| discriminate]. intros [= <-]. now right.
  - destruct (libm_pow iv tau) as [ix | e'] eqn:Hix; simpl; [discriminate |].
    intros [= <-]. left. eapply libm_pow_raises; eassumption.
Qed.

Close Scope R_scope.

End FloatFacts.

Import FloatFacts.

(** ** Facts about the caches *)

Module CumulationCacheFacts.

Open Scope R_scope.

Lemma mapM_app {A B : Type} (f : A -> outcome B) (l1 l2 : list A) :
  mapM f (l1 ++ l2) =
  (xs <- mapM f l1 ;; ys <- mapM f l2 ;; Ok (xs ++ ys)).
Proof.
  induction l1 as [| x l1 IH]; simpl.
  - destruct (mapM f l2); reflexivity.
  - destruct (f x); simpl; [| reflexivity].
    rewrite IH. destruct (mapM f l1); simpl; [| reflexivity].
    destruct (mapM f l2); reflexivity.
Qed.

(** A traversal that returns has visited results only. *)
Lemma mapM_returned {A B : Type} (f : A -> outcome B) (l : list A)
    (ys : list B) :
  mapM f l = Ok ys -> Forall2 (fun x y => f x = Ok y) l ys.
Proof.
  revert ys. induction l as [| x l IH]; simpl; intros ys.
  - intros [= <-]. constructor.
  - destruct (f x) as [y | e] eqn:Hx; simpl; [| discriminate].
    destruct (mapM f l) as [ys' | e]; simpl; [| discriminate].
    intros [= <-]. constructor; [exact Hx | now apply IH].
Qed.

(** A traversal that raises hands on what one of its items raised. *)
Lemma mapM_raised {A B : Type} (f : A -> outcome B) (l : list A) (e : exn) :
  mapM f l = Raise e -> exists x, In x l /\ f x = Raise e.
Proof.
  induction l as [| x l IH]; simpl; [discriminate |].
  destruct (f x) as [y | e'] eqn:Hx; simpl.
  - destruct (mapM f l) as [ys | e']; simpl; [discriminate |].
    intros [= <-]. destruct (IH eq_refl) as (x' & Hin & Hx').
    exists x'. split; [now right | exact Hx'].
  - intros [= <-]. exists x. split; [now left | exact Hx].
Qed.

(** When every item returns or raises [e] and one of them raises, the
    traversal raises [e]. *)
Lemma mapM_raises {A B : Type} (f : A -> outcome B) (l : list A) (e : exn) :
  (forall x, In x l -> (exists y, f x = Ok y) \/ f x = Raise e) ->
  (exists x, In x l /\ f x = Raise e) ->
  mapM f l = Raise e.
Proof.
  intros Hall (x & Hin & Hx).
  destruct (mapM f l) as [ys | e'] eqn:Hmap.
  - apply mapM_returned in Hmap.
    exfalso. clear Hall. induction Hmap as [| x' y l ys Hx' _ IH].
    + destruct Hin.
    + destruct Hin as [-> | Hin]; [congruence | auto].
  - apply mapM_raised in Hmap. destruct Hmap as (x' & Hin' & Hx').
    destruct (Hall x' Hin') as [[y Hy] | He]; congruence.
Qed.

Lemma Rpower_positive (x y : R) : 0 < Rpower x y.
Proof. unfold Rpower. apply exp_pos. Qed.

Lemma Rpower_base_1 (y : R) : Rpower 1 y = 1.
Proof. unfold Rpower. now rewrite ln_1, Rmult_0_r, exp_0. Qed.

Lemma Rpower_at_least_1 (x y : R) : 1 <= x -> 0 <= y -> 1 <= Rpower x y.
Proof.
  intros Hx Hy. rewrite <- (Rpower_base_1 y).
  apply Rle_Rpower_l; [exact Hy | lra].
Qed.

Lemma rank_at_least_1 (r : Z) : (1 <= r)%Z -> 1 <= IZR r.
Proof. intros Hr. now apply IZR_le. Qed.

(** Whether a rank is representable can be decided, and for [tau >= 0]
    every lower rank is representable too. *)
Lemma representable_dec (tau : R) (r : Z) :
  {representable tau r} + {~ representable tau r}.
Proof.
  unfold representable.
  destruct (Rlt_dec (IZR r) overflow_threshold);
    destruct (Rlt_dec (Rpower (IZR r) tau) overflow_threshold); tauto.
Qed.

Lemma representable_below (tau : R) (r1 r2 : Z) :
  0 <= tau -> (1 <= r1 <= r2)%Z ->
  representable tau r2 -> representable tau r1.
Proof.
  intros Htau Hr [Hrank Hpower].
  assert (H1 : 1 <= IZR r1) by (apply rank_at_least_1; lia).
  assert (H12 : IZR r1 <= IZR r2) by (apply IZR_le; lia).
  split; [lra |].
  eapply Rle_lt_trans; [| exact Hpower].
  apply Rle_Rpower_l; [exact Htau | lra].
Qed.

(** *** [**] and the weights on ranks [r >= 1] *)

Lemma of_int_rank (r : Z) :
  (1 <= r)%Z -> IZR r < overflow_threshold -> of_int r = Ok (IZR r).
Proof.
  intros Hr Hlt. unfold of_int.
  pose proof (rank_at_least_1 r Hr).
  rewrite Rabs_pos_eq by lra.
  destruct (Rle_dec overflow_threshold (IZR r)); [lra | reflexivity].
Qed.

Lemma of_int_beyond (r : Z) :
  (1 <= r)%Z -> overflow_threshold <= IZR r -> of_int r = Raise OverflowError.
Proof.
  intros Hr Hge. unfold of_int.
  pose proof (rank_at_least_1 r Hr).
  rewrite Rabs_pos_eq by lra.
  destruct (Rle_dec overflow_threshold (IZR r)); [reflexivity | lra].
Qed.

Lemma pow_rank (tau : R) (r : Z) :
  0 <= tau -> (1 <= r)%Z -> representable tau r ->
  pow r tau = Ok (real (Rpower (IZR r) tau)).
Proof.
  intros Htau Hr [Hrank Hpower]. unfold pow.
  pose proof (rank_at_least_1 r Hr) as H1.
  rewrite of_int_rank by assumption. simpl.
  destruct (Req_dec_T tau 0) as [-> | Hne].
  - rewrite Rpower_O by lra. reflexivity.
  - destruct (total_order_T (IZR r) 0) as [[Hneg | Hzero] | Hpos]; [lra | lra |].
    unfold libm_pow.
    destruct (Rle_dec overflow_threshold (Rpower (IZR r) tau)); [lra |].
    simpl. unfold real. rewrite fl_inside; [reflexivity |].
    pose proof (Rpower_at_least_1 (IZR r) tau H1 Htau).
    pose proof underflow_threshold_below_1. lra.
Qed.

Lemma pow_rank_overflow (tau : R) (r : Z) :
  (1 <= r)%Z -> ~ representable tau r -> pow r tau = Raise OverflowError.
Proof.
  intros Hr Hout. unfold pow.
  pose proof (rank_at_least_1 r Hr) as H1.
  destruct (Rlt_dec (IZR r) overflow_threshold) as [Hrank | Hrank].
  2:{ rewrite of_int_beyond by (assumption || lra). reflexivity. }
  rewrite of_int_rank by assumption. simpl.
  assert (Hpower : overflow_threshold <= Rpower (IZR r) tau).
  { destruct (Rlt_dec (Rpower (IZR r) tau) overflow_threshold) as [H | H];
      [| lra].
    exfalso. apply Hout. split; assumption. }
  destruct (Req_dec_T tau 0) as [-> | Hne].
  - rewrite Rpower_O in Hpower by lra.
    pose proof overflow_threshold_above_1. lra.
  - destruct (total_order_T (IZR r) 0) as [[Hneg | Hzero] | Hpos]; [lra | lra |].
    unfold libm_pow.
    destruct (Rle_dec overflow_threshold (Rpower (IZR r) tau)); [reflexivity | lra].
Qed.

(** A power of a rank [r >= 1] is a float, whatever [tau] is. *)
Lemma pow_rank_float (tau : R) (r : Z) (p : number) :
  (1 <= r)%Z -> pow r tau = Ok p -> exists x, p = Float x.
Proof.
  intros Hr. unfold pow.
  pose proof (rank_at_least_1 r Hr) as H1.
  destruct (of_int r) as [iv | e] eqn:Hiv; simpl; [| discriminate].
  assert (iv = IZR r) as ->.
  { unfold of_int in Hiv. destruct (Rle_dec _ _); congruence. }
  destruct (Req_dec_T tau 0); [intros [= <-]; now eexists |].
  destruct (total_order_T (IZR r) 0) as [[Hneg | Hzero] | Hpos]; [lra | lra |].
  destruct (libm_pow (IZR r) tau) as [ix | e]; simpl; [| discriminate].
  intros [= <-]. now eexists.
Qed.

Lemma weight_positive (tau : R) (r : Z) : 0 < weight tau r.
Proof.
  unfold weight. apply Rdiv_lt_0_compat; [lra | apply Rpower_positive].
Qed.

Lemma weight_at_most_1 (tau : R) (r : Z) :
  0 <= tau -> (1 <= r)%Z -> weight tau r <= 1.
Proof.
  intros Htau Hr. unfold weight.
  pose proof (Rpower_at_least_1 (IZR r) tau (rank_at_least_1 r Hr) Htau) as Hp.
  apply (Rmult_le_reg_r (Rpower (IZR r) tau)); [lra |].
  unfold Rdiv. rewrite Rmult_assoc, Rinv_l by lra. lra.
Qed.

Lemma weight_rank_1 (tau : R) : weight tau 1 = 1.
Proof. unfold weight. rewrite Rpower_base_1. field. Qed.

(** The weight of a representable rank, for [tau >= 0]. *)
Lemma member_cache_rank (tau : R) (r : Z) :
  0 <= tau -> (1 <= r)%Z -> representable tau r ->
  member_cache tau r = Ok (real (weight tau r)).
Proof.
  intros Htau Hr Hrep. unfold member_cache.
  rewrite pow_rank by assumption. simpl.
  pose proof (Rpower_at_least_1 (IZR r) tau (rank_at_least_1 r Hr) Htau) as Hp.
  apply truediv_real; [lra |].
  apply reciprocal_inside. destruct Hrep. lra.
Qed.

(** The lookup of a rank that is not representable. *)
Lemma member_cache_overflow (tau : R) (r : Z) :
  (1 <= r)%Z -> ~ representable tau r ->
  member_cache tau r = Raise OverflowError.
Proof.
  intros Hr Hout. unfold member_cache.
  now rewrite pow_rank_overflow.
Qed.

(** For [tau >= 0] a weight that is computed is the weight of a
    representable rank. *)
Lemma member_cache_returned (tau : R) (r : Z) (w : number) :
  0 <= tau -> (1 <= r)%Z -> member_cache tau r = Ok w ->
  representable tau r /\ w = real (weight tau r).
Proof.
  intros Htau Hr Hw.
  destruct (representable_dec tau r) as [Hrep | Hout].
  - rewrite member_cache_rank in Hw by assumption.
    injection Hw as <-. split; [exact Hrep | reflexivity].
  - rewrite member_cache_overflow in Hw by assumption. discriminate.
Qed.

Lemma member_cache_float (tau : R) (r : Z) (w : number) :
  (1 <= r)%Z -> member_cache tau r = Ok w -> exists x, w = Float x.
Proof.
  intros Hr. unfold member_cache.
  destruct (pow r tau) as [p | e] eqn:Hp; simpl; [| discriminate].
  destruct (pow_rank_float tau r p Hr Hp) as [x ->].
  unfold truediv, real. destruct (fdiv (Finite 1) x); simpl; [| discriminate].
  intros [= <-]. now eexists.
Qed.

Lemma member_cache_raises (tau : R) (r : Z) (e : exn) :
  member_cache tau r = Raise e -> e = OverflowError \/ e = ZeroDivisionError.
Proof.
  unfold member_cache.
  destruct (pow r tau) as [p | e'] eqn:Hp; cbn [bind].
  - intros H. right. eapply truediv_raises; eassumption.
  - intros [= <-]. eapply pow_raises; eassumption.
Qed.

(** *** The sums *)

Lemma weight_sum_S (tau : R) (n : nat) :
  weight_sum tau (S n) = weight_sum tau n + weight tau (Z.of_nat (S n)).
Proof. reflexivity. Qed.

Lemma weight_sum_nonneg (tau : R) (n : nat) : 0 <= weight_sum tau n.
Proof.
  induction n as [| n IH]; [simpl; lra |].
  rewrite weight_sum_S. pose proof (weight_positive tau (Z.of_nat (S n))). lra.
Qed.

Lemma weight_sum_positive (tau : R) (n : nat) :
  (1 <= n)%nat -> 0 < weight_sum tau n.
Proof.
  destruct n as [| n]; [lia | intros _].
  rewrite weight_sum_S.
  pose proof (weight_sum_nonneg tau n).
  pose proof (weight_positive tau (Z.of_nat (S n))). lra.
Qed.

Lemma weight_sum_monotone (tau : R) (i j : nat) :
  (i <= j)%nat -> weight_sum tau i <= weight_sum tau j.
Proof.
  induction 1 as [| j _ IH]; [lra |].
  rewrite weight_sum_S. pose proof (weight_positive tau (Z.of_nat (S j))). lra.
Qed.

Lemma weight_sum_at_least_1 (tau : R) (n : nat) :
  (1 <= n)%nat -> 1 <= weight_sum tau n.
Proof.
  intros Hn. pose proof (weight_sum_monotone tau 1 n Hn) as H.
  simpl in H. rewrite weight_rank_1 in H. lra.
Qed.

Lemma weight_sum_at_most (tau : R) (n : nat) :
  0 <= tau -> weight_sum tau n <= IZR (Z.of_nat n).
Proof.
  intros Htau. induction n as [| n IH]; [simpl; lra |].
  pose proof (weight_at_most_1 tau (Z.of_nat (S n)) Htau ltac:(lia)).
  assert (IZR (Z.of_nat (S n)) = IZR (Z.of_nat n) + 1)
    by (rewrite Nat2Z.inj_succ, succ_IZR; reflexivity).
  rewrite weight_sum_S. lra.
Qed.

(** The sums of the weights stay inside the range of floats. *)
Lemma weight_sum_inside (tau : R) (j n : nat) :
  0 <= tau -> (1 <= j <= n)%nat -> IZR (Z.of_nat n) < overflow_threshold ->
  underflow_threshold < weight_sum tau j < overflow_threshold.
Proof.
  intros Htau Hj Hn.
  pose proof (weight_sum_at_least_1 tau j ltac:(lia)).
  pose proof (weight_sum_at_most tau j Htau).
  assert (IZR (Z.of_nat j) <= IZR (Z.of_nat n)) by (apply IZR_le; lia).
  pose proof underflow_threshold_below_1. lra.
Qed.

Lemma sum_from (tau : R) (m s : nat) :
  0 <= tau -> IZR (Z.of_nat (s + m)) < overflow_threshold ->
  fold_left add (map (fun r => real (weight tau r))
                   (map Z.of_nat (seq (S s) m)))
    (real (weight_sum tau s)) = real (weight_sum tau (s + m)).
Proof.
  intros Htau. revert s.
  induction m as [| m IH]; intros s Hn; cbn [seq map fold_left].
  - now rewrite Nat.add_0_r.
  - rewrite add_real.
    + rewrite <- weight_sum_S, IH; [f_equal; f_equal; lia |].
      replace (S s + m)%nat with (s + S m)%nat by lia. exact Hn.
    + rewrite <- weight_sum_S.
      apply (weight_sum_inside tau (S s) (s + S m)); [exact Htau | lia | exact Hn].
Qed.

(** The sum for a representable length, for [tau >= 0]. *)
Lemma sum_cache_closed (tau : R) (n : nat) :
  0 <= tau -> representable tau (Z.of_nat n) ->
  sum_cache tau n = Ok (real (weight_sum tau n)).
Proof.
  intros Htau Hrep. unfold sum_cache.
  rewrite (mapM_ok (member_cache tau) (fun r => real (weight tau r))).
  - simpl. unfold sum, range. f_equal.
    replace (n + 1 - 1)%nat with n by lia.
    change (real 0) with (real (weight_sum tau 0)).
    apply (sum_from tau n 0 Htau). simpl. apply Hrep.
  - intros r Hr. apply in_range in Hr.
    apply member_cache_rank; [exact Htau | lia |].
    apply (representable_below tau r (Z.of_nat n)); [exact Htau | lia | exact Hrep].
Qed.

(** The sum for a length that is not representable. *)
Lemma sum_cache_overflow (tau : R) (n : nat) :
  0 <= tau -> (1 <= n)%nat -> ~ representable tau (Z.of_nat n) ->
  sum_cache tau n = Raise OverflowError.
Proof.
  intros Htau Hn Hout. unfold sum_cache.
  rewrite (mapM_raises (member_cache tau) (range 1 (n + 1)) OverflowError);
    [reflexivity | |].
  - intros r Hr. apply in_range in Hr.
    destruct (representable_dec tau r) as [Hrep | Hrep].
    + left. eexists. apply member_cache_rank; [exact Htau | lia | exact Hrep].
    + right. apply member_cache_overflow; [lia | exact Hrep].
  - exists (Z.of_nat n). split; [apply in_range; lia |].
    apply member_cache_overflow; [lia | exact Hout].
Qed.

Lemma sum_cache_0 (tau : R) : sum_cache tau 0 = Ok (real 0).
Proof. reflexivity. Qed.

(** Adding one rank: the sum for [n + 1] is the sum for [n] plus the
    weight of rank [n + 1], whenever it is computed. *)
Lemma sum_cache_S (tau : R) (n : nat) (total' : number) :
  sum_cache tau (S n) = Ok total' ->
  exists total w,
    sum_cache tau n = Ok total /\
    member_cache tau (Z.of_nat (S n)) = Ok w /\
    total' = add total w.
Proof.
  unfold sum_cache, range.
  replace (S n + 1 - 1)%nat with (n + 1)%nat by lia.
  replace (n + 1 - 1)%nat with n by lia.
  rewrite seq_app, map_app, mapM_app. simpl seq. simpl map.
  destruct (mapM (member_cache tau) (map Z.of_nat (seq 1 n))) as [ws | e];
    simpl; [| discriminate].
  replace (Z.pos (Pos.of_succ_nat n)) with (Z.of_nat (1 + n)) by lia.
  destruct (member_cache tau (Z.of_nat (1 + n))) as [w | e]; simpl;
    [| discriminate].
  intros [= <-]. exists (sum ws), w. repeat split.
  unfold sum. rewrite fold_left_app. reflexivity.
Qed.

(** *** The breakpoints *)

Lemma cumulate_closed (tau : R) (denominator : R) (m s : nat)
    (result : list R) :
  0 <= tau ->
  representable tau (Z.of_nat (s + m)) ->
  weight_sum tau (s + m) <= denominator < overflow_threshold ->
  cumulate tau (map Z.of_nat (seq (S s) m)) (real (weight_sum tau s))
    (real denominator) (map real result) =
  Ok (map real
        (result ++ map (fun j => weight_sum tau j / denominator) (seq (S s) m))).
Proof.
  intros Htau. revert s result.
  induction m as [| m IH]; intros s result Hrep Hden; cbn [seq map].
  - cbn [cumulate]. now rewrite app_nil_r.
  - cbn [cumulate].
    assert (Hrank : IZR (Z.of_nat (s + S m)) < overflow_threshold)
      by apply Hrep.
    rewrite member_cache_rank;
      [| exact Htau | lia
       | apply (representable_below tau _ (Z.of_nat (s + S m)));
         [exact Htau | lia | exact Hrep]].
    cbn [bind].
    pose proof (weight_sum_inside tau (S s) (s + S m) Htau ltac:(lia) Hrank)
      as Hinside.
    pose proof (weight_sum_at_least_1 tau (S s) ltac:(lia)) as Hone.
    pose proof (weight_sum_monotone tau (S s) (s + S m) ltac:(lia)) as Hmono.
    rewrite add_real by (rewrite <- weight_sum_S; exact Hinside).
    rewrite <- weight_sum_S.
    rewrite truediv_real; [| lra | apply quotient_inside; lra].
    cbn [bind].
    change [real (weight_sum tau (S s) / denominator)]
      with (map real [weight_sum tau (S s) / denominator]).
    rewrite <- map_app, IH.
    + rewrite <- app_assoc. reflexivity.
    + replace (S s + m)%nat with (s + S m)%nat by lia. exact Hrep.
    + replace (S s + m)%nat with (s + S m)%nat by lia. exact Hden.
Qed.

Lemma cumulation_0 (tau : R) : cumulation tau 0 = Ok [real 1].
Proof. reflexivity. Qed.

(** For [tau >= 0] and a representable length,
    [CumulationCache.__missing__] computes the closed form. *)
Lemma cumulation_closed (tau : R) (n : nat) :
  0 <= tau -> representable tau (Z.of_nat n) ->
  cumulation tau n = Ok (map real (breakpoints tau n)).
Proof.
  intros Htau Hrep. unfold cumulation, breakpoints.
  rewrite sum_cache_closed by assumption. cbn [bind].
  unfold range.
  destruct (Nat.eq_dec (n - 1) 0) as [Hn | Hn].
  - rewrite Hn. reflexivity.
  - change (real 0) with (real (weight_sum tau 0)).
    change (@nil number) with (map real []).
    rewrite cumulate_closed.
    + cbn [bind]. rewrite !map_app. reflexivity.
    + exact Htau.
    + apply (representable_below tau _ (Z.of_nat n));
        [exact Htau | lia | exact Hrep].
    + split; [apply weight_sum_monotone; lia |].
      apply (weight_sum_inside tau n n); [exact Htau | lia | apply Hrep].
Qed.

(** For [tau >= 0] and a length that is not representable it raises
    [OverflowError]. *)
Lemma cumulation_overflow (tau : R) (n : nat) :
  0 <= tau -> (1 <= n)%nat -> ~ representable tau (Z.of_nat n) ->
  cumulation tau n = Raise OverflowError.
Proof.
  intros Htau Hn Hout. unfold cumulation.
  now rewrite sum_cache_overflow.
Qed.

(** So for [tau >= 0] the breakpoints, when they are computed, are the
    closed form. *)
Lemma cumulation_returned (tau : R) (n : nat) (cumulation : list number) :
  0 <= tau ->
  CumulationCache.cumulation tau n = Ok cumulation ->
  cumulation = map real (breakpoints tau n) /\
  (1 <= n -> representable tau (Z.of_nat n))%nat.
Proof.
  intros Htau Hcum.
  destruct n as [| n].
  - rewrite cumulation_0 in Hcum. injection Hcum as <-. split; [reflexivity | lia].
  - destruct (representable_dec tau (Z.of_nat (S n))) as [Hrep | Hout].
    + rewrite cumulation_closed in Hcum by assumption.
      injection Hcum as <-. split; [reflexivity | intros _; exact Hrep].
    + rewrite cumulation_overflow in Hcum by (assumption || lia).
      discriminate.
Qed.

(** The breakpoints up to a representable length are all computed. *)
Lemma breakpoints_computed_below (tau : R) (L : nat) :
  0 <= tau -> representable tau (Z.of_nat L) -> breakpoints_computed tau L.
Proof.
  intros Htau Hrep n Hn.
  destruct n as [| n]; [eexists; apply cumulation_0 |].
  eexists. apply cumulation_closed; [exact Htau |].
  apply (representable_below tau _ (Z.of_nat L)); [exact Htau | lia | exact Hrep].
Qed.

(** Breakpoints that are computed are not breakpoints that raise. *)
Lemma breakpoints_computed_or_raise (tau : R) (L : nat) (e : exn) :
  breakpoints_computed tau L -> ~ breakpoints_raise tau L e.
Proof.
  intros Hcomputed (n & Hn & Hraise).
  destruct (Hcomputed n Hn) as [cumulation Hcum]. congruence.
Qed.

(** What the shape of the breakpoints is, whatever [tau] is: one float
    per candidate, the last of them [1]. *)
Lemma cumulate_shape (tau : R) (rs : list Z) :
  Forall (fun r => (1 <= r)%Z) rs ->
  forall (numerator denominator : number) (result cumulation : list number),
    (exists x, numerator = Float x) -> (exists y, denominator = Float y) ->
    Forall (fun c => exists x, c = Float x) result ->
    cumulate tau rs numerator denominator result = Ok cumulation ->
    length cumulation = (length result + length rs)%nat /\
    Forall (fun c => exists x, c = Float x) cumulation.
Proof.
  induction 1 as [| r rs Hr _ IH];
    intros numerator denominator result cumulation Hnum Hden Hres;
    cbn [cumulate].
  - intros [= <-]. simpl. split; [lia | exact Hres].
  - destruct (member_cache tau r) as [w | e] eqn:Hw; cbn [bind];
      [| discriminate].
    destruct (member_cache_float tau r w Hr Hw) as [x ->].
    destruct Hnum as [a ->]. destruct Hden as [b ->].
    unfold add at 1. unfold truediv at 1.
    destruct (fdiv (fadd a x) b) as [q | e]; cbn [bind]; [| discriminate].
    intros Hrest. apply IH in Hrest.
    + rewrite length_app in Hrest. simpl in *. split; [lia | tauto].
    + now eexists.
    + now eexists.
    + apply Forall_app. split; [exact Hres |].
      constructor; [now eexists | constructor].
Qed.

Lemma sum_float (ws : list number) :
  Forall (fun w => exists x, w = Float x) ws ->
  forall start, (exists x, start = Float x) ->
  exists x, fold_left add ws start = Float x.
Proof.
  induction 1 as [| w ws [x ->] _ IH]; intros start [a ->]; simpl.
  - now eexists.
  - apply IH. now eexists.
Qed.

Lemma sum_cache_float (tau : R) (n : nat) (total : number) :
  sum_cache tau n = Ok total -> exists x, total = Float x.
Proof.
  unfold sum_cache.
  destruct (mapM (member_cache tau) (range 1 (n + 1))) as [ws | e] eqn:Hws;
    simpl; [| discriminate].
  intros [= <-]. apply sum_float; [| now eexists].
  apply mapM_returned in Hws.
  assert (Hranks : Forall (fun r => (1 <= r)%Z) (range 1 (n + 1))).
  { apply Forall_forall. intros r Hr. apply in_range in Hr. lia. }
  clear -Hws Hranks. induction Hws as [| r w rs ws Hw _ IH]; constructor.
  - inversion Hranks; subst. eapply member_cache_float; eassumption.
  - apply IH. now inversion Hranks.
Qed.

Lemma cumulation_shape (tau : R) (n : nat) (cumulation : list number) :
  CumulationCache.cumulation tau n = Ok cumulation ->
  length cumulation = S (n - 1) /\
  Forall (fun c => exists x, c = Float x) cumulation /\
  nth_error cumulation (n - 1) = Some (real 1).
Proof.
  unfold CumulationCache.cumulation.
  destruct (sum_cache tau n) as [denominator | e] eqn:Hden; cbn [bind];
    [| discriminate].
  destruct (cumulate tau (range 1 n) (real 0) denominator [])
    as [result | e] eqn:Hres; cbn [bind]; [| discriminate].
  intros [= <-].
  apply cumulate_shape in Hres.
  - destruct Hres as [Hlen Hall]. simpl in Hlen.
    unfold range in Hlen. rewrite length_map, length_seq in Hlen.
    rewrite length_app. simpl. split; [lia |]. split.
    + apply Forall_app. split; [exact Hall |].
      constructor; [now eexists | constructor].
    + rewrite nth_error_app2 by lia.
      replace (n - 1 - length result)%nat with 0%nat by lia. reflexivity.
  - apply Forall_forall. intros r Hr. apply in_range in Hr. lia.
  - now eexists.
  - eapply sum_cache_float; eassumption.
  - constructor.
Qed.

(** The exceptions of the caches. *)
Lemma sum_cache_raises (tau : R) (n : nat) (e : exn) :
  sum_cache tau n = Raise e -> e = OverflowError \/ e = ZeroDivisionError.
Proof.
  unfold sum_cache.
  destruct (mapM (member_cache tau) (range 1 (n + 1))) as [ws | e'] eqn:Hws;
    simpl; [discriminate |].
  intros [= <-]. apply mapM_raised in Hws. destruct Hws as (r & _ & Hr).
  eapply member_cache_raises; eassumption.
Qed.

Lemma cumulate_raises (tau : R) (rs : list Z) (e : exn) :
  forall (numerator denominator : number) (result : list number),
    cumulate tau rs numerator denominator result = Raise e ->
    e = OverflowError \/ e = ZeroDivisionError.
Proof.
  induction rs as [| r rs IH]; intros numerator denominator result;
    cbn [cumulate]; [discriminate |].
  destruct (member_cache tau r) as [w | e'] eqn:Hw; cbn [bind].
  2:{ intros [= <-]. eapply member_cache_raises; eassumption. }
  destruct (truediv (add numerator w) denominator) as [q | e'] eqn:Hq;
    cbn [bind].
  - apply IH.
  - intros [= <-]. right. eapply truediv_raises; eassumption.
Qed.

Lemma cumulation_raises (tau : R) (n : nat) (e : exn) :
  cumulation tau n = Raise e -> e = OverflowError \/ e = ZeroDivisionError.
Proof.
  unfold cumulation.
  destruct (sum_cache tau n) as [denominator | e'] eqn:Hden; cbn [bind].
  2:{ intros [= <-]. eapply sum_cache_raises; eassumption. }
  destruct (cumulate tau (range 1 n) (real 0) denominator [])
    as [result | e'] eqn:Hres; cbn [bind]; [discriminate |].
  intros [= <-]. eapply cumulate_raises; eassumption.
Qed.

(** *** The closed form *)

Lemma breakpoints_length (tau : R) (n : nat) :
  length (breakpoints tau n) = S (n - 1).
Proof.
  unfold breakpoints. rewrite length_app, length_map, length_seq. simpl. lia.
Qed.

Lemma breakpoints_inner (tau : R) (n i : nat) :
  (i < n - 1)%nat ->
  nth_error (breakpoints tau n) i =
  Some (weight_sum tau (i + 1) / weight_sum tau n).
Proof.
  intros Hi. unfold breakpoints.
  rewrite nth_error_app1 by (rewrite length_map, length_seq; exact Hi).
  rewrite nth_error_map.
  assert (Hseq : nth_error (seq 1 (n - 1)) i = Some (1 + i)%nat).
  { rewrite nth_error_nth' with (d := O) by (rewrite length_seq; exact Hi).
    now rewrite seq_nth by exact Hi. }
  rewrite Hseq. simpl. now rewrite Nat.add_1_r.
Qed.

Lemma breakpoints_last (tau : R) (n : nat) :
  nth_error (breakpoints tau n) (n - 1) = Some 1.
Proof.
  unfold breakpoints.
  rewrite nth_error_app2 by (rewrite length_map, length_seq; lia).
  rewrite length_map, length_seq, Nat.sub_diag. reflexivity.
Qed.

Lemma breakpoints_entry (tau : R) (n i : nat) (x : R) :
  nth_error (breakpoints tau n) i = Some x ->
  ((i < n - 1)%nat /\ x = weight_sum tau (i + 1) / weight_sum tau n) \/
  (i = (n - 1)%nat /\ x = 1).
Proof.
  intros Hx.
  assert (Hi : (i < S (n - 1))%nat).
  { rewrite <- (breakpoints_length tau n). apply nth_error_Some. congruence. }
  destruct (Nat.eq_dec i (n - 1)) as [-> | Hne].
  - right. rewrite breakpoints_last in Hx. split; congruence.
  - left. assert (Hlt : (i < n - 1)%nat) by lia.
    rewrite breakpoints_inner in Hx by exact Hlt. split; congruence.
Qed.

Lemma breakpoints_nondecreasing (tau : R) (n : nat) :
  nondecreasing (breakpoints tau n).
Proof.
  intros i j x y Hij Hx Hy.
  destruct (breakpoints_entry _ _ _ _ Hx) as [[Hi ->] | [-> ->]];
    destruct (breakpoints_entry _ _ _ _ Hy) as [[Hj ->] | [-> ->]];
    try lia; try lra.
  - pose proof (weight_sum_positive tau n ltac:(lia)) as Hpos.
    pose proof (weight_sum_monotone tau (i + 1) (j + 1) ltac:(lia)) as Hle.
    unfold Rdiv. apply Rmult_le_compat_r; [| exact Hle].
    left. now apply Rinv_0_lt_compat.
  - pose proof (weight_sum_positive tau n ltac:(lia)) as Hpos.
    pose proof (weight_sum_monotone tau (i + 1) n ltac:(lia)) as Hle.
    apply (Rmult_le_reg_r (weight_sum tau n)); [exact Hpos |].
    unfold Rdiv. rewrite Rmult_assoc, Rinv_l by lra. lra.
Qed.

(** *** Two values of [tau]

    With the default [tau = 3.0] every length up to [1000] is
    representable; with [tau = 1100.0] rank [2] is not, nor is any rank
    with [tau = -2000.0] once the power has underflowed. *)
Lemma Rpower_nat (x : R) (k : nat) : 0 < x -> Rpower x (INR k) = x ^ k.
Proof. apply Rpower_pow. Qed.

Lemma default_tau_representable (r : Z) :
  (1 <= r <= 1000)%Z -> representable 3 r.
Proof.
  intros Hr.
  assert (H1 : 1 <= IZR r) by (apply IZR_le; lia).
  assert (H2 : IZR r <= 1000) by (apply IZR_le; lia).
  pose proof overflow_threshold_lower as Hthr.
  split; [lra |].
  replace 3 with (INR 3) by (simpl; lra).
  rewrite Rpower_pow by lra.
  apply Rle_lt_trans with (1000 ^ 3); [| lra].
  apply pow_incr. lra.
Qed.

Lemma default_tau_computed (L : nat) :
  (L <= 1000)%nat -> breakpoints_computed 3 L.
Proof.
  intros HL n Hn.
  destruct n as [| n]; [eexists; apply cumulation_0 |].
  eexists. apply cumulation_closed; [lra |].
  apply default_tau_representable. lia.
Qed.

Lemma default_tau_cumulation (n : nat) :
  (n <= 1000)%nat -> cumulation 3 n = Ok (map real (breakpoints 3 n)).
Proof.
  intros Hn. destruct n as [| n]; [reflexivity |].
  apply cumulation_closed; [lra |].
  apply default_tau_representable. lia.
Qed.

Lemma tau_1100_not_representable : ~ representable 1100 2.
Proof.
  intros [_ H].
  replace 1100 with (INR 1100) in H by (rewrite INR_IZR_INZ; reflexivity).
  rewrite Rpower_pow in H by lra.
  pose proof overflow_threshold_upper. lra.
Qed.

Lemma tau_1100_cumulation : cumulation 1100 2 = Raise OverflowError.
Proof.
  apply cumulation_overflow; [lra | lia |].
  exact tau_1100_not_representable.
Qed.

(** With [tau = -2000.0] the power [2 ** tau] underflows to zero, and
    the weight of rank [2] is a division by zero. *)
Lemma tau_minus_2000_weight :
  member_cache (-2000) 2 = Raise ZeroDivisionError.
Proof.
  unfold member_cache, pow.
  pose proof overflow_threshold_lower as Hthr.
  rewrite of_int_rank by (lia || lra). cbn [bind].
  destruct (Req_dec_T (-2000) 0); [lra |].
  destruct (total_order_T 2 0) as [[H | H] | _]; [lra | lra |].
  assert (Hpower : Rpower 2 (-2000) = / 2 ^ 2000).
  { replace (-2000) with (- INR 2000) by (rewrite INR_IZR_INZ; simpl; lra).
    rewrite Rpower_Ropp, Rpower_pow by lra. reflexivity. }
  unfold libm_pow. rewrite Hpower.
  assert (Hpos : 0 < / 2 ^ 2000) by (apply Rinv_0_lt_compat; lra).
  assert (Hsmall : / 2 ^ 2000 <= / 2 ^ 1075)
    by (apply Rinv_le_contravar; lra).
  assert (H1 : / 2 ^ 2000 < 1).
  { rewrite <- Rinv_1. apply Rinv_lt_contravar; lra. }
  destruct (Rle_dec overflow_threshold (/ 2 ^ 2000)); [lra |]. cbn [bind].
  unfold fl.
  destruct (Rle_dec overflow_threshold (/ 2 ^ 2000)); [lra |].
  destruct (Rle_dec (/ 2 ^ 2000) (- overflow_threshold)); [lra |].
  rewrite Rabs_pos_eq by lra. rewrite underflow_threshold_value.
  destruct (Rle_dec (/ 2 ^ 2000) (/ 2 ^ 1075)); [| lra].
  apply truediv_zero.
Qed.

Lemma tau_minus_2000_cumulation :
  cumulation (-2000) 2 = Raise ZeroDivisionError.
Proof.
  unfold cumulation, sum_cache.
  change (range 1 (2 + 1)) with [1%Z; 2%Z]. cbn [mapM].
  assert (Hone : member_cache (-2000) 1 = Ok (real 1)).
  { unfold member_cache, pow.
    pose proof overflow_threshold_above_1 as Hthr.
    pose proof underflow_threshold_below_1 as Hund.
    rewrite of_int_rank by (lia || lra). cbn [bind].
    destruct (Req_dec_T (-2000) 0); [lra |].
    destruct (total_order_T 1 0) as [[H | H] | _]; [lra | lra |].
    unfold libm_pow. rewrite Rpower_base_1.
    destruct (Rle_dec overflow_threshold 1); [lra |]. cbn [bind].
    rewrite fl_inside by lra. fold (real 1).
    rewrite truediv_real; [| lra | replace (1 / 1) with 1 by field; lra].
    do 2 f_equal. field. }
  rewrite Hone, tau_minus_2000_weight. reflexivity.
Qed.


Close Scope R_scope.

End CumulationCacheFacts.

Import CumulationCacheFacts.

(** ** Facts about [choice_one_of] *)

Module ChoiceFacts.
Section ChoiceFacts.
Context {document : Type}.

Open Scope R_scope.

(** On a float, [f < c] is evaluated without raising. *)
Lemma exceeds_float (f : R) (x : float) :
  lt (real f) (Float x) = Ok (flt (Finite f) x).
Proof. reflexivity. Qed.

Lemma exceeds_real (f x : R) : exceeds (real x) f <-> f < x.
Proof.
  unfold exceeds, lt, real, flt. destruct (Rlt_dec f x); split;
    intros H; try assumption; try reflexivity; try discriminate.
  contradiction.
Qed.

(** The scan never raises when both sequences are long enough and the
    breakpoints are floats. *)
Lemma scan_total (f : R) (cs : list number) (l : list document) (m s : nat) :
  Forall (fun c => exists x, c = Float x) cs ->
  (s + m <= length cs)%nat -> (s + m <= length l)%nat ->
  exists o, scan f cs l (map Z.of_nat (seq s m)) = Ok o /\
            match o with
            | Some d => In d l
            | None => True
            end.
Proof.
  intros Hfloat. revert s.
  induction m as [| m IH]; intros s Hcs Hl; cbn [seq map].
  - exists None. simpl. tauto.
  - cbn [scan]. rewrite !getitem_of_nat.
    destruct (nth_error cs s) as [c |] eqn:Hc;
      [| apply nth_error_None in Hc; lia].
    cbn [bind].
    assert (Hx : exists x, c = Float x).
    { rewrite Forall_forall in Hfloat. apply Hfloat.
      eapply nth_error_In; eassumption. }
    destruct Hx as [x ->]. rewrite exceeds_float. cbn [bind].
    destruct (flt (Finite f) x).
    + destruct (nth_error l s) as [d |] eqn:Hd;
        [| apply nth_error_None in Hd; lia].
      exists (Some d). split; [reflexivity |]. eapply nth_error_In; eassumption.
    + apply IH; lia.
Qed.

(** When some breakpoint in the scanned window exceeds [f], the scan
    returns the candidate at the first such index. *)
Lemma scan_first (f : R) (cs : list number) (l : list document) (m s : nat) :
  Forall (fun c => exists x, c = Float x) cs ->
  (s + m <= length l)%nat ->
  (exists i c, (s <= i < s + m)%nat /\ nth_error cs i = Some c /\
               exceeds c f) ->
  exists i d c,
    (s <= i < s + m)%nat /\
    scan f cs l (map Z.of_nat (seq s m)) = Ok (Some d) /\
    nth_error l i = Some d /\
    nth_error cs i = Some c /\ exceeds c f /\
    (forall j c', (s <= j < i)%nat -> nth_error cs j = Some c' ->
                  ~ exceeds c' f).
Proof.
  intros Hfloat. revert s.
  induction m as [| m IH]; intros s Hl (i0 & c0 & Hi0 & Hc0 & Hf0).
  - lia.
  - cbn [seq map scan]. rewrite !getitem_of_nat.
    destruct (nth_error cs s) as [c |] eqn:Hc.
    2:{ apply nth_error_None in Hc.
        assert (i0 < length cs)%nat by (apply nth_error_Some; congruence). lia. }
    cbn [bind].
    assert (Hx : exists x, c = Float x).
    { rewrite Forall_forall in Hfloat. apply Hfloat.
      eapply nth_error_In; eassumption. }
    destruct Hx as [x ->]. rewrite exceeds_float. cbn [bind].
    destruct (flt (Finite f) x) eqn:Hlt.
    + destruct (nth_error l s) as [d |] eqn:Hd;
        [| apply nth_error_None in Hd; lia].
      exists s, d, (Float x). repeat split; try assumption; try lia.
      unfold exceeds. rewrite exceeds_float. now rewrite Hlt.
    + assert (Hne : i0 <> s).
      { intros ->. rewrite Hc in Hc0. injection Hc0 as <-.
        unfold exceeds in Hf0. rewrite exceeds_float in Hf0. congruence. }
      destruct (IH (S s)) as (i & d & c' & Hi & Hscan & Hd & Hci & Hfi & Hmin).
      * lia.
      * exists i0, c0. repeat split; try assumption; lia.
      * exists i, d, c'. repeat split; try assumption; try lia.
        intros j cj Hj Hcj.
        destruct (Nat.eq_dec j s) as [-> | Hjs].
        -- rewrite Hc in Hcj. injection Hcj as <-.
           unfold exceeds. rewrite exceeds_float. congruence.
        -- apply (Hmin j cj); [lia | assumption].
Qed.

(** [choice_one_of] reads one uniform draw and scans the breakpoints
    for the length of its argument, when these are computed. *)
Lemma choice_one_of_computed (rng : Draws) (tau : R) (l : list document)
    (c : Cursor) (cumulation : list number) :
  CumulationCache.cumulation tau (length l) = Ok cumulation ->
  choice_one_of rng tau l c =
  match scan (random_tape rng (random_pos c)) cumulation l
          (range 0 (length l)) with
  | Ok o => Ok (o, advance_random c)
  | Raise e => Raise e
  end.
Proof.
  intros Hcum. unfold choice_one_of, bindM, random, lift.
  rewrite Hcum. reflexivity.
Qed.

(** When they are not, it raises what their computation raises. *)
Lemma choice_one_of_raised (rng : Draws) (tau : R) (l : list document)
    (c : Cursor) (e : exn) :
  CumulationCache.cumulation tau (length l) = Raise e ->
  choice_one_of rng tau l c = Raise e.
Proof.
  intros Hcum. unfold choice_one_of, bindM, random, lift.
  rewrite Hcum. reflexivity.
Qed.

(** On computed breakpoints it never raises: it yields a candidate of
    [l], or [None]. *)
Lemma choice_one_of_total (rng : Draws) (tau : R) (l : list document)
    (c : Cursor) (cumulation : list number) :
  CumulationCache.cumulation tau (length l) = Ok cumulation ->
  exists o, choice_one_of rng tau l c = Ok (o, advance_random c) /\
            match o with
            | Some d => In d l
            | None => True
            end.
Proof.
  intros Hcum. rewrite (choice_one_of_computed rng tau l c cumulation Hcum).
  destruct (cumulation_shape tau (length l) cumulation Hcum)
    as (Hlen & Hfloat & _).
  unfold range. rewrite Nat.sub_0_r.
  destruct (scan_total (random_tape rng (random_pos c)) cumulation l
              (length l) 0 Hfloat) as (o & -> & Ho).
  - rewrite Hlen. simpl. lia.
  - simpl. lia.
  - exists o. split; [reflexivity | exact Ho].
Qed.

(** So when [choice_one_of] raises, computing the breakpoints has. *)
Lemma choice_one_of_raises (rng : Draws) (tau : R) (l : list document)
    (c : Cursor) (e : exn) :
  choice_one_of rng tau l c = Raise e ->
  CumulationCache.cumulation tau (length l) = Raise e.
Proof.
  intros Hraise.
  destruct (CumulationCache.cumulation tau (length l)) as [cumulation | e']
    eqn:Hcum.
  - destruct (choice_one_of_total rng tau l c cumulation Hcum) as (o & Ho & _).
    congruence.
  - rewrite (choice_one_of_raised rng tau l c e' Hcum) in Hraise. congruence.
Qed.

(** And when it returns, they were computed and one draw was read. *)
Lemma choice_one_of_returned (rng : Draws) (tau : R) (l : list document)
    (c c' : Cursor) (o : option document) :
  choice_one_of rng tau l c = Ok (o, c') ->
  c' = advance_random c /\
  exists cumulation, CumulationCache.cumulation tau (length l) = Ok cumulation.
Proof.
  intros Hret.
  destruct (CumulationCache.cumulation tau (length l)) as [cumulation | e]
    eqn:Hcum.
  - destruct (choice_one_of_total rng tau l c cumulation Hcum) as (o' & Ho & _).
    split; [congruence | now exists cumulation].
  - rewrite (choice_one_of_raised rng tau l c e Hcum) in Hret. discriminate.
Qed.

(** On a non-empty list and a draw below [1.0] it yields the candidate
    at the first index whose breakpoint exceeds the draw. *)
Lemma choice_one_of_first (rng : Draws) (tau : R) (l : list document)
    (c : Cursor) (cumulation : list number) :
  CumulationCache.cumulation tau (length l) = Ok cumulation ->
  l <> [] ->
  random_tape rng (random_pos c) < 1 ->
  exists i d,
    choice_one_of rng tau l c = Ok (Some d, advance_random c) /\
    nth_error l i = Some d /\
    first_exceeding (random_tape rng (random_pos c)) cumulation i.
Proof.
  intros Hcum Hl Hf.
  rewrite (choice_one_of_computed rng tau l c cumulation Hcum).
  destruct (cumulation_shape tau (length l) cumulation Hcum)
    as (Hlen & Hfloat & Hlast).
  unfold range. rewrite Nat.sub_0_r.
  assert (Hn : (1 <= length l)%nat) by (destruct l; [congruence | simpl; lia]).
  destruct (scan_first (random_tape rng (random_pos c)) cumulation l
              (length l) 0 Hfloat)
    as (i & d & ci & Hi & -> & Hd & Hci & Hfi & Hmin).
  - simpl. lia.
  - exists (length l - 1)%nat, (real 1). repeat split; try lia; try assumption.
    now apply exceeds_real.
  - exists i, d. repeat split; try assumption.
    + exists ci. split; assumption.
    + intros j cj Hj. apply Hmin. lia.
Qed.

(** Whatever [choice_one_of] returns on a non-empty list and a draw
    below [1.0] is one of the candidates. *)
Lemma choice_one_of_candidate (rng : Draws) (tau : R) (l : list document)
    (c c' : Cursor) (o : option document) :
  choice_one_of rng tau l c = Ok (o, c') ->
  l <> [] ->
  random_tape rng (random_pos c) < 1 ->
  exists d, o = Some d /\ In d l.
Proof.
  intros Hret Hl Hf.
  destruct (choice_one_of_returned rng tau l c c' o Hret)
    as (_ & cumulation & Hcum).
  destruct (choice_one_of_first rng tau l c cumulation Hcum Hl Hf)
    as (i & d & Hd & Hi & _).
  exists d. split; [congruence | eapply nth_error_In; eassumption].
Qed.

(** When every candidate is the same document, that document is
    selected. *)
Lemma choice_among_equal (rng : Draws) (tau : R) (l : list document)
    (x : document) (c : Cursor) (cumulation : list number) :
  CumulationCache.cumulation tau (length l) = Ok cumulation ->
  l <> [] -> (forall y, In y l -> y = x) ->
  random_tape rng (random_pos c) < 1 ->
  choice_one_of rng tau l c = Ok (Some x, advance_random c).
Proof.
  intros Hcum Hl Hx Hf.
  destruct (choice_one_of_first rng tau l c cumulation Hcum Hl Hf)
    as (i & d & -> & Hd & _).
  apply nth_error_In in Hd. now rewrite (Hx d Hd).
Qed.

Close Scope R_scope.
End ChoiceFacts.
End ChoiceFacts.

Import ChoiceFacts.

(** ** Facts about the working lists *)

Module WorkingListFacts.
Section WorkingListFacts.
Context {document : Type}.
Variable document_eq_dec : forall x y : document, {x = y} + {x <> y}.

Local Abbreviation drop_first := (drop_first document_eq_dec).
Local Abbreviation discard := (discard document_eq_dec).
Local Abbreviation try_remove := (try_remove document_eq_dec).

Lemma drop_first_absent (x : document) (l : list document) :
  ~ In x l -> drop_first x l = l.
Proof.
  induction l as [| y ys IH]; simpl; intros Hx; [reflexivity |].
  destruct (document_eq_dec y x) as [-> | _]; [tauto |].
  rewrite IH by tauto. reflexivity.
Qed.

Lemma drop_first_occurrence (x : document) (l1 l2 : list document) :
  ~ In x l1 -> drop_first x (l1 ++ x :: l2) = l1 ++ l2.
Proof.
  induction l1 as [| y ys IH]; simpl; intros Hx.
  - destruct (document_eq_dec x x); [reflexivity | congruence].
  - destruct (document_eq_dec y x) as [-> | _]; [tauto |].
    rewrite IH by tauto. reflexivity.
Qed.

Lemma drop_first_incl (x y : document) (l : list document) :
  In y (drop_first x l) -> In y l.
Proof.
  induction l as [| z zs IH]; simpl; [tauto |].
  destruct (document_eq_dec z x); simpl; tauto.
Qed.

Lemma drop_first_NoDup (x : document) (l : list document) :
  NoDup l -> NoDup (drop_first x l).
Proof.
  induction 1 as [| z zs Hz Hzs IH]; simpl; [constructor |].
  destruct (document_eq_dec z x); [assumption |].
  constructor; [| assumption].
  intros Hin. apply Hz. eapply drop_first_incl; eassumption.
Qed.

Lemma drop_first_gone (x : document) (l : list document) :
  NoDup l -> ~ In x (drop_first x l).
Proof.
  induction 1 as [| z zs Hz Hzs IH]; simpl; [tauto |].
  destruct (document_eq_dec z x) as [-> | Hne]; [assumption |].
  simpl. tauto.
Qed.

Lemma drop_first_length (x : document) (l : list document) :
  length l <= S (length (drop_first x l)).
Proof.
  induction l as [| z zs IH]; simpl; [lia |].
  destruct (document_eq_dec z x); simpl; lia.
Qed.

Lemma remove_drop_first (x : document) (l : list document) :
  In x l -> Py.remove document_eq_dec x l = Ok (drop_first x l).
Proof.
  induction l as [| y ys IH]; simpl; intros Hx; [tauto |].
  destruct (document_eq_dec y x) as [-> | Hne]; [reflexivity |].
  destruct Hx as [-> | Hx]; [congruence |].
  rewrite IH by assumption. reflexivity.
Qed.

(** The guarded removal never raises, whether the item is in the list
    or not. *)
Lemma try_remove_discard (d : option document) (l : list document) :
  try_remove d l = Ok (discard d l).
Proof.
  destruct d as [x |]; simpl; [| reflexivity].
  destruct (in_dec document_eq_dec x l) as [Hin | Hout].
  - now rewrite remove_drop_first.
  - rewrite remove_absent, drop_first_absent by assumption. reflexivity.
Qed.

Lemma remove_from_all (d : option document) (rankings : list (list document)) :
  mapM (try_remove d) rankings = Ok (map (discard d) rankings).
Proof.
  apply mapM_ok. intros l _. apply try_remove_discard.
Qed.

Lemma discard_incl (d : option document) (y : document) (l : list document) :
  In y (discard d l) -> In y l.
Proof.
  destruct d; simpl; [apply drop_first_incl | tauto].
Qed.

Lemma discard_NoDup (d : option document) (l : list document) :
  NoDup l -> NoDup (discard d l).
Proof.
  destruct d; simpl; [apply drop_first_NoDup | tauto].
Qed.

Lemma discard_length (d : option document) (l : list document) :
  length l <= S (length (discard d l)).
Proof.
  destruct d; simpl; [apply drop_first_length | lia].
Qed.

Lemma drop_first_shorter (x : document) (l : list document) :
  length (drop_first x l) <= length l.
Proof.
  induction l as [| z zs IH]; simpl; [lia |].
  destruct (document_eq_dec z x); simpl; lia.
Qed.

Lemma discard_shorter (d : option document) (l : list document) :
  length (discard d l) <= length l.
Proof.
  destruct d; simpl; [apply drop_first_shorter | lia].
Qed.
End WorkingListFacts.
End WorkingListFacts.

Import WorkingListFacts.

(** ** The loops of [interleave] and [multileave] *)

Module LoopFacts.
Section LoopFacts.
Context {document : Type}.
Variable document_eq_dec : forall x y : document, {x = y} + {x <> y}.
Variable rng : Draws.
Variable tau : R.

Local Abbreviation discard := (discard document_eq_dec).
Local Abbreviation pick := (pick document_eq_dec rng tau).
Local Abbreviation interleave_loop := (interleave_loop document_eq_dec rng tau).
Local Abbreviation multileave_round := (multileave_round document_eq_dec rng tau).
Local Abbreviation multileave_loop := (multileave_loop document_eq_dec rng tau).

Lemma append_items_length (result : Ranking document) (d : option document)
    (i : nat) :
  length (items (append result d i)) = S (length (items result)).
Proof. simpl. rewrite length_app. simpl. lia. Qed.

(** One sample whose draw is known: it either returns or hands on the
    working lists without the sampled item. *)
Lemma pick_known (k ranker_index : nat) (rankings : list (list document))
    (result : Ranking document) (ranking : list document) (c : Cursor)
    (d : option document) :
  nth_error rankings ranker_index = Some ranking ->
  choice_one_of rng tau ranking c = Ok (d, advance_random c) ->
  pick k ranker_index rankings result c =
  Ok (if k <=? S (length (items result))
      then Return (append result d ranker_index)
      else Continue (map (discard d) rankings,
                     append result d ranker_index),
      advance_random c).
Proof.
  intros Hranking Hd.
  unfold Probabilistic.pick, bindM, lift.
  rewrite getitem_of_nat, Hranking, Hd, append_items_length.
  destruct (k <=? _); [reflexivity |].
  rewrite remove_from_all. reflexivity.
Qed.

(** One sample on a list whose breakpoints cannot be computed. *)
Lemma pick_raised (k ranker_index : nat) (rankings : list (list document))
    (result : Ranking document) (ranking : list document) (c : Cursor)
    (e : exn) :
  nth_error rankings ranker_index = Some ranking ->
  cumulation tau (length ranking) = Raise e ->
  pick k ranker_index rankings result c = Raise e.
Proof.
  intros Hranking Hcum.
  unfold Probabilistic.pick, bindM, lift.
  rewrite getitem_of_nat, Hranking.
  now rewrite (choice_one_of_raised rng tau ranking c e Hcum).
Qed.

Lemma interleave_loop_S (k n : nat) (rankings : list (list document))
    (result : Ranking document) (c : Cursor) :
  interleave_loop k (S n) rankings result c =
  match pick k (randint_tape rng (randint_pos c)) rankings result
          (advance_randint c) with
  | Ok (Return r, c') => Ok (Some r, c')
  | Ok (Continue (rankings', result'), c') =>
      interleave_loop k n rankings' result' c'
  | Raise e => Raise e
  end.
Proof.
  cbn [Probabilistic.interleave_loop]. unfold bindM at 1, randint_0_2.
  unfold bindM.
  destruct (pick k _ rankings result _) as [[[r | [rankings' result']] c'] | e];
    reflexivity.
Qed.

Lemma multileave_loop_S (fuel k : nat) (rankings : list (list document))
    (result : Ranking document) (c : Cursor) :
  multileave_loop (S fuel) k rankings result c =
  match multileave_round k
          (rev (shuffle_tape rng (shuffle_pos c) (seq 0 (length rankings))))
          rankings result (advance_shuffle c) with
  | Ok (Return r, c') => Ok (Return r, c')
  | Ok (Continue (rankings', result'), c') =>
      multileave_loop fuel k rankings' result' c'
  | Raise e => Raise e
  end.
Proof.
  cbn [Probabilistic.multileave_loop]. unfold bindM at 1, shuffle.
  unfold bindM.
  destruct (multileave_round k _ rankings result _)
    as [[[r | [rankings' result']] c'] | e]; reflexivity.
Qed.

Lemma bounded_discard (L : nat) (d : option document)
    (rankings : list (list document)) :
  bounded L rankings -> bounded L (map (discard d) rankings).
Proof.
  unfold bounded. intros H. apply Forall_map. revert H. apply Forall_impl.
  intros l Hl. pose proof (discard_shorter document_eq_dec d l). lia.
Qed.

Lemma bounded_two (L : nat) (a b : list document) :
  length a <= L -> length b <= L -> bounded L [a; b].
Proof. intros Ha Hb. repeat constructor; assumption. Qed.

Section Bounded.
Variable L : nat.

(** One sample on a valid ranker index, no working list being longer
    than [L]: either it consumes one uniform draw and returns or hands
    on the working lists without the sampled item, or it raises what
    the computation of the breakpoints raises. *)
Lemma pick_unfold (k ranker_index : nat) (rankings : list (list document))
    (result : Ranking document) (ranking : list document) (c : Cursor) :
  bounded L rankings ->
  nth_error rankings ranker_index = Some ranking ->
  (exists d,
      choice_one_of rng tau ranking c = Ok (d, advance_random c) /\
      pick k ranker_index rankings result c =
      Ok (if k <=? S (length (items result))
          then Return (append result d ranker_index)
          else Continue (map (discard d) rankings,
                         append result d ranker_index),
          advance_random c)) \/
  (exists e,
      breakpoints_raise tau L e /\
      pick k ranker_index rankings result c = Raise e).
Proof.
  intros Hbound Hranking.
  assert (Hlen : length ranking <= L).
  { unfold bounded in Hbound. rewrite Forall_forall in Hbound.
    apply Hbound. eapply nth_error_In; eassumption. }
  destruct (cumulation tau (length ranking)) as [cumulation | e] eqn:Hcum.
  - left.
    destruct (choice_one_of_total rng tau ranking c cumulation Hcum)
      as (d & Hd & _).
    exists d. split; [exact Hd |].
    now apply pick_known with (ranking := ranking).
  - right. exists e. split.
    + exists (length ranking). split; assumption.
    + now apply pick_raised with (ranking := ranking).
Qed.

Section Invariant.
Variables k m : nat.
Variable Inv : list (list document) -> Ranking document -> Prop.

Hypothesis Inv_length :
  forall rankings result, Inv rankings result -> length rankings = m.

Hypothesis Inv_step :
  forall ranker_index rankings result ranking c d,
    Inv rankings result ->
    length (items result) < k ->
    ranker_index < m ->
    nth_error rankings ranker_index = Some ranking ->
    choice_one_of rng tau ranking c = Ok (d, advance_random c) ->
    Inv (map (discard d) rankings) (append result d ranker_index).

Lemma pick_invariant (ranker_index : nat)
    (rankings : list (list document)) (result : Ranking document)
    (c : Cursor) :
  Inv rankings result ->
  bounded L rankings ->
  length (items result) < k ->
  ranker_index < m ->
  (exists d,
      Inv (map (discard d) rankings) (append result d ranker_index) /\
      pick k ranker_index rankings result c =
      Ok (if k <=? S (length (items result))
          then Return (append result d ranker_index)
          else Continue (map (discard d) rankings,
                         append result d ranker_index),
          advance_random c)) \/
  (exists e,
      breakpoints_raise tau L e /\
      pick k ranker_index rankings result c = Raise e).
Proof.
  intros HInv Hbound Hk Hidx.
  destruct (nth_error rankings ranker_index) as [ranking |] eqn:Hranking.
  2:{ apply nth_error_None in Hranking.
      rewrite (Inv_length _ _ HInv) in Hranking. lia. }
  destruct (pick_unfold k ranker_index rankings result ranking c Hbound
              Hranking) as [(d & Hd & Hpick) | Hraise].
  - left. exists d. split; [| exact Hpick].
    eapply Inv_step; eassumption.
  - right. exact Hraise.
Qed.

(** [interleave]'s loop returns at its last iteration, unless a
    sample raises. *)
Lemma interleave_loop_invariant (iterations : nat) :
  randint_below_2 rng -> 2 <= m ->
  forall (rankings : list (list document)) (result : Ranking document)
         (c : Cursor),
    Inv rankings result ->
    bounded L rankings ->
    1 <= iterations ->
    length (items result) + iterations = k ->
    (exists r rankings' c',
        interleave_loop k iterations rankings result c = Ok (Some r, c') /\
        Inv rankings' r /\
        length (items r) = k /\
        random_pos c' = random_pos c + iterations) \/
    (exists e,
        breakpoints_raise tau L e /\
        interleave_loop k iterations rankings result c = Raise e).
Proof.
  intros Hcoin Hm.
  induction iterations as [| n IH];
    intros rankings result c HInv Hbound Hn Hlen; [lia |].
  rewrite interleave_loop_S.
  destruct (pick_invariant (randint_tape rng (randint_pos c)) rankings
              result (advance_randint c) HInv Hbound)
    as [(d & HInv' & Hpick) | (e & He & Hpick)].
  - lia.
  - specialize (Hcoin (randint_pos c)). lia.
  - rewrite Hpick.
    destruct (Nat.leb_spec k (S (length (items result)))) as [Hle | Hgt].
    + left.
      exists (append result d (randint_tape rng (randint_pos c))),
        (map (discard d) rankings), (advance_random (advance_randint c)).
      repeat split.
      * exact HInv'.
      * rewrite append_items_length. lia.
      * simpl. lia.
    + destruct (IH (map (discard d) rankings)
                  (append result d (randint_tape rng (randint_pos c)))
                  (advance_random (advance_randint c)) HInv')
        as [(r & rankings' & c' & Hloop & HInvr & Hlenr & Hpos) | Hraise].
      * now apply bounded_discard.
      * lia.
      * rewrite append_items_length. lia.
      * left. exists r, rankings', c'. repeat split; try assumption.
        rewrite Hpos. simpl. lia.
      * right. exact Hraise.
  - right. exists e. rewrite Hpick. split; [exact He | reflexivity].
Qed.

(** One round of [multileave]: unless a sample raises, it returns as
    soon as the result holds [k] items, and otherwise every popped
    index contributes one item. *)
Lemma multileave_round_invariant (popped : list nat) :
  Forall (fun i => i < m) popped ->
  forall (rankings : list (list document)) (result : Ranking document)
         (c : Cursor),
    Inv rankings result ->
    bounded L rankings ->
    length (items result) < k ->
    (exists s c',
        multileave_round k popped rankings result c = Ok (s, c') /\
        shuffle_pos c' = shuffle_pos c /\
        match s with
        | Return r =>
            (exists rankings', Inv rankings' r) /\
            length (items r) = k /\
            k <= length (items result) + length popped /\
            random_pos c' = random_pos c + (k - length (items result))
        | Continue (rankings', result') =>
            Inv rankings' result' /\
            bounded L rankings' /\
            length (items result') = length (items result) + length popped /\
            length (items result') < k /\
            random_pos c' = random_pos c + length popped
        end) \/
    (exists e,
        breakpoints_raise tau L e /\
        multileave_round k popped rankings result c = Raise e).
Proof.
  induction 1 as [| i popped Hi Hpopped IH];
    intros rankings result c HInv Hbound Hk.
  - left. exists (Continue (rankings, result)), c. simpl.
    repeat split; try assumption; lia.
  - cbn [Probabilistic.multileave_round]. unfold bindM.
    destruct (pick_invariant i rankings result c HInv Hbound Hk Hi)
      as [(d & HInv' & Hpick) | (e & He & Hpick)]; rewrite Hpick.
    2:{ right. exists e. split; [exact He | reflexivity]. }
    destruct (Nat.leb_spec k (S (length (items result)))) as [Hle | Hgt].
    + left. exists (Return (append result d i)), (advance_random c).
      repeat split.
      * exists (map (discard d) rankings). exact HInv'.
      * rewrite append_items_length. lia.
      * simpl. lia.
      * simpl. lia.
    + destruct (IH (map (discard d) rankings) (append result d i)
                  (advance_random c) HInv')
        as [(s & c' & Hround & Hshuffle & Hs) | Hraise].
      * now apply bounded_discard.
      * rewrite append_items_length. lia.
      * left. exists s, c'. split; [exact Hround |].
        split; [exact Hshuffle |].
        rewrite append_items_length in Hs.
        destruct s as [r | [rankings' result']]; simpl in *;
          intuition lia.
      * right. exact Hraise.
Qed.

(** The rounds: with [m >= 1] lists every round adds an item, so the
    loop has returned after at most [k] of them, unless a sample
    raises. *)
Lemma multileave_loop_invariant (fuel : nat) :
  shuffle_permutes rng -> 1 <= m ->
  forall (rankings : list (list document)) (result : Ranking document)
         (c : Cursor),
    Inv rankings result ->
    bounded L rankings ->
    length (items result) < k ->
    k <= length (items result) + fuel ->
    (exists r rankings' c',
        multileave_loop fuel k rankings result c = Ok (Return r, c') /\
        Inv rankings' r /\
        length (items r) = k /\
        random_pos c' = random_pos c + (k - length (items result))) \/
    (exists e,
        breakpoints_raise tau L e /\
        multileave_loop fuel k rankings result c = Raise e).
Proof.
  intros Hshuffle Hm.
  induction fuel as [| fuel IH];
    intros rankings result c HInv Hbound Hk Hfuel; [lia |].
  rewrite multileave_loop_S.
  set (ranker_indexes :=
         shuffle_tape rng (shuffle_pos c) (seq 0 (length rankings))).
  assert (Hperm : Permutation ranker_indexes (seq 0 m)).
  { unfold ranker_indexes. rewrite (Inv_length _ _ HInv). apply Hshuffle. }
  assert (Hvalid : Forall (fun i => i < m) (rev ranker_indexes)).
  { apply Forall_forall. intros i Hin. apply in_rev in Hin.
    apply (Permutation_in _ Hperm) in Hin. apply in_seq in Hin. lia. }
  assert (Hcount : length (rev ranker_indexes) = m).
  { rewrite length_rev, (Permutation_length Hperm). apply length_seq. }
  destruct (multileave_round_invariant (rev ranker_indexes) Hvalid rankings
              result (advance_shuffle c) HInv Hbound Hk)
    as [(s & c1 & Hround & _ & Hs) | (e & He & Hround)]; rewrite Hround.
  2:{ right. exists e. split; [exact He | reflexivity]. }
  destruct s as [r | [rankings1 result1]].
  - destruct Hs as ((rankings' & HInvr) & Hlenr & _ & Hpos).
    left. exists r, rankings', c1. repeat split; assumption.
  - destruct Hs as (HInv1 & Hbound1 & Hlen1 & Hk1 & Hpos1).
    destruct (IH rankings1 result1 c1 HInv1 Hbound1 Hk1)
      as [(r & rankings' & c' & Hloop & HInvr & Hlenr & Hpos) | Hraise];
      [lia | |].
    + left. exists r, rankings', c'. repeat split; try assumption.
      rewrite Hpos, Hpos1, Hlen1. simpl. lia.
    + right. exact Hraise.
Qed.
End Invariant.
End Bounded.
End LoopFacts.
End LoopFacts.

Import LoopFacts.

(** ** The two loop invariants *)

Module InvariantFacts.
Section InvariantFacts.
Context {document : Type}.
Variable document_eq_dec : forall x y : document, {x = y} + {x <> y}.

Local Abbreviation discard := (discard document_eq_dec).

Lemma attributed_length (m : nat) (rankings : list (list document))
    (result : Ranking document) :
  attributed m rankings result -> length rankings = m.
Proof. now intros [H _]. Qed.

Lemma attributed_step (m ranker_index : nat)
    (rankings : list (list document)) (result : Ranking document)
    (d : option document) :
  attributed m rankings result ->
  ranker_index < m ->
  attributed m (map (discard d) rankings) (append result d ranker_index).
Proof.
  intros (Hm & Hn & Hlen & Hall) Hidx. unfold attributed. simpl.
  rewrite length_map, !length_app, Hlen. repeat split; try assumption.
  apply Forall_app. split; [assumption |]. constructor; [assumption | constructor].
Qed.

Lemma disjoint_progress_length (k m : nat) (rankings : list (list document))
    (result : Ranking document) :
  disjoint_progress k m rankings result -> length rankings = m.
Proof. now intros [H _]. Qed.

Lemma disjoint_progress_step (rng : Draws) (tau : R) (k m ranker_index : nat)
    (rankings : list (list document)) (result : Ranking document)
    (ranking : list document) (c : Cursor) (d : option document) :
  random_in_unit rng ->
  disjoint_progress k m rankings result ->
  length (items result) < k ->
  nth_error rankings ranker_index = Some ranking ->
  choice_one_of rng tau ranking c = Ok (d, advance_random c) ->
  disjoint_progress k m (map (discard d) rankings)
    (append result d ranker_index).
Proof.
  intros Hunit (Hm & Hnodup & Hres & Hdisj & Hleft) Hk Hranking Hd.
  assert (Hin : In ranking rankings) by (eapply nth_error_In; eassumption).
  assert (Hne : ranking <> []).
  { rewrite Forall_forall in Hleft. specialize (Hleft _ Hin).
    destruct ranking; [simpl in Hleft; lia | discriminate]. }
  destruct (choice_one_of_candidate rng tau ranking c _ d Hd Hne
              (proj2 (Hunit _))) as (x & -> & Hxin).
  unfold disjoint_progress. simpl. rewrite length_map.
  split; [assumption |]. split; [| split; [| split]].
  - apply Forall_map. revert Hnodup. apply Forall_impl.
    intros l. apply drop_first_NoDup.
  - apply NoDup_app; [assumption | repeat constructor; simpl; tauto |].
    intros y Hy [<- | []].
    specialize (Hdisj _ Hy). rewrite Forall_forall in Hdisj.
    exact (Hdisj _ Hin Hxin).
  - intros y Hy. apply Forall_map. apply in_app_or in Hy.
    destruct Hy as [Hy | [Hy | []]].
    + specialize (Hdisj _ Hy). revert Hdisj. apply Forall_impl.
      intros l Hl Hyl. apply Hl. eapply drop_first_incl; eassumption.
    + injection Hy as <-. revert Hnodup. apply Forall_impl.
      intros l. apply drop_first_gone.
  - apply Forall_map. revert Hleft. apply Forall_impl.
    intros l Hl. rewrite length_app. simpl.
    pose proof (drop_first_length document_eq_dec x l). lia.
Qed.

Lemma fold_min_le (xs : list nat) (x : nat) :
  fold_left Nat.min xs x <= x /\
  Forall (fun y => fold_left Nat.min xs x <= y) xs /\
  In (fold_left Nat.min xs x) (x :: xs).
Proof.
  revert x. induction xs as [| y ys IH]; intros x; simpl.
  - repeat split; [lia | constructor | tauto].
  - destruct (IH (Nat.min x y)) as (Hle & Hall & Hin).
    split; [lia |]. split.
    + constructor; [lia | assumption].
    + destruct Hin as [Hin | Hin]; [| tauto].
      rewrite <- Hin. destruct (Nat.min_spec x y) as [[_ ->] | [_ ->]]; tauto.
Qed.

(** [min(map(len, lists))] is the least length, when there is a list. *)
Lemma min_least_length (k : nat) (lists : list (list document)) :
  least_length k lists -> min_ (map (@length document) lists) = Ok k.
Proof.
  intros [Hin Hall].
  destruct lists as [| l ls]; [destruct Hin |]. simpl.
  destruct (fold_min_le (map (@length document) ls) (length l))
    as (Hle & Hles & Hmem).
  f_equal. apply Nat.le_antisymm.
  - destruct Hin as [<- | Hin]; [exact Hle |].
    rewrite Forall_forall in Hles. apply Hles. exact Hin.
  - change (In (fold_left Nat.min (map (@length document) ls) (length l))
               (map (@length document) (l :: ls))) in Hmem.
    apply in_map_iff in Hmem. destruct Hmem as (l' & <- & Hl').
    rewrite Forall_forall in Hall. apply Hall. exact Hl'.
Qed.

Lemma least_length_positive (k : nat) (lists : list (list document)) :
  least_length k lists -> Forall (fun l => l <> []) lists -> 1 <= k.
Proof.
  intros [Hin _] Hne. apply in_map_iff in Hin. destruct Hin as (l & <- & Hl).
  rewrite Forall_forall in Hne. specialize (Hne _ Hl).
  destruct l; [congruence | simpl; lia].
Qed.
End InvariantFacts.
End InvariantFacts.

Import InvariantFacts.

(** ** What the loops can raise *)

Module ExceptionFacts.
Section ExceptionFacts.
Context {document : Type}.
Variable document_eq_dec : forall x y : document, {x = y} + {x <> y}.
Variable rng : Draws.
Variable tau : R.

Local Abbreviation pick := (pick document_eq_dec rng tau).
Local Abbreviation interleave_loop := (interleave_loop document_eq_dec rng tau).
Local Abbreviation multileave_round := (multileave_round document_eq_dec rng tau).
Local Abbreviation multileave_loop := (multileave_loop document_eq_dec rng tau).

(** A sample raises only when the ranker index is out of range or when
    the breakpoints for the length of the sampled list cannot be
    computed, and then it raises what their computation raises. *)
Lemma pick_raises (k ranker_index : nat) (rankings : list (list document))
    (result : Ranking document) (c : Cursor) (e : exn) :
  pick k ranker_index rankings result c = Raise e ->
  e = IndexError \/
  exists ranking,
    nth_error rankings ranker_index = Some ranking /\
    cumulation tau (length ranking) = Raise e.
Proof.
  unfold Probabilistic.pick, bindM, lift. rewrite getitem_of_nat.
  destruct (nth_error rankings ranker_index) as [ranking |] eqn:Hranking;
    [| intros [= <-]; now left].
  destruct (choice_one_of rng tau ranking c) as [[d c'] | e'] eqn:Hd.
  - destruct (k <=? _); [discriminate |].
    rewrite remove_from_all. discriminate.
  - intros [= <-]. right. exists ranking. split; [reflexivity |].
    eapply choice_one_of_raises; eassumption.
Qed.

Lemma pick_raises_builtin (k ranker_index : nat)
    (rankings : list (list document)) (result : Ranking document)
    (c : Cursor) (e : exn) :
  pick k ranker_index rankings result c = Raise e ->
  e = IndexError \/ e = OverflowError \/ e = ZeroDivisionError.
Proof.
  intros H. apply pick_raises in H.
  destruct H as [-> | (ranking & _ & Hcum)]; [now left | right].
  eapply cumulation_raises; eassumption.
Qed.

Lemma interleave_loop_raises (k iterations : nat) :
  forall (rankings : list (list document)) (result : Ranking document)
         (c : Cursor) (e : exn),
    interleave_loop k iterations rankings result c = Raise e ->
    e = IndexError \/ e = OverflowError \/ e = ZeroDivisionError.
Proof.
  induction iterations as [| n IH]; intros rankings result c e.
  - discriminate.
  - rewrite interleave_loop_S.
    destruct (pick k _ rankings result _) as [[[r | [rankings' result']] c'] | e']
      eqn:Hpick.
    + discriminate.
    + apply IH.
    + intros [= <-]. eapply pick_raises_builtin; eassumption.
Qed.

Lemma multileave_round_raises (k : nat) (popped : list nat) :
  forall (rankings : list (list document)) (result : Ranking document)
         (c : Cursor) (e : exn),
    multileave_round k popped rankings result c = Raise e ->
    e = IndexError \/ e = OverflowError \/ e = ZeroDivisionError.
Proof.
  induction popped as [| i popped IH]; intros rankings result c e.
  - discriminate.
  - cbn [Probabilistic.multileave_round]. unfold bindM.
    destruct (pick k i rankings result c) as [[[r | [rankings' result']] c'] | e']
      eqn:Hpick.
    + discriminate.
    + apply IH.
    + intros [= <-]. eapply pick_raises_builtin; eassumption.
Qed.

Lemma multileave_loop_raises (k fuel : nat) :
  forall (rankings : list (list document)) (result : Ranking document)
         (c : Cursor) (e : exn),
    multileave_loop fuel k rankings result c = Raise e ->
    e = IndexError \/ e = OverflowError \/ e = ZeroDivisionError.
Proof.
  induction fuel as [| fuel IH]; intros rankings result c e.
  - discriminate.
  - rewrite multileave_loop_S.
    destruct (multileave_round k _ rankings result _)
      as [[[r | [rankings' result']] c'] | e'] eqn:Hround.
    + discriminate.
    + apply IH.
    + intros [= <-]. eapply multileave_round_raises; eassumption.
Qed.

(** Neither method has a path that raises [InvalidArgument]. *)
Lemma interleave_raises (a b : list document) (c : Cursor) (e : exn) :
  interleave document_eq_dec rng tau a b c = Raise e ->
  e = IndexError \/ e = OverflowError \/ e = ZeroDivisionError.
Proof. apply interleave_loop_raises. Qed.

Lemma multileave_raises (fuel : nat) (lists : list (list document))
    (c : Cursor) (e : exn) :
  multileave document_eq_dec rng tau fuel lists c = Raise e ->
  e = ValueError \/
  e = IndexError \/ e = OverflowError \/ e = ZeroDivisionError.
Proof.
  unfold Probabilistic.multileave, bindM, lift.
  destruct lists as [| l ls]; simpl min_.
  - intros [= <-]. now left.
  - intros H. right. eapply multileave_loop_raises. exact H.
Qed.
End ExceptionFacts.
End ExceptionFacts.

Import ExceptionFacts.

(** ** [interleave] and [multileave]: length and provenance *)

Module EngineClaims.
Section EngineClaims.
Context {document : Type}.
Variable document_eq_dec : forall x y : document, {x = y} + {x <> y}.

Local Abbreviation interleave := (interleave document_eq_dec).
Local Abbreviation multileave := (multileave document_eq_dec).

Lemma below_2 (l : list nat) :
  Forall (fun i => i < 2) l -> Forall (fun i => i = 0 \/ i = 1) l.
Proof. apply Forall_impl. intros i Hi. lia. Qed.

Lemma bounded_pair (a b : list document) :
  bounded (Nat.max (length a) (length b)) [a; b].
Proof. apply bounded_two; lia. Qed.

(** C4, amended.  For [m >= 2] non-empty lists whose least length is
    [k], none longer than [L], [multileave] (given at least [k] rounds
    to run) either raises what the computation of the breakpoints for
    some length up to [L] raises, or returns a Ranking with exactly
    [k] items and ranker indexes in [[0, m)], having drawn exactly [k]
    samples: nothing is sampled after the [k]-th item, wherever in a
    round it falls. *)
Theorem multileave_length_and_early_stop (rng : Draws) (tau : R)
    (lists : list (list document)) (k fuel L : nat) (c : Cursor) :
  2 <= length lists ->
  Forall (fun l => l <> []) lists ->
  least_length k lists ->
  shuffle_permutes rng ->
  k <= fuel ->
  bounded L lists ->
  (exists r c',
      multileave rng tau fuel lists c = Ok (Return r, c') /\
      length (items r) = k /\
      length (rank_to_ranker_index r) = k /\
      Forall (fun i => i < length lists) (rank_to_ranker_index r) /\
      number_of_rankers r = length lists /\
      random_pos c' = random_pos c + k) \/
  (exists e,
      breakpoints_raise tau L e /\
      multileave rng tau fuel lists c = Raise e).
Proof.
  intros Hm Hne Hk Hshuffle Hfuel Hbound.
  unfold Probabilistic.multileave.
  unfold bindM at 1. unfold lift. rewrite (min_least_length k lists Hk).
  pose proof (least_length_positive k lists Hk Hne) as Hpos.
  destruct (multileave_loop_invariant document_eq_dec rng tau L k
              (length lists) (attributed (length lists))
              (attributed_length (length lists))) with
    (fuel := fuel) (rankings := lists)
    (result := {| items := @nil (option document);
                  number_of_rankers := length lists;
                  rank_to_ranker_index := [] |}) (c := c)
    as [(r & rankings' & c' & Hloop & (_ & Hn & Hlen & Hall) & Hitems & Hdraws)
       | Hraise];
    try assumption; try (simpl; lia).
  - intros ranker_index rankings result ranking c0 d HInv _ Hidx _ _.
    now apply attributed_step.
  - unfold attributed. simpl. repeat split; constructor.
  - left. exists r, c'. simpl in Hdraws. rewrite Nat.sub_0_r in Hdraws.
    repeat split; try assumption. congruence.
  - right. exact Hraise.
Qed.

(** The invariant behind the absence of duplicates, for [interleave]. *)
Lemma interleave_duplicate_free (rng : Draws) (tau : R)
    (a b : list document) (c : Cursor) :
  a <> [] -> b <> [] -> NoDup a -> NoDup b ->
  randint_below_2 rng -> random_in_unit rng ->
  (exists r c',
      interleave rng tau a b c = Ok (Some r, c') /\ NoDup (items r)) \/
  (exists e,
      breakpoints_raise tau (Nat.max (length a) (length b)) e /\
      interleave rng tau a b c = Raise e).
Proof.
  intros Ha Hb Hda Hdb Hcoin Hunit. unfold Probabilistic.interleave.
  set (k := Nat.min (length a) (length b)).
  assert (Hk : 1 <= k).
  { unfold k. destruct a; [congruence |]. destruct b; [congruence |].
    simpl. lia. }
  destruct (interleave_loop_invariant document_eq_dec rng tau
              (Nat.max (length a) (length b)) k 2
              (disjoint_progress k 2) (disjoint_progress_length k 2)) with
    (iterations := k) (rankings := [a; b])
    (result := {| items := @nil (option document); number_of_rankers := 2;
                  rank_to_ranker_index := [] |}) (c := c)
    as [(r & rankings' & c' & Hloop & (_ & _ & Hnodup & _) & _) | Hraise];
    try assumption; try lia; try apply bounded_pair.
  - intros ranker_index rankings result ranking c0 d HInv Hlt _ Hr Hd.
    eapply disjoint_progress_step; eassumption.
  - unfold disjoint_progress. simpl. repeat split.
    + repeat constructor; assumption.
    + constructor.
    + intros x [].
    + repeat constructor; unfold k; lia.
  - simpl. lia.
  - left. exists r, c'. split; assumption.
  - right. exact Hraise.
Qed.

(** The same for [multileave]. *)
Lemma multileave_duplicate_free (rng : Draws) (tau : R)
    (lists : list (list document)) (k fuel L : nat) (c : Cursor) :
  1 <= length lists ->
  Forall (fun l => l <> []) lists ->
  Forall (@NoDup document) lists ->
  least_length k lists ->
  shuffle_permutes rng -> random_in_unit rng ->
  k <= fuel ->
  bounded L lists ->
  (exists r c',
      multileave rng tau fuel lists c = Ok (Return r, c') /\
      NoDup (items r)) \/
  (exists e,
      breakpoints_raise tau L e /\
      multileave rng tau fuel lists c = Raise e).
Proof.
  intros Hm Hne Hdup Hk Hshuffle Hunit Hfuel Hbound.
  unfold Probabilistic.multileave.
  unfold bindM at 1. unfold lift. rewrite (min_least_length k lists Hk).
  pose proof (least_length_positive k lists Hk Hne) as Hpos.
  destruct (multileave_loop_invariant document_eq_dec rng tau L k
              (length lists) (disjoint_progress k (length lists))
              (disjoint_progress_length k (length lists))) with
    (fuel := fuel) (rankings := lists)
    (result := {| items := @nil (option document);
                  number_of_rankers := length lists;
                  rank_to_ranker_index := [] |}) (c := c)
    as [(r & rankings' & c' & Hloop & (_ & _ & Hnodup & _) & _) | Hraise];
    try assumption; try (simpl; lia).
  - intros ranker_index rankings result ranking c0 d HInv Hlt _ Hr Hd.
    eapply disjoint_progress_step; eassumption.
  - unfold disjoint_progress. simpl. repeat split.
    + assumption.
    + constructor.
    + intros x [].
    + destruct Hk as [_ Hall]. revert Hall. apply Forall_impl.
      intros l Hl. lia.
  - left. exists r, c'. split; assumption.
  - right. exact Hraise.
Qed.

(** C3, amended.  For non-empty [a] and [b], [interleave(a, b)]
    either raises what the computation of the breakpoints for some
    length up to [max(len(a), len(b))] raises, or returns a Ranking
    with exactly [min(len(a), len(b))] items, one ranker index per
    item, every ranker index [0] or [1], and [number_of_rankers] equal
    to [2]. *)
Theorem interleave_length_and_provenance (rng : Draws) (tau : R)
    (a b : list document) (c : Cursor) :
  a <> [] -> b <> [] ->
  randint_below_2 rng ->
  (exists r c',
      interleave rng tau a b c = Ok (Some r, c') /\
      length (items r) = Nat.min (length a) (length b) /\
      length (rank_to_ranker_index r) = length (items r) /\
      Forall (fun i => i = 0 \/ i = 1) (rank_to_ranker_index r) /\
      number_of_rankers r = 2) \/
  (exists e,
      breakpoints_raise tau (Nat.max (length a) (length b)) e /\
      interleave rng tau a b c = Raise e).
Proof.
  intros Ha Hb Hcoin. unfold Probabilistic.interleave.
  set (k := Nat.min (length a) (length b)).
  assert (Hk : 1 <= k).
  { unfold k. destruct a; [congruence |]. destruct b; [congruence |].
    simpl. lia. }
  destruct (interleave_loop_invariant document_eq_dec rng tau
              (Nat.max (length a) (length b)) k 2
              (attributed 2) (attributed_length 2)) with
    (iterations := k) (rankings := [a; b])
    (result := {| items := @nil (option document); number_of_rankers := 2;
                  rank_to_ranker_index := [] |}) (c := c)
    as [(r & rankings' & c' & Hloop & (_ & Hn & Hlen & Hall) & Hitems & _)
       | Hraise];
    try assumption; try lia; try apply bounded_pair.
  - intros ranker_index rankings result ranking c0 d HInv _ Hidx _ _.
    now apply attributed_step.
  - unfold attributed. simpl. repeat split; constructor.
  - simpl. lia.
  - left. exists r, c'. repeat split; try assumption. now apply below_2.
  - right. exact Hraise.
Qed.

(** C5, amended.  The removal step takes the first occurrence of the
    selected item out of every working list and leaves a list without
    it untouched, never raising; so when no input list repeats a
    document (the lists being non-empty and the uniform draws below
    [1.0]), [interleave] and [multileave] either raise what the
    computation of the breakpoints raises, or return a Ranking that
    holds no document twice. *)
Theorem first_occurrence_removed_no_duplicates (rng : Draws) (tau : R) :
  randint_below_2 rng -> random_in_unit rng -> shuffle_permutes rng ->
  (forall d rankings,
      mapM (try_remove document_eq_dec d) rankings =
      Ok (map (discard document_eq_dec d) rankings)) /\
  (forall x l, ~ In x l -> discard document_eq_dec (Some x) l = l) /\
  (forall x l1 l2,
      ~ In x l1 ->
      discard document_eq_dec (Some x) (l1 ++ x :: l2) = l1 ++ l2) /\
  (forall x l, NoDup l -> ~ In x (discard document_eq_dec (Some x) l)) /\
  (forall a b c,
      a <> [] -> b <> [] -> NoDup a -> NoDup b ->
      (exists r c',
          interleave rng tau a b c = Ok (Some r, c') /\ NoDup (items r)) \/
      (exists e,
          breakpoints_raise tau (Nat.max (length a) (length b)) e /\
          interleave rng tau a b c = Raise e)) /\
  (forall lists k fuel L c,
      2 <= length lists ->
      Forall (fun l => l <> []) lists ->
      Forall (@NoDup document) lists ->
      least_length k lists ->
      k <= fuel ->
      bounded L lists ->
      (exists r c',
          multileave rng tau fuel lists c = Ok (Return r, c') /\
          NoDup (items r)) \/
      (exists e,
          breakpoints_raise tau L e /\
          multileave rng tau fuel lists c = Raise e)).
Proof.
  intros Hcoin Hunit Hshuffle. repeat split.
  - intros d rankings. apply remove_from_all.
  - intros x l. apply drop_first_absent.
  - intros x l1 l2. apply drop_first_occurrence.
  - intros x l. apply drop_first_gone.
  - intros a b c Ha Hb Hda Hdb.
    now apply interleave_duplicate_free.
  - intros lists k fuel L c Hm Hne Hdup Hk Hfuel Hbound.
    apply (multileave_duplicate_free rng tau lists k fuel L c);
      try assumption. lia.
Qed.

(** C7, amended.  Neither method validates its lists or [tau]: no call
    of [interleave] or [multileave], whatever the lists, [tau] and the
    draws, raises [InvalidArgument]. *)
Theorem no_argument_validation (rng : Draws) (tau : R) :
  (forall a b c, interleave rng tau a b c <> Raise InvalidArgument) /\
  (forall fuel lists c,
      multileave rng tau fuel lists c <> Raise InvalidArgument).
Proof.
  split.
  - intros a b c H. apply interleave_raises in H.
    destruct H as [H | [H | H]]; discriminate.
  - intros fuel lists c H. apply multileave_raises in H.
    destruct H as [H | [H | [H | H]]]; discriminate.
Qed.
End EngineClaims.

Lemma constant_draws_randint : randint_below_2 constant_draws.
Proof. intros i. simpl. lia. Defined.

Lemma constant_draws_random : random_in_unit constant_draws.
Proof. intros i. simpl. lra. Defined.

Lemma constant_draws_shuffle : shuffle_permutes constant_draws.
Proof. intros i l. simpl. apply Permutation_refl. Defined.

Lemma interleave_length_and_provenance_witness :
  exists r c',
    interleave Nat.eq_dec constant_draws 3 [1; 2; 3] [4; 5; 6] start =
    Ok (Some r, c') /\
    length (items r) = 3 /\
    length (rank_to_ranker_index r) = length (items r) /\
    Forall (fun i => i = 0 \/ i = 1) (rank_to_ranker_index r) /\
    number_of_rankers r = 2.
Proof.
  destruct (interleave_length_and_provenance Nat.eq_dec constant_draws 3
              [1; 2; 3] [4; 5; 6] start ltac:(discriminate)
              ltac:(discriminate) constant_draws_randint)
    as [H | (e & He & _)].
  - exact H.
  - exfalso. revert He. apply breakpoints_computed_or_raise.
    apply default_tau_computed. simpl. lia.
Defined.

(** C3 as stated fails: with [tau = 1100.0] the power [2 ** tau]
    overflows, and [interleave] on two lists of two documents raises
    [OverflowError] at its first sample. *)
Lemma interleave_overflows :
  interleave Nat.eq_dec constant_draws 1100 [1; 2] [3; 4] start =
  Raise OverflowError.
Proof.
  unfold interleave. simpl Nat.min. rewrite interleave_loop_S.
  now rewrite (pick_raised Nat.eq_dec constant_draws 1100 2 0
                 [[1; 2]; [3; 4]] _ [1; 2] _ OverflowError eq_refl
                 tau_1100_cumulation).
Qed.

Lemma multileave_length_and_early_stop_witness :
  exists r c',
    multileave Nat.eq_dec constant_draws 3 2 [[1; 2; 3]; [4; 5]; [6; 7; 8]]
      start = Ok (Return r, c') /\
    length (items r) = 2 /\
    length (rank_to_ranker_index r) = 2 /\
    Forall (fun i => i < 3) (rank_to_ranker_index r) /\
    number_of_rankers r = 3 /\
    random_pos c' = 2.
Proof.
  destruct (multileave_length_and_early_stop Nat.eq_dec constant_draws 3
              [[1; 2; 3]; [4; 5]; [6; 7; 8]] 2 2 3 start
              ltac:(simpl; lia)
              ltac:(repeat constructor; discriminate)
              ltac:(split; [simpl; tauto | repeat constructor; simpl; lia])
              constant_draws_shuffle
              ltac:(lia)
              ltac:(repeat constructor; simpl; lia))
    as [H | (e & He & _)].
  - exact H.
  - exfalso. revert He. apply breakpoints_computed_or_raise.
    apply default_tau_computed. lia.
Defined.

(** C4 as stated fails: with [tau = 1100.0], [multileave] on two lists
    of two documents raises [OverflowError] at its first sample. *)
Lemma multileave_overflows :
  multileave Nat.eq_dec constant_draws 1100 2 [[1; 2]; [3; 4]] start =
  Raise OverflowError.
Proof.
  unfold multileave, bindM at 1, lift. simpl min_. cbv beta iota.
  rewrite multileave_loop_S. simpl shuffle_tape. simpl rev.
  cbn [multileave_round]. unfold bindM.
  now rewrite (pick_raised Nat.eq_dec constant_draws 1100 2 1
                 [[1; 2]; [3; 4]] _ [3; 4] _ OverflowError eq_refl
                 tau_1100_cumulation).
Qed.

Lemma first_occurrence_removed_no_duplicates_witness :
  (exists r c',
      interleave Nat.eq_dec constant_draws 3 [1; 2; 3] [4; 5; 6] start =
      Ok (Some r, c') /\ NoDup (items r)) /\
  (exists r c',
      multileave Nat.eq_dec constant_draws 3 2 [[1; 2; 3]; [4; 5]] start =
      Ok (Return r, c') /\ NoDup (items r)).
Proof.
  destruct (first_occurrence_removed_no_duplicates Nat.eq_dec constant_draws 3
              constant_draws_randint constant_draws_random
              constant_draws_shuffle)
    as (_ & _ & _ & _ & Hinterleave & Hmultileave).
  split.
  - destruct (Hinterleave [1; 2; 3] [4; 5; 6] start
                ltac:(discriminate) ltac:(discriminate)
                ltac:(repeat constructor; simpl; intuition discriminate)
                ltac:(repeat constructor; simpl; intuition discriminate))
      as [H | (e & He & _)].
    + exact H.
    + exfalso. revert He. apply breakpoints_computed_or_raise.
      apply default_tau_computed. simpl. lia.
  - destruct (Hmultileave [[1; 2; 3]; [4; 5]] 2 2 3 start
                ltac:(simpl; lia)
                ltac:(repeat constructor; discriminate)
                ltac:(repeat constructor; simpl; intuition discriminate)
                ltac:(split; [simpl; tauto
                             | repeat constructor; simpl; lia])
                ltac:(lia)
                ltac:(repeat constructor; simpl; lia))
      as [H | (e & He & _)].
    + exact H.
    + exfalso. revert He. apply breakpoints_computed_or_raise.
      apply default_tau_computed. lia.
Defined.

(** C5 as stated fails: [list.remove] takes out one occurrence only, so
    a document repeated in an input list can be selected twice. *)
Lemma interleave_repeats_repeated_document :
  exists c',
    interleave Nat.eq_dec constant_draws 3 [1; 1] [2; 2] start =
    Ok (Some {| items := [Some 1; Some 1];
                number_of_rankers := 2;
                rank_to_ranker_index := [0; 0] |}, c') /\
    ~ NoDup [Some 1; Some 1].
Proof.
  unfold interleave. simpl Nat.min.
  rewrite interleave_loop_S.
  rewrite (pick_known Nat.eq_dec constant_draws 3 2 0 [[1; 1]; [2; 2]] _
             [1; 1] _ (Some 1) eq_refl).
  2:{ apply (choice_among_equal constant_draws 3 [1; 1] 1 _ _
               (default_tau_cumulation 2 ltac:(lia)));
        [discriminate | simpl; intuition | simpl; lra]. }
  simpl Nat.leb. cbv iota. simpl (map _ _).
  rewrite interleave_loop_S.
  rewrite (pick_known Nat.eq_dec constant_draws 3 2 0 [[1]; [2; 2]] _
             [1] _ (Some 1) eq_refl).
  2:{ apply (choice_among_equal constant_draws 3 [1] 1 _ _
               (default_tau_cumulation 1 ltac:(lia)));
        [discriminate | simpl; intuition | simpl; lra]. }
  simpl. eexists. split; [reflexivity |].
  intros H. inversion H as [| x l Hin _]. apply Hin. now left.
Qed.

(** C7 as stated fails: an empty input list is not rejected, the call
    raising nothing at all, and neither is a negative [tau], with
    which the call raises [ZeroDivisionError] once a power has
    underflowed. *)
Lemma invalid_arguments_not_rejected :
  interleave Nat.eq_dec constant_draws 3 [] [1; 2; 3] start <>
  Raise InvalidArgument /\
  interleave Nat.eq_dec constant_draws (-2000) [1; 2] [3; 4] start =
  Raise ZeroDivisionError.
Proof.
  split; [discriminate |].
  unfold interleave. simpl Nat.min. rewrite interleave_loop_S.
  now rewrite (pick_raised Nat.eq_dec constant_draws (-2000) 2 0
                 [[1; 2]; [3; 4]] _ [1; 2] _ ZeroDivisionError eq_refl
                 tau_minus_2000_cumulation).
Qed.

(** With an empty list among its inputs, [multileave] has [k = 0] and
    returns after its first sample, with one item. *)
Example multileave_empty_list_one_item :
  multileave Nat.eq_dec constant_draws 3 1 [[]; [5]] start =
  Ok (Return {| items := [Some 5];
                number_of_rankers := 2;
                rank_to_ranker_index := [1] |},
      advance_random (advance_shuffle start)).
Proof.
  unfold multileave, bindM at 1, lift. simpl min_.
  cbn [multileave_loop]. unfold bindM at 1, shuffle. simpl shuffle_tape.
  simpl rev. cbn [multileave_round]. unfold bindM.
  rewrite (pick_known Nat.eq_dec constant_draws 3 0 1 [[]; [5]] _
             [5] _ (Some 5) eq_refl).
  2:{ apply (choice_among_equal constant_draws 3 [5] 5 _ _
               (default_tau_cumulation 1 ltac:(lia)));
        [discriminate | simpl; intuition | simpl; lra]. }
  reflexivity.
Qed.

End EngineClaims.

(** ** Weights, breakpoints and sampling *)

Module CacheClaims.

Open Scope R_scope.

Lemma weight_antitone (tau : R) (r1 r2 : Z) :
  0 <= tau -> (1 <= r1 <= r2)%Z -> weight tau r2 <= weight tau r1.
Proof.
  intros Htau Hr. unfold weight, Rdiv. rewrite !Rmult_1_l.
  apply Rinv_le_contravar; [apply Rpower_positive |].
  apply Rle_Rpower_l; [exact Htau |].
  split; [apply IZR_lt; lia | apply IZR_le; lia].
Qed.





(** C2.  On a non-empty candidate list and a draw [0 <= f < 1.0],
    [choice_one_of], scanning the breakpoints computed for the length
    of the list, returns the candidate at the first index [i] with
    [f < breakpoints[i]]; there always is one, so the scan never falls
    through to [None]. *)
Theorem choice_one_of_selects_first {document : Type} (rng : Draws) (tau : R)
    (l : list document) (c : Cursor) (cumulation : list number) :
  CumulationCache.cumulation tau (length l) = Ok cumulation ->
  l <> [] ->
  0 <= random_tape rng (random_pos c) < 1 ->
  exists i d,
    choice_one_of rng tau l c = Ok (Some d, advance_random c) /\
    nth_error l i = Some d /\
    first_exceeding (random_tape rng (random_pos c)) cumulation i.
Proof.
  intros Hcum Hl [_ Hf].
  exact (choice_one_of_first rng tau l c cumulation Hcum Hl Hf).
Qed.

Lemma choice_one_of_selects_first_witness :
  exists i d,
    choice_one_of constant_draws 3 [7; 8; 9]%nat start =
    Ok (Some d, advance_random start) /\
    nth_error [7; 8; 9]%nat i = Some d /\
    first_exceeding (random_tape constant_draws (random_pos start))
      (map real (breakpoints 3 3)) i.
Proof.
  apply (choice_one_of_selects_first constant_draws 3 [7; 8; 9]%nat start).
  - apply (default_tau_cumulation 3). lia.
  - discriminate.
  - simpl. lra.
Defined.

(** C8, amended.  For [tau > 0] the weight of every rank [r >= 1] such
    that [r] and [r^tau] are below the overflow threshold of floats is
    [1 / r^tau], the lookup of any other rank [r >= 1] raises
    [OverflowError], and the weights that are computed never go up with
    the rank. *)
Theorem weight_rank_bias (tau : R) :
  0 < tau ->
  (forall r, (1 <= r)%Z -> representable tau r ->
             member_cache tau r = Ok (real (1 / Rpower (IZR r) tau))) /\
  (forall r, (1 <= r)%Z -> ~ representable tau r ->
             member_cache tau r = Raise OverflowError) /\
  (forall r1 r2 w1 w2,
      (1 <= r1 < r2)%Z ->
      member_cache tau r1 = Ok w1 -> member_cache tau r2 = Ok w2 ->
      exists x1 x2, w1 = real x1 /\ w2 = real x2 /\ x1 >= x2).
Proof.
  intros Htau. split; [| split].
  - intros r Hr Hrep. apply member_cache_rank; [lra | exact Hr | exact Hrep].
  - intros r Hr Hout. now apply member_cache_overflow.
  - intros r1 r2 w1 w2 Hr H1 H2.
    apply member_cache_returned in H1; [| lra | lia].
    apply member_cache_returned in H2; [| lra | lia].
    destruct H1 as [_ ->]. destruct H2 as [_ ->].
    exists (weight tau r1), (weight tau r2). repeat split.
    apply Rle_ge. apply weight_antitone; [lra | lia].
Qed.

Lemma weight_rank_bias_witness :
  member_cache 3 2 = Ok (real (1 / Rpower (IZR 2) 3)) /\
  (forall w1 w2,
      member_cache 3 2 = Ok w1 -> member_cache 3 5 = Ok w2 ->
      exists x1 x2, w1 = real x1 /\ w2 = real x2 /\ x1 >= x2).
Proof.
  destruct (weight_rank_bias 3 ltac:(lra)) as (Hvalue & _ & Hbias).
  split.
  - apply Hvalue; [lia |]. apply default_tau_representable. lia.
  - intros w1 w2. apply Hbias. lia.
Defined.

(** C8 as stated fails: [tau = 1100.0] is positive, yet rank [2] has no
    weight, [2 ** 1100.0] being beyond the range of floats. *)
Lemma weight_overflow :
  0 < 1100 /\ member_cache 1100 2 = Raise OverflowError.
Proof.
  split; [lra |].
  apply member_cache_overflow; [lia | exact tau_1100_not_representable].
Qed.

(** C9, amended.  A weight lookup does not validate the rank and never
    raises [InvalidArgument]; for [r = 0] and [tau > 0] the division
    raises [ZeroDivisionError]. *)
Theorem rank_not_validated (tau : R) :
  (forall r, member_cache tau r <> Raise InvalidArgument) /\
  (0 < tau -> member_cache tau 0 = Raise ZeroDivisionError).
Proof.
  split.
  - intros r H. apply member_cache_raises in H. destruct H; discriminate.
  - intros Htau. unfold member_cache, pow, of_int.
    pose proof overflow_threshold_above_1.
    rewrite Rabs_R0.
    destruct (Rle_dec overflow_threshold 0); [lra |]. cbn [bind].
    destruct (Req_dec_T tau 0); [lra |].
    destruct (total_order_T 0 0) as [[H0 | _] | H0]; [lra | | lra].
    destruct (Rlt_dec tau 0); [lra |].
    apply truediv_zero.
Qed.

Lemma rank_not_validated_witness :
  member_cache 3 0 = Raise ZeroDivisionError.
Proof.
  destruct (rank_not_validated 3) as (_ & Hzero).
  apply Hzero. lra.
Defined.

(** C9 as stated fails: rank [-2] with [tau = 2.0] yields the value
    [0.25]. *)
Lemma negative_rank_yields_value :
  member_cache 2 (-2) = Ok (real (/ 4)) /\
  member_cache 2 (-2) <> Raise InvalidArgument.
Proof.
  assert (H : member_cache 2 (-2) = Ok (real (/ 4))).
  { unfold member_cache, pow, of_int.
    pose proof overflow_threshold_lower as Hthr.
    pose proof underflow_threshold_below_1 as Hund.
    assert (Habs : Rabs (-2) = 2) by (rewrite Rabs_left; lra).
    rewrite Habs.
    destruct (Rle_dec overflow_threshold 2); [lra |]. cbn [bind].
    destruct (Req_dec_T 2 0); [lra |].
    destruct (total_order_T (-2) 0) as [[_ | H0] | H0]; [| lra | lra].
    assert (Hpower : Rpower (- -2) 2 = 4).
    { replace (- -2) with 2 by lra.
      replace 2 with (INR 2) at 2 by (simpl; lra).
      rewrite Rpower_pow by lra. simpl. lra. }
    unfold libm_pow. rewrite Hpower.
    destruct (Rle_dec overflow_threshold 4); [lra |]. cbn [bind].
    rewrite fl_inside by lra.
    assert (Hint : Int_part 2 = 2%Z).
    { symmetry. apply Int_part_spec. lra. }
    rewrite Hint.
    destruct (Req_dec_T (IZR 2) 2); [| lra].
    change (Z.odd 2) with false. cbv iota. fold (real 4). cbn [bind].
    rewrite truediv_real.
    - do 2 f_equal. lra.
    - lra.
    - apply reciprocal_inside. lra. }
  split; [exact H | rewrite H; discriminate].
Qed.

Close Scope R_scope.

End CacheClaims.

(** ** [evaluate] *)

Module EvaluateFacts.

Lemma setitem_length (counts : list nat) (i v : nat) :
  length (setitem counts i v) = length counts.
Proof.
  revert i. induction counts as [| c cs IH]; intros [| i]; simpl;
    try reflexivity.
  now rewrite IH.
Qed.

Lemma setitem_same (counts : list nat) (i v : nat) :
  i < length counts -> nth_error (setitem counts i v) i = Some v.
Proof.
  revert i. induction counts as [| c cs IH]; intros [| i]; simpl; intros Hi;
    try lia; try reflexivity.
  apply IH. lia.
Qed.

Lemma setitem_other (counts : list nat) (i j v : nat) :
  i <> j -> nth_error (setitem counts i v) j = nth_error counts j.
Proof.
  revert i j. induction counts as [| c cs IH]; intros [| i] [| j] Hij; simpl;
    try reflexivity; try congruence.
  apply IH. congruence.
Qed.

Lemma increment_raises (counts : list nat) (i : nat) (e : exn) :
  increment counts i = Raise e -> e = IndexError.
Proof.
  unfold increment.
  destruct (getitem counts (Z.of_nat i)) eqn:Hget; simpl; [discriminate |].
  intros [= <-]. eapply getitem_raises_IndexError. eassumption.
Qed.

Lemma count_clicks_raises (rank_to_ranker_index : list nat) (clicks : list Z) :
  forall (counts : list nat) (e : exn),
    count_clicks rank_to_ranker_index clicks counts = Raise e ->
    e = IndexError.
Proof.
  induction clicks as [| d ds IH]; intros counts e; simpl; [discriminate |].
  destruct (getitem rank_to_ranker_index d) as [i | e'] eqn:Hget; simpl.
  - destruct (increment counts i) as [counts' | e'] eqn:Hinc; simpl.
    + apply IH.
    + intros [= <-]. eapply increment_raises. eassumption.
  - intros [= <-]. eapply getitem_raises_IndexError. eassumption.
Qed.

(** A click outside [-len, len) makes the counting loop raise
    [IndexError], wherever it stands among the clicks. *)
Lemma count_clicks_out_of_range (rank_to_ranker_index : list nat)
    (clicks : list Z) (p : Z) :
  In p clicks ->
  (Z.of_nat (length rank_to_ranker_index) <= p \/
   p < - Z.of_nat (length rank_to_ranker_index))%Z ->
  forall counts,
    count_clicks rank_to_ranker_index clicks counts = Raise IndexError.
Proof.
  intros Hin Hp. induction clicks as [| d ds IH]; intros counts; [destruct Hin |].
  simpl.
  destruct (getitem rank_to_ranker_index d) as [i | e] eqn:Hget; simpl.
  - destruct Hin as [-> | Hin].
    + rewrite getitem_out_of_range in Hget by exact Hp. discriminate.
    + destruct (increment counts i) as [counts' | e] eqn:Hinc; simpl.
      * apply IH. exact Hin.
      * apply increment_raises in Hinc. now subst.
  - apply getitem_raises_IndexError in Hget. now subst.
Qed.

(** A negative click counts as the position it denotes from the end. *)
Lemma count_clicks_negative (rank_to_ranker_index : list nat)
    (before after : list Z) (p : Z) :
  (- Z.of_nat (length rank_to_ranker_index) <= p < 0)%Z ->
  forall counts,
    count_clicks rank_to_ranker_index (before ++ p :: after) counts =
    count_clicks rank_to_ranker_index
      (before ++ (Z.of_nat (length rank_to_ranker_index) + p)%Z :: after)
      counts.
Proof.
  intros Hp. induction before as [| d ds IH]; intros counts; simpl.
  - now rewrite (getitem_negative rank_to_ranker_index p Hp).
  - destruct (getitem rank_to_ranker_index d); simpl; [| reflexivity].
    destruct (increment counts a); simpl; [apply IH | reflexivity].
Qed.

Lemma getitem_in_range {A : Type} (l : list A) (p : Z) :
  (- Z.of_nat (length l) <= p < Z.of_nat (length l))%Z ->
  exists x, getitem l p = Ok x /\ In x l.
Proof.
  intros Hp.
  assert (Hnat : forall i, i < length l ->
                           exists x, getitem l (Z.of_nat i) = Ok x /\ In x l).
  { intros i Hi. rewrite getitem_of_nat.
    destruct (nth_error l i) as [x |] eqn:Hx;
      [| apply nth_error_None in Hx; lia].
    exists x. split; [reflexivity |]. eapply nth_error_In. eassumption. }
  destruct (Z.ltb_spec p 0) as [Hneg | Hpos].
  - rewrite getitem_negative by lia.
    replace (Z.of_nat (length l) + p)%Z
      with (Z.of_nat (Z.to_nat (Z.of_nat (length l) + p))) by lia.
    apply Hnat. lia.
  - replace p with (Z.of_nat (Z.to_nat p)) by lia. apply Hnat. lia.
Qed.

(** With provenance below [n] and clicks inside [-len, len), the
    counting loop ends with one counter per ranker, each raised by the
    number of clicks, repeats counted, on that ranker's items. *)
Lemma count_clicks_counts (rank_to_ranker_index : list nat) (n : nat)
    (clicks : list Z) :
  Forall (fun i => i < n) rank_to_ranker_index ->
  Forall (fun p => (- Z.of_nat (length rank_to_ranker_index) <= p <
                    Z.of_nat (length rank_to_ranker_index))%Z) clicks ->
  forall counts0,
    length counts0 = n ->
    exists counts,
      count_clicks rank_to_ranker_index clicks counts0 = Ok counts /\
      length counts = n /\
      forall j, j < n ->
                nth_error counts j =
                Some (nth j counts0 0 +
                      clicks_for rank_to_ranker_index clicks j).
Proof.
  intros Hwf Hclicks.
  induction Hclicks as [| p ps Hp Hps IH]; intros counts0 Hlen.
  - exists counts0. simpl. repeat split; [assumption |].
    intros j Hj. rewrite Nat.add_0_r. apply nth_error_nth'. lia.
  - destruct (getitem_in_range rank_to_ranker_index p Hp) as (i & Hget & Hin).
    assert (Hi : i < n) by (rewrite Forall_forall in Hwf; now apply Hwf).
    simpl count_clicks. rewrite Hget. simpl bind.
    unfold increment. rewrite getitem_of_nat.
    destruct (nth_error counts0 i) as [ci |] eqn:Hci;
      [| apply nth_error_None in Hci; lia].
    simpl bind.
    destruct (IH (setitem counts0 i (ci + 1))) as (counts & Hcount & Hlenc & Hnth).
    { now rewrite setitem_length. }
    exists counts. split; [exact Hcount |]. split; [exact Hlenc |].
    intros j Hj. rewrite (Hnth j Hj). f_equal.
    unfold clicks_for. simpl filter. rewrite Hget.
    destruct (Nat.eqb_spec i j) as [-> | Hne].
    + rewrite (nth_error_nth _ _ 0 (setitem_same counts0 j (ci + 1) ltac:(lia))).
      rewrite (nth_error_nth _ _ 0 Hci). simpl. lia.
    + assert (Hsame : nth j (setitem counts0 i (ci + 1)) 0 = nth j counts0 0).
      { assert (Hj0 : j < length counts0) by lia.
        rewrite <- (setitem_length counts0 i (ci + 1)) in Hj0.
        apply nth_error_nth.
        rewrite setitem_other by exact Hne.
        apply nth_error_nth'. rewrite setitem_length in Hj0. exact Hj0. }
      rewrite Hsame. reflexivity.
Qed.

Lemma fold_max_ge (xs : list nat) (x : nat) :
  x <= fold_left Nat.max xs x /\
  Forall (fun y => y <= fold_left Nat.max xs x) xs /\
  In (fold_left Nat.max xs x) (x :: xs).
Proof.
  revert x. induction xs as [| y ys IH]; intros x; simpl.
  - repeat split; [lia | constructor | tauto].
  - destruct (IH (Nat.max x y)) as (Hle & Hall & Hin).
    split; [lia |]. split.
    + constructor; [lia | assumption].
    + destruct Hin as [Hin | Hin]; [| tauto].
      rewrite <- Hin. destruct (Nat.max_spec x y) as [[_ ->] | [_ ->]]; tauto.
Qed.

Lemma max_greatest (counts : list nat) :
  counts <> [] -> exists M, max_ counts = Ok M /\ greatest M counts.
Proof.
  destruct counts as [| c cs]; [congruence | intros _].
  destruct (fold_max_ge cs c) as (Hle & Hall & Hin).
  exists (fold_left Nat.max cs c). split; [reflexivity |].
  split; [exact Hin | constructor; assumption].
Qed.

Lemma min_least (counts : list nat) :
  counts <> [] -> exists m, min_ counts = Ok m /\ least m counts.
Proof.
  destruct counts as [| c cs]; [congruence | intros _].
  destruct (fold_min_le cs c) as (Hle & Hall & Hin).
  exists (fold_left Nat.min cs c). split; [reflexivity |].
  split; [exact Hin | constructor; assumption].
Qed.

End EvaluateFacts.

Import EvaluateFacts.

Module EvaluateClaims.

Lemma evaluate_unfold {document : Type} (ranking : Ranking document)
    (clicks : list Z) (counts : list nat) (M m : nat) :
  count_clicks (rank_to_ranker_index ranking) clicks
    (repeat 0 (number_of_rankers ranking)) = Ok counts ->
  max_ counts = Ok M -> min_ counts = Ok m ->
  evaluate ranking clicks =
  Ok (if M =? m then map (fun _ => 0) counts
      else map (fun c => 0 + (if M =? c then 1 else 0)) counts).
Proof.
  intros Hcounts HM Hm. unfold evaluate. rewrite Hcounts. simpl bind.
  rewrite HM. simpl bind. rewrite Hm. simpl bind.
  destruct (M =? m); reflexivity.
Qed.

(** C6.  For a Ranking with at least one ranker and ranker indexes
    below [number_of_rankers], and clicks on valid positions,
    [evaluate] returns one entry per ranker: all zeros when the greatest
    click count equals the least (so also without clicks), and otherwise
    [1] exactly where the count is the greatest and [0] elsewhere.  On
    [rank_to_ranker_index = [0, 1, 0, 1]] and clicks [[0]] it returns
    [(1, 0)]. *)
Theorem evaluate_win_vector :
  (forall (document : Type) (ranking : Ranking document) (clicks : list Z),
      1 <= number_of_rankers ranking ->
      Forall (fun i => i < number_of_rankers ranking)
        (rank_to_ranker_index ranking) ->
      Forall (fun p => (0 <= p <
                        Z.of_nat (length (rank_to_ranker_index ranking)))%Z)
        clicks ->
      exists counts M m v,
        length counts = number_of_rankers ranking /\
        (forall j, j < number_of_rankers ranking ->
                   nth_error counts j =
                   Some (clicks_for (rank_to_ranker_index ranking) clicks j)) /\
        greatest M counts /\ least m counts /\
        evaluate ranking clicks = Ok v /\
        length v = number_of_rankers ranking /\
        (M = m -> Forall (fun x => x = 0) v) /\
        (M <> m ->
         forall j c, nth_error counts j = Some c ->
                     nth_error v j = Some (if c =? M then 1 else 0))) /\
  evaluate four_items [0%Z] = Ok [1; 0].
Proof.
  split; [| reflexivity].
  intros document ranking clicks Hn Hwf Hclicks.
  destruct (count_clicks_counts (rank_to_ranker_index ranking)
              (number_of_rankers ranking) clicks Hwf)
    with (counts0 := repeat 0 (number_of_rankers ranking))
    as (counts & Hcounts & Hlen & Hnth).
  { revert Hclicks. apply Forall_impl. intros p Hp. lia. }
  { apply repeat_length. }
  assert (Hne : counts <> []) by (destruct counts; [simpl in Hlen; lia | discriminate]).
  destruct (max_greatest counts Hne) as (M & HM & Hgreatest).
  destruct (min_least counts Hne) as (m & Hm & Hleast).
  exists counts, M, m.
  eexists. split; [exact Hlen |]. split.
  { intros j Hj. rewrite (Hnth j Hj). f_equal.
    rewrite nth_repeat. reflexivity. }
  split; [exact Hgreatest |]. split; [exact Hleast |].
  split; [exact (evaluate_unfold ranking clicks counts M m Hcounts HM Hm) |].
  split; [destruct (M =? m); now rewrite length_map |].
  split.
  - intros ->. rewrite Nat.eqb_refl. apply Forall_map.
    apply Forall_forall. reflexivity.
  - intros Hdiff j c Hc. apply Nat.eqb_neq in Hdiff. rewrite Hdiff.
    rewrite nth_error_map, Hc. simpl. now rewrite Nat.eqb_sym.
Qed.

Lemma evaluate_win_vector_witness :
  exists counts M m v,
    length counts = 2 /\
    (forall j, j < 2 ->
               nth_error counts j =
               Some (clicks_for [0; 1; 0; 1] [0%Z; 2%Z] j)) /\
    greatest M counts /\ least m counts /\
    evaluate four_items [0%Z; 2%Z] = Ok v /\
    length v = 2 /\
    (M = m -> Forall (fun x => x = 0) v) /\
    (M <> m ->
     forall j c, nth_error counts j = Some c ->
                 nth_error v j = Some (if c =? M then 1 else 0)).
Proof.
  apply (proj1 evaluate_win_vector nat four_items [0%Z; 2%Z]).
  - simpl. lia.
  - simpl. repeat constructor.
  - simpl. repeat constructor; lia.
Defined.

(** C10.  [evaluate] subscripts [rank_to_ranker_index] with every click:
    a click [p >= len] or [p < -len] raises [IndexError] (and not
    [InvalidArgument]); a click [-len <= p < 0] is taken as position
    [len + p]; with ranker indexes below [number_of_rankers] and every
    click inside [-len, len) the call succeeds and each counter is the
    number of clicks, repeats counted one by one, on that ranker's
    items. *)
Theorem evaluate_click_positions {document : Type}
    (ranking : Ranking document) :
  length (rank_to_ranker_index ranking) = length (items ranking) ->
  (forall clicks p,
      In p clicks ->
      (Z.of_nat (length (items ranking)) <= p \/
       p < - Z.of_nat (length (items ranking)))%Z ->
      evaluate ranking clicks = Raise IndexError) /\
  (forall before after p,
      (- Z.of_nat (length (items ranking)) <= p < 0)%Z ->
      evaluate ranking (before ++ p :: after) =
      evaluate ranking
        (before ++ (Z.of_nat (length (items ranking)) + p)%Z :: after)) /\
  (forall clicks,
      1 <= number_of_rankers ranking ->
      Forall (fun i => i < number_of_rankers ranking)
        (rank_to_ranker_index ranking) ->
      Forall (fun p => (- Z.of_nat (length (items ranking)) <= p <
                        Z.of_nat (length (items ranking)))%Z) clicks ->
      exists counts v,
        count_clicks (rank_to_ranker_index ranking) clicks
          (repeat 0 (number_of_rankers ranking)) = Ok counts /\
        (forall j, j < number_of_rankers ranking ->
                   nth_error counts j =
                   Some (clicks_for (rank_to_ranker_index ranking) clicks j)) /\
        evaluate ranking clicks = Ok v) /\
  (forall clicks p j,
      getitem (rank_to_ranker_index ranking) p = Ok j ->
      clicks_for (rank_to_ranker_index ranking) (p :: clicks) j =
      S (clicks_for (rank_to_ranker_index ranking) clicks j)).
Proof.
  intros Hlen. rewrite <- Hlen. repeat split.
  - intros clicks p Hin Hp. unfold evaluate.
    rewrite (count_clicks_out_of_range _ clicks p Hin Hp). reflexivity.
  - intros before after p Hp. unfold evaluate.
    rewrite (count_clicks_negative _ before after p Hp). reflexivity.
  - intros clicks Hn Hwf Hclicks.
    destruct (count_clicks_counts (rank_to_ranker_index ranking)
                (number_of_rankers ranking) clicks Hwf Hclicks)
      with (counts0 := repeat 0 (number_of_rankers ranking))
      as (counts & Hcounts & Hlenc & Hnth).
    { apply repeat_length. }
    assert (Hne : counts <> [])
      by (destruct counts; [simpl in Hlenc; lia | discriminate]).
    destruct (max_greatest counts Hne) as (M & HM & _).
    destruct (min_least counts Hne) as (m & Hm & _).
    exists counts. eexists. split; [exact Hcounts |]. split.
    + intros j Hj. rewrite (Hnth j Hj). f_equal.
      rewrite nth_repeat. reflexivity.
    + exact (evaluate_unfold ranking clicks counts M m Hcounts HM Hm).
  - intros clicks p j Hget. unfold clicks_for. simpl filter.
    rewrite Hget, Nat.eqb_refl. reflexivity.
Qed.

Lemma evaluate_click_positions_witness :
  evaluate four_items [0%Z; 4%Z] = Raise IndexError /\
  evaluate four_items [(-1)%Z] = evaluate four_items [3%Z] /\
  (exists counts v,
      count_clicks [0; 1; 0; 1] [0%Z; 0%Z; (-4)%Z] (repeat 0 2) = Ok counts /\
      (forall j, j < 2 ->
                 nth_error counts j =
                 Some (clicks_for [0; 1; 0; 1] [0%Z; 0%Z; (-4)%Z] j)) /\
      evaluate four_items [0%Z; 0%Z; (-4)%Z] = Ok v).
Proof.
  destruct (evaluate_click_positions four_items eq_refl)
    as (Hout & Hneg & Hok & _).
  split; [| split].
  - apply (Hout [0%Z; 4%Z] 4%Z); simpl; [tauto | lia].
  - apply (Hneg [] [] (-1)%Z). simpl. lia.
  - apply (Hok [0%Z; 0%Z; (-4)%Z]).
    + simpl. lia.
    + simpl. repeat constructor.
    + simpl. repeat constructor; lia.
Defined.

(** The scenarios of the specification, and the edges of the click
    range. *)
Example evaluate_tie : evaluate four_items [0%Z; 1%Z] = Ok [0; 0].
Proof. reflexivity. Qed.

Example evaluate_two_clicks : evaluate four_items [0%Z; 2%Z] = Ok [1; 0].
Proof. reflexivity. Qed.

Example evaluate_no_clicks : evaluate four_items [] = Ok [0; 0].
Proof. reflexivity. Qed.

Example evaluate_last_position :
  evaluate four_items [(-1)%Z] = Ok [0; 1].
Proof. reflexivity. Qed.

Example evaluate_repeated_click :
  count_clicks [0; 1; 0; 1] [1%Z; 1%Z] [0; 0] = Ok [0; 2].
Proof. reflexivity. Qed.

Example evaluate_past_the_end :
  evaluate four_items [4%Z] = Raise IndexError.
Proof. reflexivity. Qed.

End EvaluateClaims.

(** ** Memoisation is transparent *)

Module MemoFacts.
Section MemoFacts.
Context {K V : Type}.
Variable eq_dec : forall x y : K, {x = y} + {x <> y}.
Variable missing : K -> outcome V.

Lemma empty_consistent : Memo.consistent eq_dec missing [].
Proof. intros k v. discriminate. Qed.

(** A lookup in a consistent dictionary yields what [__missing__]
    computes for the key, and leaves the dictionary consistent. *)
Lemma lookup_consistent (d : Memo.dict K V) (k : K) :
  Memo.consistent eq_dec missing d ->
  match Memo.lookup eq_dec missing d k with
  | Ok (v, d') => missing k = Ok v /\ Memo.consistent eq_dec missing d'
  | Raise e => missing k = Raise e
  end.
Proof.
  intros Hd. unfold Memo.lookup.
  destruct (Memo.find eq_dec d k) as [v |] eqn:Hfind.
  - split; [apply Hd; exact Hfind | exact Hd].
  - destruct (missing k) as [v | e] eqn:Hmiss; simpl; [| reflexivity].
    split; [reflexivity |].
    intros k' v'. simpl. destruct (eq_dec k k') as [<- | _].
    + intros [= <-]. exact Hmiss.
    + apply Hd.
Qed.

(** Looking the same key up again returns the stored value and leaves
    the dictionary as it is. *)
Lemma lookup_again (d d' : Memo.dict K V) (k : K) (v : V) :
  Memo.lookup eq_dec missing d k = Ok (v, d') ->
  Memo.lookup eq_dec missing d' k = Ok (v, d').
Proof.
  unfold Memo.lookup.
  destruct (Memo.find eq_dec d k) as [v0 |] eqn:Hfind.
  - intros [= <- <-]. now rewrite Hfind.
  - destruct (missing k) as [v0 | e]; simpl; [| discriminate].
    intros [= <- <-]. simpl.
    destruct (eq_dec k k); [reflexivity | congruence].
Qed.
End MemoFacts.
End MemoFacts.

(** ** More on [evaluate] *)

Module EvaluateExtras.

Lemma clicks_for_permutation (rank_to_ranker_index : list nat)
    (clicks clicks' : list Z) (j : nat) :
  Permutation clicks clicks' ->
  clicks_for rank_to_ranker_index clicks j =
  clicks_for rank_to_ranker_index clicks' j.
Proof.
  unfold clicks_for.
  induction 1 as [| p l l' _ IH | p q l | l l' l'' _ IH1 _ IH2]; simpl.
  - reflexivity.
  - destruct (getitem rank_to_ranker_index p) as [i |]; [| exact IH].
    destruct (i =? j); simpl; [now rewrite IH | exact IH].
  - destruct (getitem rank_to_ranker_index p) as [i |],
             (getitem rank_to_ranker_index q) as [i' |];
      try reflexivity; destruct (i =? j); try reflexivity;
      destruct (i' =? j); reflexivity.
  - now rewrite IH1.
Qed.

(** A click that cannot be attributed, because the position or the
    ranker index found there is out of range, makes the loop raise. *)
Lemma count_clicks_unattributable (rank_to_ranker_index : list nat)
    (clicks : list Z) :
  forall counts,
    Exists (fun p => forall i, getitem rank_to_ranker_index p = Ok i ->
                               length counts <= i) clicks ->
    count_clicks rank_to_ranker_index clicks counts = Raise IndexError.
Proof.
  induction clicks as [| d ds IH]; intros counts Hbad.
  - inversion Hbad.
  - simpl.
    destruct (getitem rank_to_ranker_index d) as [i | e] eqn:Hget; simpl.
    2:{ apply getitem_raises_IndexError in Hget. now subst. }
    destruct (increment counts i) as [counts' | e] eqn:Hinc; simpl.
    2:{ apply increment_raises in Hinc. now subst. }
    assert (Hlen : length counts' = length counts).
    { unfold increment in Hinc.
      destruct (getitem counts (Z.of_nat i)); simpl in Hinc; [| discriminate].
      injection Hinc as <-. apply setitem_length. }
    assert (Hi : i < length counts).
    { unfold increment in Hinc. rewrite getitem_of_nat in Hinc.
      destruct (nth_error counts i) eqn:Hnth; [| discriminate].
      apply nth_error_Some. congruence. }
    apply IH. inversion Hbad as [? ? Hd | ? ? Hds]; subst.
    + specialize (Hd i Hget). lia.
    + rewrite Hlen. exact Hds.
Qed.

(** When every click can be attributed the loop ends with the click
    counts added to the counters. *)
Lemma count_clicks_attributable (rank_to_ranker_index : list nat) (n : nat)
    (clicks : list Z) :
  Forall (fun p => exists i, getitem rank_to_ranker_index p = Ok i /\ i < n)
    clicks ->
  forall counts0,
    length counts0 = n ->
    exists counts,
      count_clicks rank_to_ranker_index clicks counts0 = Ok counts /\
      length counts = n /\
      forall j, nth_error counts j =
                option_map
                  (fun c => c + clicks_for rank_to_ranker_index clicks j)
                  (nth_error counts0 j).
Proof.
  induction 1 as [| p ps (i & Hget & Hi) _ IH]; intros counts0 Hlen.
  - exists counts0. simpl. repeat split; [assumption |].
    intros j. destruct (nth_error counts0 j); simpl; [| reflexivity].
    f_equal. unfold clicks_for. simpl. lia.
  - simpl count_clicks. rewrite Hget. simpl bind.
    unfold increment. rewrite getitem_of_nat.
    destruct (nth_error counts0 i) as [ci |] eqn:Hci;
      [| apply nth_error_None in Hci; lia].
    simpl bind.
    destruct (IH (setitem counts0 i (ci + 1))) as (counts & Hcount & Hlenc & Hnth).
    { now rewrite setitem_length. }
    exists counts. split; [exact Hcount |]. split; [exact Hlenc |].
    intros j. rewrite (Hnth j).
    unfold clicks_for. simpl filter. rewrite Hget.
    destruct (Nat.eqb_spec i j) as [-> | Hne].
    + rewrite setitem_same by lia. rewrite Hci. simpl. f_equal. lia.
    + rewrite setitem_other by exact Hne. reflexivity.
Qed.

Lemma attributable_dec (rank_to_ranker_index : list nat) (n : nat)
    (clicks : list Z) :
  Forall (fun p => exists i, getitem rank_to_ranker_index p = Ok i /\ i < n)
    clicks \/
  Exists (fun p => forall i, getitem rank_to_ranker_index p = Ok i -> n <= i)
    clicks.
Proof.
  induction clicks as [| p ps [IH | IH]].
  - left. constructor.
  - destruct (getitem rank_to_ranker_index p) as [i | e] eqn:Hget.
    + destruct (Nat.lt_ge_cases i n) as [Hlt | Hge].
      * left. constructor; [| exact IH]. exists i. now split.
      * right. apply Exists_cons_hd. rewrite Hget. intros i' [= <-]. exact Hge.
    + right. apply Exists_cons_hd. rewrite Hget. discriminate.
  - right. now apply Exists_cons_tl.
Qed.

(** X1.  [evaluate] does not depend on the order of the clicks: clicks
    that are a rearrangement of one another give the same result, and
    raise the same exception when they raise. *)
Theorem evaluate_order_invariant {document : Type}
    (ranking : Ranking document) (clicks clicks' : list Z) :
  Permutation clicks clicks' ->
  evaluate ranking clicks = evaluate ranking clicks'.
Proof.
  intros Hperm.
  assert (Hcounts :
    count_clicks (rank_to_ranker_index ranking) clicks
      (repeat 0 (number_of_rankers ranking)) =
    count_clicks (rank_to_ranker_index ranking) clicks'
      (repeat 0 (number_of_rankers ranking))).
  { destruct (attributable_dec (rank_to_ranker_index ranking)
                (number_of_rankers ranking) clicks) as [Hgood | Hbad].
    - assert (Hgood' : Forall (fun p => exists i,
                  getitem (rank_to_ranker_index ranking) p = Ok i /\
                  i < number_of_rankers ranking) clicks').
      { rewrite Forall_forall in *. intros p Hp. apply Hgood.
        eapply Permutation_in; [symmetry |]; eassumption. }
      destruct (count_clicks_attributable _ _ _ Hgood
                  (repeat 0 (number_of_rankers ranking)) (repeat_length _ _))
        as (counts & -> & _ & Hnth).
      destruct (count_clicks_attributable _ _ _ Hgood'
                  (repeat 0 (number_of_rankers ranking)) (repeat_length _ _))
        as (counts' & -> & _ & Hnth').
      f_equal. apply nth_error_ext. intros j.
      rewrite Hnth, Hnth'.
      now rewrite (clicks_for_permutation _ clicks clicks' j Hperm).
    - assert (Hbad' : Exists (fun p => forall i,
                  getitem (rank_to_ranker_index ranking) p = Ok i ->
                  number_of_rankers ranking <= i) clicks').
      { rewrite Exists_exists in *. destruct Hbad as (p & Hp & Hi).
        exists p. split; [| exact Hi]. eapply Permutation_in; eassumption. }
      rewrite !count_clicks_unattributable; try reflexivity;
        now rewrite repeat_length. }
  unfold evaluate. now rewrite Hcounts.
Qed.

Lemma evaluate_order_invariant_witness :
  evaluate four_items [0%Z; 3%Z; 2%Z] = evaluate four_items [3%Z; 0%Z; 2%Z].
Proof.
  apply (evaluate_order_invariant four_items). apply perm_swap.
Defined.

(** X2.  What [evaluate] does on any Ranking and any clicks: it raises
    [IndexError] when some click cannot be attributed (its position is
    outside [-len, len), or the ranker index stored there is not below
    [number_of_rankers]); otherwise it raises [ValueError] when the
    Ranking has no rankers, and returns a vector with one entry per
    ranker when it has some. *)
Theorem evaluate_outcome {document : Type} (ranking : Ranking document)
    (clicks : list Z) :
  (Exists (fun p => forall i,
               getitem (rank_to_ranker_index ranking) p = Ok i ->
               number_of_rankers ranking <= i) clicks ->
   evaluate ranking clicks = Raise IndexError) /\
  (Forall (fun p => exists i,
               getitem (rank_to_ranker_index ranking) p = Ok i /\
               i < number_of_rankers ranking) clicks ->
   number_of_rankers ranking = 0 ->
   clicks = [] /\ evaluate ranking clicks = Raise ValueError) /\
  (Forall (fun p => exists i,
               getitem (rank_to_ranker_index ranking) p = Ok i /\
               i < number_of_rankers ranking) clicks ->
   1 <= number_of_rankers ranking ->
   exists v, evaluate ranking clicks = Ok v /\
             length v = number_of_rankers ranking).
Proof.
  split; [| split].
  - intros Hbad. unfold evaluate.
    rewrite count_clicks_unattributable; [reflexivity |].
    now rewrite repeat_length.
  - intros Hgood Hn.
    assert (Hnil : clicks = []).
    { destruct Hgood as [| p ps (i & _ & Hi) _]; [reflexivity | lia]. }
    split; [exact Hnil |]. subst clicks. unfold evaluate. rewrite Hn.
    reflexivity.
  - intros Hgood Hn.
    destruct (count_clicks_attributable _ _ _ Hgood
                (repeat 0 (number_of_rankers ranking)) (repeat_length _ _))
      as (counts & Hcounts & Hlen & _).
    assert (Hne : counts <> [])
      by (destruct counts; [simpl in Hlen; lia | discriminate]).
    destruct (max_greatest counts Hne) as (M & HM & _).
    destruct (min_least counts Hne) as (m & Hm & _).
    eexists. split.
    + exact (EvaluateClaims.evaluate_unfold ranking clicks counts M m
               Hcounts HM Hm).
    + destruct (M =? m); now rewrite length_map.
Qed.

Lemma evaluate_outcome_witness :
  evaluate four_items [1%Z; 7%Z] = Raise IndexError /\
  (exists v, evaluate four_items [1%Z; (-2)%Z] = Ok v /\ length v = 2).
Proof.
  destruct (evaluate_outcome four_items [1%Z; 7%Z]) as (Hbad & _ & _).
  destruct (evaluate_outcome four_items [1%Z; (-2)%Z]) as (_ & _ & Hgood).
  split.
  - apply Hbad. apply Exists_cons_tl, Exists_cons_hd. simpl. discriminate.
  - apply Hgood; [| simpl; lia].
    repeat constructor; simpl; eexists; (split; [reflexivity | lia]).
Defined.

(** X3.  Whenever [evaluate] returns, every entry of the vector is [0]
    or [1] and at least one entry is [0]: it never credits all rankers
    at once.  With a single ranker the result is always the tie [(0,)]. *)
Theorem evaluate_never_credits_all {document : Type}
    (ranking : Ranking document) (clicks : list Z) (v : list nat) :
  evaluate ranking clicks = Ok v ->
  Forall (fun x => x = 0 \/ x = 1) v /\
  In 0 v /\
  (number_of_rankers ranking = 1 -> v = [0]).
Proof.
  unfold evaluate.
  destruct (count_clicks _ clicks _) as [counts |] eqn:Hcounts;
    simpl; [| discriminate].
  destruct (max_ counts) as [M |] eqn:HM; simpl; [| discriminate].
  destruct (min_ counts) as [m |] eqn:Hm; simpl; [| discriminate].
  assert (Hne : counts <> []) by (intros ->; discriminate).
  destruct (min_least counts Hne) as (m' & Hm' & Hin & _).
  assert (m' = m) by congruence. subst m'.
  assert (Hlen : length counts = number_of_rankers ranking).
  { destruct (attributable_dec (rank_to_ranker_index ranking)
                (number_of_rankers ranking) clicks) as [Hgood | Hbad].
    - destruct (count_clicks_attributable _ _ _ Hgood
                  (repeat 0 (number_of_rankers ranking)) (repeat_length _ _))
        as (counts' & Hc' & Hlen' & _).
      congruence.
    - rewrite count_clicks_unattributable in Hcounts; [discriminate |].
      now rewrite repeat_length. }
  intros Hv.
  assert (H01 : Forall (fun x => x = 0 \/ x = 1) v /\ In 0 v).
  { destruct (Nat.eqb_spec M m) as [-> | Hdiff]; injection Hv as <-.
    - split.
      + apply Forall_map, Forall_forall. intros; now left.
      + apply in_map_iff. exists m. now split.
    - split.
      + apply Forall_map, Forall_forall. intros c _.
        destruct (M =? c); [now right | now left].
      + apply in_map_iff. exists m. split; [| exact Hin].
        apply Nat.eqb_neq in Hdiff. now rewrite Hdiff. }
  destruct H01 as [H01 H0]. split; [exact H01 |]. split; [exact H0 |].
  intros H1.
  assert (Hlenv : length v = 1).
  { rewrite <- H1, <- Hlen. destruct (M =? m); injection Hv as <-;
      apply length_map. }
  destruct v as [| x [| y v']]; simpl in Hlenv; try lia.
  destruct H0 as [-> | []]. reflexivity.
Qed.

Lemma evaluate_never_credits_all_witness :
  Forall (fun x => x = 0 \/ x = 1) [1; 0] /\
  In 0 [1; 0] /\
  (number_of_rankers four_items = 1 -> [1; 0] = [0]).
Proof.
  apply (evaluate_never_credits_all four_items [0%Z; 2%Z] [1; 0]).
  reflexivity.
Defined.

End EvaluateExtras.

(** ** More on the caches and the sampler *)

Module CacheExtras.

Open Scope R_scope.

Lemma breakpoints_nth (tau : R) (n i : nat) :
  (i < n)%nat ->
  nth i (breakpoints tau n) 0 = weight_sum tau (i + 1) / weight_sum tau n.
Proof.
  intros Hi. destruct (Nat.eq_dec i (n - 1)) as [-> | Hne].
  - rewrite (nth_error_nth _ _ 0 (breakpoints_last tau n)).
    replace (n - 1 + 1)%nat with n by lia.
    pose proof (weight_sum_positive tau n ltac:(lia)). field. lra.
  - apply nth_error_nth. apply breakpoints_inner. lia.
Qed.

Lemma real_injective (xs ys : list R) : map real xs = map real ys -> xs = ys.
Proof.
  revert ys. induction xs as [| x xs IH]; intros [| y ys]; simpl;
    try discriminate; [reflexivity |].
  intros [= -> H]. f_equal. now apply IH.
Qed.

Lemma default_tau_weight (r : Z) : (1 <= r)%Z -> weight 3 r = 1 / IZR r ^ 3.
Proof.
  intros Hr. unfold weight.
  replace 3 with (INR 3) by (simpl; lra).
  rewrite Rpower_pow; [reflexivity |].
  pose proof (rank_at_least_1 r Hr). lra.
Qed.

(** X4.  The sum over no rank is [0].  Whenever the sum for [n + 1] is
    computed, so are the sum for [n] and the weight of rank [n + 1],
    and it is their float sum; for [tau >= 0] all three are finite and
    the sum for [n + 1] is not below the sum for [n]. *)
Theorem sum_cache_growth (tau : R) (n : nat) (total' : number) :
  sum_cache tau (S n) = Ok total' ->
  sum_cache tau 0 = Ok (real 0) /\
  exists total w,
    sum_cache tau n = Ok total /\
    member_cache tau (Z.of_nat (S n)) = Ok w /\
    total' = add total w /\
    (0 <= tau ->
     exists x y,
       total = real x /\ w = real y /\ total' = real (x + y) /\
       x <= x + y).
Proof.
  intros Hsum. split; [reflexivity |].
  destruct (sum_cache_S tau n total' Hsum) as (total & w & Htotal & Hw & ->).
  exists total, w. repeat split; try assumption.
  intros Htau.
  destruct (member_cache_returned tau (Z.of_nat (S n)) w Htau ltac:(lia) Hw)
    as [Hrep ->].
  assert (Hx : total = real (weight_sum tau n)).
  { destruct n as [| n];
      [rewrite sum_cache_0 in Htotal; injection Htotal as <-; reflexivity |].
    rewrite sum_cache_closed in Htotal; [congruence | exact Htau |].
    apply (representable_below tau _ (Z.of_nat (S (S n))));
      [exact Htau | lia | exact Hrep]. }
  subst total.
  exists (weight_sum tau n), (weight tau (Z.of_nat (S n))).
  repeat split.
  - apply add_real. rewrite <- weight_sum_S.
    apply (weight_sum_inside tau (S n) (S n)); [exact Htau | lia | apply Hrep].
  - pose proof (weight_positive tau (Z.of_nat (S n))). lra.
Qed.

Lemma sum_cache_growth_witness :
  exists total w,
    sum_cache 3 3 = Ok total /\
    member_cache 3 (Z.of_nat 4) = Ok w /\
    real (weight_sum 3 4) = add total w /\
    (0 <= 3 ->
     exists x y,
       total = real x /\ w = real y /\
       real (weight_sum 3 4) = real (x + y) /\ x <= x + y).
Proof.
  apply (sum_cache_growth 3 3 (real (weight_sum 3 4))).
  apply sum_cache_closed; [lra |].
  apply default_tau_representable. simpl. lia.
Defined.

(** X5.  The docstring of [CumulationCache]: for [tau >= 0] and a list
    of [n] candidates whose breakpoints are computed, the gap between
    breakpoint [i] and the one before it (or [0] for [i = 0]) is, in
    exact arithmetic, the weight of rank [i + 1] divided by the sum of
    the weights of ranks [1..n], also at the last position, where the
    breakpoint is set to [1]. *)
Theorem breakpoint_gap_is_normalised_weight (tau : R) (n i : nat)
    (cumulation : list number) :
  0 <= tau -> (i < n)%nat ->
  CumulationCache.cumulation tau n = Ok cumulation ->
  exists xs total w,
    cumulation = map real xs /\
    sum_cache tau n = Ok (real total) /\
    member_cache tau (Z.of_nat (i + 1)) = Ok (real w) /\
    nth i xs 0 -
    match i with
    | O => 0
    | S i' => nth i' xs 0
    end = w / total.
Proof.
  intros Htau Hi Hcum.
  destruct (cumulation_returned tau n cumulation Htau Hcum) as [-> Hrep].
  specialize (Hrep ltac:(lia)).
  exists (breakpoints tau n), (weight_sum tau n),
    (weight tau (Z.of_nat (i + 1))).
  split; [reflexivity |].
  split; [now apply sum_cache_closed |].
  split.
  { apply member_cache_rank; [exact Htau | lia |].
    apply (representable_below tau _ (Z.of_nat n));
      [exact Htau | lia | exact Hrep]. }
  pose proof (weight_sum_positive tau n ltac:(lia)) as Hpos.
  rewrite breakpoints_nth by exact Hi.
  replace (i + 1)%nat with (S i) by lia. rewrite weight_sum_S.
  destruct i as [| i'].
  - simpl weight_sum. field. lra.
  - rewrite breakpoints_nth by lia.
    replace (i' + 1)%nat with (S i') by lia. field. lra.
Qed.

Lemma breakpoint_gap_is_normalised_weight_witness :
  exists xs total w,
    map real (breakpoints 3 4) = map real xs /\
    sum_cache 3 4 = Ok (real total) /\
    member_cache 3 (Z.of_nat (3 + 1)) = Ok (real w) /\
    nth 3 xs 0 - nth 2 xs 0 = w / total.
Proof.
  apply (breakpoint_gap_is_normalised_weight 3 4 3); [lra | lia |].
  apply default_tau_cumulation. lia.
Defined.

(** X6.  For [tau >= 0], [choice_one_of] returns the candidate at
    index [i] whenever the draw lies between the breakpoint before [i]
    (or [0]) and the breakpoint at [i]: the intervals between
    consecutive breakpoints decide the selection. *)
Theorem choice_one_of_interval {document : Type} (rng : Draws) (tau : R)
    (l : list document) (c : Cursor) (xs : list R) (i : nat)
    (d : document) :
  0 <= tau ->
  cumulation tau (length l) = Ok (map real xs) ->
  nth_error l i = Some d ->
  match i with
  | O => 0
  | S i' => nth i' xs 0
  end <= random_tape rng (random_pos c) < nth i xs 0 ->
  choice_one_of rng tau l c = Ok (Some d, advance_random c).
Proof.
  intros Htau Hcum Hd [Hlow Hhigh].
  destruct (cumulation_returned tau (length l) _ Htau Hcum) as [Hxs _].
  apply real_injective in Hxs. subst xs.
  assert (Hi : (i < length l)%nat) by (apply nth_error_Some; congruence).
  assert (Hne : l <> []) by (intros ->; simpl in Hi; lia).
  assert (Hnth : forall j, (j < length l)%nat ->
            nth_error (breakpoints tau (length l)) j =
            Some (nth j (breakpoints tau (length l)) 0)).
  { intros j Hj. apply nth_error_nth'. rewrite breakpoints_length. lia. }
  assert (Hf : random_tape rng (random_pos c) < 1).
  { eapply Rlt_le_trans; [exact Hhigh |].
    apply (breakpoints_nondecreasing tau (length l) i (length l - 1)%nat);
      [lia | apply Hnth; exact Hi | apply breakpoints_last]. }
  destruct (choice_one_of_first rng tau l c _ Hcum Hne Hf)
    as (i0 & d0 & Hchoice & Hd0 & (c0 & Hc0 & Hfc0) & Hmin).
  assert (Hi0 : (i0 < length l)%nat) by (apply nth_error_Some; congruence).
  rewrite nth_error_map, (Hnth i0 Hi0) in Hc0. simpl in Hc0.
  injection Hc0 as <-. apply exceeds_real in Hfc0.
  assert (Heq : i0 = i).
  { destruct (Nat.lt_trichotomy i0 i) as [Hlt | [Heq | Hgt]]; [| exact Heq |].
    - exfalso. destruct i as [| i']; [lia |].
      pose proof (breakpoints_nondecreasing tau (length l) i0 i' _ _
                    ltac:(lia) (Hnth i0 Hi0) (Hnth i' ltac:(lia))).
      lra.
    - exfalso. apply (Hmin i (real (nth i (breakpoints tau (length l)) 0)) Hgt).
      + rewrite nth_error_map, (Hnth i Hi). reflexivity.
      + now apply exceeds_real. }
  subst i0. rewrite Hchoice. congruence.
Qed.

Lemma choice_one_of_interval_witness :
  choice_one_of late_draws 3 [7%nat; 8%nat] start =
  Ok (Some 8%nat, advance_random start).
Proof.
  apply (choice_one_of_interval late_draws 3 [7%nat; 8%nat] start
           (breakpoints 3 2) 1 8%nat).
  - lra.
  - apply (default_tau_cumulation 2). lia.
  - reflexivity.
  - unfold breakpoints. simpl.
    rewrite !default_tau_weight by lia. simpl. lra.
Defined.

Close Scope R_scope.

End CacheExtras.

(** ** Where the items of the result come from *)

Module SourceFacts.
Section SourceFacts.
Context {document : Type}.
Variable document_eq_dec : forall x y : document, {x = y} + {x <> y}.

Local Abbreviation discard := (discard document_eq_dec).
Local Abbreviation interleave := (interleave document_eq_dec).
Local Abbreviation multileave := (multileave document_eq_dec).

Lemma Forall2_nth_error {A B : Type} (P : A -> B -> Prop) (l : list A)
    (l' : list B) (i : nat) (x : A) :
  Forall2 P l l' -> nth_error l i = Some x ->
  exists y, nth_error l' i = Some y /\ P x y.
Proof.
  intros H. revert i. induction H as [| a b l l' Hab _ IH]; intros [| i]; simpl;
    try discriminate.
  - intros [= <-]. exists b. split; [reflexivity | exact Hab].
  - apply IH.
Qed.

Lemma sourced_length (lists : list (list document)) (k m : nat)
    (rankings : list (list document)) (result : Ranking document) :
  sourced lists k m rankings result -> length rankings = m.
Proof. now intros [H _]. Qed.

(** A sample keeps the working lists inside their input lists and adds
    a document of the sampled list to the result. *)
Lemma sourced_step (rng : Draws) (tau : R) (lists : list (list document))
    (k m ranker_index : nat) (rankings : list (list document))
    (result : Ranking document) (ranking : list document) (c : Cursor)
    (d : option document) :
  random_in_unit rng ->
  sourced lists k m rankings result ->
  length (items result) < k ->
  nth_error rankings ranker_index = Some ranking ->
  choice_one_of rng tau ranking c = Ok (d, advance_random c) ->
  sourced lists k m (map (discard d) rankings)
    (append result d ranker_index).
Proof.
  intros Hunit (Hm & Hincl & Hleft & Hfrom) Hk Hranking Hd.
  assert (Hin : In ranking rankings) by (eapply nth_error_In; eassumption).
  assert (Hne : ranking <> []).
  { rewrite Forall_forall in Hleft. specialize (Hleft _ Hin).
    destruct ranking; [simpl in Hleft; lia | discriminate]. }
  destruct (choice_one_of_candidate rng tau ranking c _ d Hd Hne
              (proj2 (Hunit _))) as (x & -> & Hxin).
  destruct (Forall2_nth_error _ _ _ _ _ Hincl Hranking)
    as (source & Hsource & Hsub).
  unfold sourced. simpl. rewrite length_map.
  split; [exact Hm |]. split; [| split].
  - clear -Hincl. induction Hincl as [| r s rs ss Hrs _ IH]; simpl;
      constructor; [| exact IH].
    intros y Hy. apply Hrs. eapply drop_first_incl. exact Hy.
  - apply Forall_map. revert Hleft. apply Forall_impl.
    intros l Hl. rewrite length_app. simpl.
    pose proof (drop_first_length document_eq_dec x l). lia.
  - apply Forall2_app; [exact Hfrom |]. constructor; [| constructor].
    exists x, source. repeat split; [exact Hsource | apply Hsub, Hxin].
Qed.

Lemma sourced_start (lists : list (list document)) (k n : nat) :
  Forall (fun l => k <= length l) lists ->
  sourced lists k (length lists) lists
    {| items := []; number_of_rankers := n; rank_to_ranker_index := [] |}.
Proof.
  intros Hk. unfold sourced. simpl. split; [reflexivity |]. split; [| split].
  - clear Hk. induction lists; constructor; [apply incl_refl | assumption].
  - revert Hk. apply Forall_impl. intros l Hl. lia.
  - constructor.
Qed.

Lemma items_are_documents (lists : list (list document))
    (its : list (option document)) (idxs : list nat) :
  Forall2 (from_source lists) its idxs ->
  exists docs,
    its = map Some docs /\
    Forall (fun d => exists source, In source lists /\ In d source) docs.
Proof.
  induction 1 as [| it idx its idxs (d & source & -> & Hsrc & Hd) _ IH].
  - exists []. split; [reflexivity | constructor].
  - destruct IH as (docs & -> & Hdocs).
    exists (d :: docs). split; [reflexivity |]. constructor; [| exact Hdocs].
    exists source. split; [eapply nth_error_In; eassumption | exact Hd].
Qed.

(** X7.  Provenance of [interleave]: on non-empty lists, unless the
    call raises what the computation of the breakpoints raises, every
    item of the returned Ranking is a document (never [None]) of the
    input list that its entry of [rank_to_ranker_index] names, [a] for
    [0] and [b] for [1]. *)
Theorem interleave_items_from_sources (rng : Draws) (tau : R)
    (a b : list document) (c : Cursor) :
  a <> [] -> b <> [] ->
  randint_below_2 rng -> random_in_unit rng ->
  (exists r c',
      interleave rng tau a b c = Ok (Some r, c') /\
      Forall2 (from_source [a; b]) (items r) (rank_to_ranker_index r)) \/
  (exists e,
      breakpoints_raise tau (Nat.max (length a) (length b)) e /\
      interleave rng tau a b c = Raise e).
Proof.
  intros Ha Hb Hcoin Hunit. unfold Probabilistic.interleave.
  set (k := Nat.min (length a) (length b)).
  assert (Hk : 1 <= k).
  { unfold k. destruct a; [congruence |]. destruct b; [congruence |].
    simpl. lia. }
  destruct (interleave_loop_invariant document_eq_dec rng tau
              (Nat.max (length a) (length b)) k 2
              (sourced [a; b] k 2) (sourced_length [a; b] k 2)) with
    (iterations := k) (rankings := [a; b])
    (result := {| items := @nil (option document); number_of_rankers := 2;
                  rank_to_ranker_index := [] |}) (c := c)
    as [(r & rankings' & c' & Hloop & (_ & _ & _ & Hfrom) & _) | Hraise];
    try assumption; try lia; try (apply bounded_two; lia).
  - intros ranker_index rankings result ranking c0 d HInv Hlt _ Hr Hd.
    eapply sourced_step; eassumption.
  - apply (sourced_start [a; b] k 2). repeat constructor; unfold k; lia.
  - simpl. lia.
  - left. exists r, c'. split; assumption.
  - right. exact Hraise.
Qed.

(** X8.  Provenance of [multileave]: on non-empty lists, none longer
    than [L], unless the call raises what the computation of the
    breakpoints for some length up to [L] raises, every item of the
    returned Ranking is a document (never [None]) of the input list
    that its entry of [rank_to_ranker_index] names. *)
Theorem multileave_items_from_sources (rng : Draws) (tau : R)
    (lists : list (list document)) (k fuel L : nat) (c : Cursor) :
  Forall (fun l => l <> []) lists ->
  least_length k lists ->
  shuffle_permutes rng -> random_in_unit rng ->
  k <= fuel ->
  bounded L lists ->
  (exists r c',
      multileave rng tau fuel lists c = Ok (Return r, c') /\
      Forall2 (from_source lists) (items r) (rank_to_ranker_index r)) \/
  (exists e,
      breakpoints_raise tau L e /\
      multileave rng tau fuel lists c = Raise e).
Proof.
  intros Hne Hk Hshuffle Hunit Hfuel Hbound.
  unfold Probabilistic.multileave.
  unfold bindM at 1. unfold lift. rewrite (min_least_length k lists Hk).
  pose proof (least_length_positive k lists Hk Hne) as Hpos.
  assert (Hm : 1 <= length lists).
  { destruct Hk as [Hin _]. destruct lists; [destruct Hin | simpl; lia]. }
  destruct (multileave_loop_invariant document_eq_dec rng tau L k
              (length lists) (sourced lists k (length lists))
              (sourced_length lists k (length lists))) with
    (fuel := fuel) (rankings := lists)
    (result := {| items := @nil (option document);
                  number_of_rankers := length lists;
                  rank_to_ranker_index := [] |}) (c := c)
    as [(r & rankings' & c' & Hloop & (_ & _ & _ & Hfrom) & _) | Hraise];
    try assumption; try (simpl; lia).
  - intros ranker_index rankings result ranking c0 d HInv Hlt _ Hr Hd.
    eapply sourced_step; eassumption.
  - apply sourced_start. exact (proj2 Hk).
  - left. exists r, c'. split; assumption.
  - right. exact Hraise.
Qed.

(** X9.  When [a] and [b] rank the same documents, each once,
    [interleave(a, b)], unless it raises what the computation of the
    breakpoints for some length up to [len(a)] raises, returns every
    one of these documents exactly once: its items are a rearrangement
    of [a]. *)
Theorem interleave_same_documents (rng : Draws) (tau : R)
    (a b : list document) (c : Cursor) :
  a <> [] -> NoDup a -> Permutation a b ->
  randint_below_2 rng -> random_in_unit rng ->
  (exists r c' docs,
      interleave rng tau a b c = Ok (Some r, c') /\
      items r = map Some docs /\
      Permutation docs a) \/
  (exists e,
      breakpoints_raise tau (length a) e /\
      interleave rng tau a b c = Raise e).
Proof.
  intros Ha Hda Hperm Hcoin Hunit.
  assert (Hdb : NoDup b) by (eapply Permutation_NoDup; eassumption).
  assert (Hlen : length b = length a)
    by (symmetry; apply Permutation_length; exact Hperm).
  unfold Probabilistic.interleave. rewrite Hlen, Nat.min_id.
  set (k := length a).
  assert (Hk : 1 <= k) by (unfold k; destruct a; [congruence | simpl; lia]).
  destruct (interleave_loop_invariant document_eq_dec rng tau (length a) k 2
              (fun rankings result =>
                 sourced [a; b] k 2 rankings result /\
                 disjoint_progress k 2 rankings result)) with
    (iterations := k) (rankings := [a; b])
    (result := {| items := @nil (option document); number_of_rankers := 2;
                  rank_to_ranker_index := [] |}) (c := c)
    as [(r & rankings' & c' & Hloop &
         ((_ & _ & _ & Hfrom) & (_ & _ & Hnodup & _)) & Hitems & _)
       | Hraise];
    try assumption; try lia; try (apply bounded_two; lia).
  - intros rankings result [H _]. exact (sourced_length _ _ _ _ _ H).
  - intros ranker_index rankings result ranking c0 d [Hs Hp] Hlt _ Hr Hd.
    split.
    + eapply sourced_step; eassumption.
    + eapply disjoint_progress_step; eassumption.
  - split.
    + apply (sourced_start [a; b] k 2). repeat constructor; unfold k; lia.
    + unfold disjoint_progress. simpl. repeat split.
      * repeat constructor; assumption.
      * constructor.
      * intros x [].
      * repeat constructor; unfold k; lia.
  - simpl. lia.
  - destruct (items_are_documents _ _ _ Hfrom) as (docs & Hdocs & Hsrc).
    left. exists r, c', docs. split; [exact Hloop |]. split; [exact Hdocs |].
    apply NoDup_Permutation_bis.
    + rewrite Hdocs in Hnodup. eapply NoDup_map_inv. exact Hnodup.
    + rewrite Hdocs, length_map in Hitems. unfold k in Hitems. lia.
    + intros d Hd. rewrite Forall_forall in Hsrc.
      destruct (Hsrc d Hd) as (source & [<- | [<- | []]] & Hin);
        [exact Hin |].
      eapply Permutation_in; [symmetry |]; eassumption.
  - right. exact Hraise.
Qed.
End SourceFacts.

Lemma interleave_items_from_sources_witness :
  exists r c',
    interleave Nat.eq_dec constant_draws 3 [1; 2; 3] [4; 5; 6] start =
    Ok (Some r, c') /\
    Forall2 (from_source [[1; 2; 3]; [4; 5; 6]]) (items r)
      (rank_to_ranker_index r).
Proof.
  destruct (interleave_items_from_sources Nat.eq_dec constant_draws 3
              [1; 2; 3] [4; 5; 6] start ltac:(discriminate)
              ltac:(discriminate) EngineClaims.constant_draws_randint
              EngineClaims.constant_draws_random)
    as [H | (e & He & _)].
  - exact H.
  - exfalso. revert He. apply breakpoints_computed_or_raise.
    apply default_tau_computed. simpl. lia.
Defined.

Lemma multileave_items_from_sources_witness :
  exists r c',
    multileave Nat.eq_dec constant_draws 3 2 [[1; 2; 3]; [4; 5]] start =
    Ok (Return r, c') /\
    Forall2 (from_source [[1; 2; 3]; [4; 5]]) (items r)
      (rank_to_ranker_index r).
Proof.
  destruct (multileave_items_from_sources Nat.eq_dec constant_draws 3
              [[1; 2; 3]; [4; 5]] 2 2 3 start
              ltac:(repeat constructor; discriminate)
              ltac:(split; [simpl; tauto | repeat constructor; simpl; lia])
              EngineClaims.constant_draws_shuffle
              EngineClaims.constant_draws_random
              ltac:(lia)
              ltac:(repeat constructor; simpl; lia))
    as [H | (e & He & _)].
  - exact H.
  - exfalso. revert He. apply breakpoints_computed_or_raise.
    apply default_tau_computed. lia.
Defined.

Lemma interleave_same_documents_witness :
  exists r c' docs,
    interleave Nat.eq_dec constant_draws 3 [1; 2] [2; 1] start =
    Ok (Some r, c') /\
    items r = map Some docs /\
    Permutation docs [1; 2].
Proof.
  destruct (interleave_same_documents Nat.eq_dec constant_draws 3
              [1; 2] [2; 1] start ltac:(discriminate)
              ltac:(repeat constructor; simpl; intuition discriminate)
              ltac:(apply perm_swap)
              EngineClaims.constant_draws_randint
              EngineClaims.constant_draws_random)
    as [H | (e & He & _)].
  - exact H.
  - exfalso. revert He. apply breakpoints_computed_or_raise.
    apply default_tau_computed. simpl. lia.
Defined.

End SourceFacts.

(** ** Which draws the methods consume *)

Module TraceFacts.
Section TraceFacts.
Context {document : Type}.
Variable document_eq_dec : forall x y : document, {x = y} + {x <> y}.
Variable rng : Draws.
Variable tau : R.
Variable L : nat.

Local Abbreviation discard := (discard document_eq_dec).
Local Abbreviation pick := (pick document_eq_dec rng tau).
Local Abbreviation interleave_loop := (interleave_loop document_eq_dec rng tau).
Local Abbreviation multileave_round := (multileave_round document_eq_dec rng tau).
Local Abbreviation multileave_loop := (multileave_loop document_eq_dec rng tau).

(** A sample on a valid ranker index, no working list being longer
    than [L]: one uniform draw, one more item, the same number of
    working lists, unless the computation of the breakpoints raises. *)
Lemma pick_total (k ranker_index : nat) (rankings : list (list document))
    (result : Ranking document) (c : Cursor) :
  bounded L rankings ->
  ranker_index < length rankings ->
  (exists d,
      pick k ranker_index rankings result c =
      Ok (if k <=? S (length (items result))
          then Return (append result d ranker_index)
          else Continue (map (discard d) rankings,
                         append result d ranker_index),
          advance_random c)) \/
  (exists e,
      breakpoints_raise tau L e /\
      pick k ranker_index rankings result c = Raise e).
Proof.
  intros Hbound Hidx.
  destruct (nth_error rankings ranker_index) as [ranking |] eqn:Hranking;
    [| apply nth_error_None in Hranking; lia].
  destruct (pick_unfold document_eq_dec rng tau L k ranker_index
              rankings result ranking c Hbound Hranking)
    as [(d & _ & Hpick) | Hraise].
  - left. exists d. exact Hpick.
  - right. exact Hraise.
Qed.

Lemma interleave_loop_trace (k iterations : nat) :
  randint_below_2 rng ->
  forall (rankings : list (list document)) (result : Ranking document)
         (c : Cursor),
    length rankings = 2 ->
    bounded L rankings ->
    1 <= iterations ->
    length (items result) + iterations = k ->
    (exists r c',
        interleave_loop k iterations rankings result c = Ok (Some r, c') /\
        rank_to_ranker_index r =
        rank_to_ranker_index result ++
        map (randint_tape rng) (seq (randint_pos c) iterations) /\
        randint_pos c' = randint_pos c + iterations /\
        random_pos c' = random_pos c + iterations /\
        shuffle_pos c' = shuffle_pos c) \/
    (exists e,
        breakpoints_raise tau L e /\
        interleave_loop k iterations rankings result c = Raise e).
Proof.
  intros Hcoin.
  induction iterations as [| n IH];
    intros rankings result c Hm Hbound Hn Hlen; [lia |].
  rewrite interleave_loop_S.
  destruct (pick_total k (randint_tape rng (randint_pos c)) rankings result
              (advance_randint c) Hbound) as [(d & ->) | (e & He & ->)].
  { rewrite Hm. apply Hcoin. }
  2:{ right. exists e. split; [exact He | reflexivity]. }
  destruct (Nat.leb_spec k (S (length (items result)))) as [Hle | Hgt].
  - assert (n = 0) by lia. subst n.
    left. eexists. eexists. split; [reflexivity |]. simpl.
    repeat split; lia.
  - destruct (IH (map (discard d) rankings)
                (append result d (randint_tape rng (randint_pos c)))
                (advance_random (advance_randint c)))
      as [(r & c' & Hloop & Hidx & Hint & Hrand & Hshuf) | Hraise].
    + now rewrite length_map.
    + now apply bounded_discard.
    + lia.
    + rewrite append_items_length. lia.
    + left. exists r, c'. split; [exact Hloop |]. simpl in *.
      rewrite Hidx, <- app_assoc. repeat split; lia.
    + right. exact Hraise.
Qed.

Lemma multileave_round_trace (k : nat) (popped : list nat) :
  forall (rankings : list (list document)) (result : Ranking document)
         (c : Cursor),
    Forall (fun i => i < length rankings) popped ->
    bounded L rankings ->
    length (items result) < k ->
    (exists s c',
        multileave_round k popped rankings result c = Ok (s, c') /\
        shuffle_pos c' = shuffle_pos c /\
        randint_pos c' = randint_pos c /\
        match s with
        | Return r =>
            rank_to_ranker_index r =
            rank_to_ranker_index result ++
            firstn (k - length (items result)) popped /\
            k <= length (items result) + length popped
        | Continue (rankings', result') =>
            length rankings' = length rankings /\
            bounded L rankings' /\
            rank_to_ranker_index result' =
            rank_to_ranker_index result ++ popped /\
            length (items result') = length (items result) + length popped /\
            length (items result') < k
        end) \/
    (exists e,
        breakpoints_raise tau L e /\
        multileave_round k popped rankings result c = Raise e).
Proof.
  induction popped as [| i popped IH];
    intros rankings result c Hvalid Hbound Hk.
  - left. exists (Continue (rankings, result)), c. simpl.
    rewrite app_nil_r. repeat split; try assumption; lia.
  - cbn [Probabilistic.multileave_round]. unfold bindM.
    destruct (pick_total k i rankings result c Hbound)
      as [(d & ->) | (e & He & ->)].
    { now inversion Hvalid. }
    2:{ right. exists e. split; [exact He | reflexivity]. }
    destruct (Nat.leb_spec k (S (length (items result)))) as [Hle | Hgt].
    + left. exists (Return (append result d i)), (advance_random c). simpl.
      replace (k - length (items result)) with 1 by lia. simpl.
      repeat split; lia.
    + destruct (IH (map (discard d) rankings) (append result d i)
                  (advance_random c))
        as [(s & c' & Hround & Hshuf & Hint & Hs) | Hraise].
      * rewrite length_map. now inversion Hvalid.
      * now apply bounded_discard.
      * rewrite append_items_length. lia.
      * left. exists s, c'. split; [exact Hround |].
        split; [exact Hshuf |]. split; [exact Hint |].
        rewrite append_items_length in Hs. rewrite length_map in Hs.
        simpl rank_to_ranker_index in Hs.
        destruct s as [r | [rankings' result']].
        -- destruct Hs as [Hidx Hlen]. rewrite Hidx, <- app_assoc. simpl.
           replace (k - length (items result))
             with (S (k - S (length (items result)))) by lia.
           simpl. split; [reflexivity | lia].
        -- destruct Hs as (Hm & Hbound' & Hidx & Hlen & Hlt).
           rewrite Hidx, <- app_assoc. simpl.
           repeat split; try assumption; lia.
      * right. exact Hraise.
Qed.

Lemma pop_order_valid (m j : nat) :
  shuffle_permutes rng ->
  Permutation (pop_order rng m j) (seq 0 m).
Proof.
  intros Hshuffle. unfold pop_order.
  eapply Permutation_trans; [apply Permutation_sym, Permutation_rev |].
  apply Hshuffle.
Qed.

Lemma multileave_loop_trace (k fuel : nat) :
  shuffle_permutes rng ->
  forall (rankings : list (list document)) (result : Ranking document)
         (c : Cursor),
    1 <= length rankings ->
    bounded L rankings ->
    length (items result) < k ->
    k <= length (items result) + fuel ->
    (exists r c' rounds,
        multileave_loop fuel k rankings result c = Ok (Return r, c') /\
        rank_to_ranker_index r =
        rank_to_ranker_index result ++
        firstn (k - length (items result))
          (pops rng (length rankings) (shuffle_pos c) fuel) /\
        randint_pos c' = randint_pos c /\
        shuffle_pos c' = shuffle_pos c + rounds /\
        1 <= rounds /\
        (rounds - 1) * length rankings < k - length (items result) /\
        k - length (items result) <= rounds * length rankings) \/
    (exists e,
        breakpoints_raise tau L e /\
        multileave_loop fuel k rankings result c = Raise e).
Proof.
  intros Hshuffle.
  induction fuel as [| fuel IH];
    intros rankings result c Hm Hbound Hk Hfuel; [lia |].
  rewrite multileave_loop_S.
  change (rev (shuffle_tape rng (shuffle_pos c) (seq 0 (length rankings))))
    with (pop_order rng (length rankings) (shuffle_pos c)).
  pose proof (pop_order_valid (length rankings) (shuffle_pos c) Hshuffle)
    as Hperm.
  assert (Hcount : length (pop_order rng (length rankings) (shuffle_pos c)) =
                   length rankings).
  { rewrite (Permutation_length Hperm). apply length_seq. }
  assert (Hvalid : Forall (fun i => i < length rankings)
                     (pop_order rng (length rankings) (shuffle_pos c))).
  { apply Forall_forall. intros i Hin.
    apply (Permutation_in _ Hperm) in Hin. apply in_seq in Hin. lia. }
  destruct (multileave_round_trace k _ rankings result (advance_shuffle c)
              Hvalid Hbound Hk)
    as [(s & c1 & Hround & Hshuf1 & Hint1 & Hs) | (e & He & Hround)];
    rewrite Hround.
  2:{ right. exists e. split; [exact He | reflexivity]. }
  unfold pops. simpl seq. simpl map. simpl concat.
  destruct s as [r | [rankings1 result1]].
  - destruct Hs as [Hidx Hlen]. left. exists r, c1, 1.
    split; [reflexivity |]. rewrite Hidx, firstn_app.
    replace (k - length (items result) -
             length (pop_order rng (length rankings) (shuffle_pos c)))
      with 0 by lia.
    simpl firstn. rewrite app_nil_r. simpl in *.
    repeat split; lia.
  - destruct Hs as (Hm1 & Hbound1 & Hidx1 & Hlen1 & Hlt1).
    destruct (IH rankings1 result1 c1) as
      [(r & c' & rounds & Hloop & Hidx & Hint & Hshuf & Hr1 & Hlow & Hhigh)
      | Hraise];
      try lia; try assumption.
    + left. exists r, c', (S rounds). split; [exact Hloop |].
      rewrite Hidx, Hidx1, <- app_assoc, Hm1, Hshuf1.
      simpl shuffle_pos.
      fold (pops rng (length rankings) (S (shuffle_pos c)) fuel).
      rewrite firstn_app.
      rewrite firstn_all2
        with (l := pop_order rng (length rankings) (shuffle_pos c)) by lia.
      rewrite Hlen1, Hcount in *.
      replace (k - (length (items result) + length rankings))
        with (k - length (items result) - length rankings) by lia.
      simpl in *. rewrite Hm1 in *.
      repeat split; try lia.
      replace (rounds - 0) with (S (rounds - 1)) by lia. simpl. lia.
    + right. exact Hraise.
Qed.
End TraceFacts.
End TraceFacts.

Import TraceFacts.

Module TraceExtras.

Lemma count_occ_firstn_le (l : list nat) (n x : nat) :
  count_occ Nat.eq_dec (firstn n l) x <= count_occ Nat.eq_dec l x.
Proof.
  rewrite <- (firstn_skipn n l) at 2. rewrite count_occ_app. lia.
Qed.

(** In any prefix of the pops of successive rounds, two rankers differ
    by at most one appearance. *)
Lemma firstn_pops_balanced (rng : Draws) (m : nat) :
  shuffle_permutes rng ->
  forall rounds from n,
  exists t, forall i,
    i < m ->
    t <= count_occ Nat.eq_dec (firstn n (pops rng m from rounds)) i <= S t.
Proof.
  intros Hshuffle. induction rounds as [| rounds IH]; intros from n.
  - exists 0. intros i _. unfold pops. simpl. rewrite firstn_nil. simpl. lia.
  - unfold pops. simpl seq. simpl map. simpl concat.
    fold (pops rng m (S from) rounds).
    pose proof (pop_order_valid rng m from Hshuffle) as Hperm.
    assert (Hlen : length (pop_order rng m from) = m).
    { rewrite (Permutation_length Hperm). apply length_seq. }
    assert (Hnodup : NoDup (pop_order rng m from)).
    { eapply Permutation_NoDup; [apply Permutation_sym; exact Hperm |].
      apply seq_NoDup. }
    rewrite firstn_app, Hlen.
    destruct (Nat.le_gt_cases n m) as [Hle | Hgt].
    + exists 0. intros i _.
      replace (n - m) with 0 by lia. simpl firstn. rewrite app_nil_r.
      pose proof (count_occ_firstn_le (pop_order rng m from) n i).
      pose proof (proj1 (NoDup_count_occ Nat.eq_dec _) Hnodup i). lia.
    + destruct (IH (S from) (n - m)) as (t & Ht).
      exists (S t). intros i Hi.
      rewrite firstn_all2 by lia. rewrite count_occ_app.
      assert (Hone : count_occ Nat.eq_dec (pop_order rng m from) i = 1).
      { apply (proj1 (NoDup_count_occ' Nat.eq_dec _) Hnodup).
        eapply Permutation_in; [apply Permutation_sym; exact Hperm |].
        apply in_seq. lia. }
      specialize (Ht i Hi). lia.
Qed.

Section TraceExtras.
Context {document : Type}.
Variable document_eq_dec : forall x y : document, {x = y} + {x <> y}.

Local Abbreviation interleave := (interleave document_eq_dec).
Local Abbreviation multileave := (multileave document_eq_dec).

(** X10.  [interleave] on non-empty lists, unless it raises what the
    computation of the breakpoints raises, consumes exactly [k] coin
    flips and [k] uniform draws, [k] being [min(len(a), len(b))], and
    no shuffle; [rank_to_ranker_index] is the list of these coin
    flips, in the order they were drawn. *)
Theorem interleave_consumes_k_draws (rng : Draws) (tau : R)
    (a b : list document) (c : Cursor) :
  a <> [] -> b <> [] ->
  randint_below_2 rng ->
  (exists r c',
      interleave rng tau a b c = Ok (Some r, c') /\
      rank_to_ranker_index r =
      map (randint_tape rng)
        (seq (randint_pos c) (Nat.min (length a) (length b))) /\
      randint_pos c' = randint_pos c + Nat.min (length a) (length b) /\
      random_pos c' = random_pos c + Nat.min (length a) (length b) /\
      shuffle_pos c' = shuffle_pos c) \/
  (exists e,
      breakpoints_raise tau (Nat.max (length a) (length b)) e /\
      interleave rng tau a b c = Raise e).
Proof.
  intros Ha Hb Hcoin. unfold Probabilistic.interleave.
  set (k := Nat.min (length a) (length b)).
  assert (Hk : 1 <= k).
  { unfold k. destruct a; [congruence |]. destruct b; [congruence |].
    simpl. lia. }
  destruct (interleave_loop_trace document_eq_dec rng tau
              (Nat.max (length a) (length b)) k k Hcoin [a; b]
              {| items := @nil (option document); number_of_rankers := 2;
                 rank_to_ranker_index := [] |} c)
    as [(r & c' & Hloop & Hidx & Hrest) | Hraise];
    [reflexivity | apply bounded_two; lia | exact Hk | simpl; lia | |].
  - left. exists r, c'. split; [exact Hloop |].
    split; [exact Hidx | exact Hrest].
  - right. exact Hraise.
Qed.

(** X11.  [multileave] on non-empty lists, none longer than [L],
    unless it raises what the computation of the breakpoints for some
    length up to [L] raises, flips no coin; its [rank_to_ranker_index]
    is the first [k] ranker indexes in the order the successive rounds
    pop them from their shuffles, and it shuffles once per round
    begun: the number of shuffles is the least [t] with
    [k <= t * m]. *)
Theorem multileave_ranker_order (rng : Draws) (tau : R)
    (lists : list (list document)) (k fuel L : nat) (c : Cursor) :
  Forall (fun l => l <> []) lists ->
  least_length k lists ->
  shuffle_permutes rng ->
  k <= fuel ->
  bounded L lists ->
  (exists r c' rounds,
      multileave rng tau fuel lists c = Ok (Return r, c') /\
      rank_to_ranker_index r =
      firstn k (pops rng (length lists) (shuffle_pos c) fuel) /\
      randint_pos c' = randint_pos c /\
      shuffle_pos c' = shuffle_pos c + rounds /\
      (rounds - 1) * length lists < k <= rounds * length lists) \/
  (exists e,
      breakpoints_raise tau L e /\
      multileave rng tau fuel lists c = Raise e).
Proof.
  intros Hne Hk Hshuffle Hfuel Hbound.
  unfold Probabilistic.multileave.
  unfold bindM at 1. unfold lift. rewrite (min_least_length k lists Hk).
  pose proof (least_length_positive k lists Hk Hne) as Hpos.
  assert (Hm : 1 <= length lists).
  { destruct Hk as [Hin _]. destruct lists; [destruct Hin | simpl; lia]. }
  destruct (multileave_loop_trace document_eq_dec rng tau L k fuel
              Hshuffle lists
              {| items := @nil (option document);
                 number_of_rankers := length lists;
                 rank_to_ranker_index := [] |} c)
    as [(r & c' & rounds & Hloop & Hidx & Hint & Hshuf & _ & Hlow & Hhigh)
       | Hraise];
    try (simpl; lia); try assumption.
  - simpl in Hidx, Hlow, Hhigh. rewrite Nat.sub_0_r in *.
    left. exists r, c', rounds. repeat split; assumption.
  - right. exact Hraise.
Qed.

(** X12.  [multileave] on non-empty lists, none longer than [L],
    unless it raises what the computation of the breakpoints for some
    length up to [L] raises, draws on its rankers evenly: in the
    returned Ranking the numbers of items contributed by any two
    rankers differ by at most one. *)
Theorem multileave_balanced (rng : Draws) (tau : R)
    (lists : list (list document)) (k fuel L : nat) (c : Cursor) :
  Forall (fun l => l <> []) lists ->
  least_length k lists ->
  shuffle_permutes rng ->
  k <= fuel ->
  bounded L lists ->
  (exists r c',
      multileave rng tau fuel lists c = Ok (Return r, c') /\
      forall i j,
        i < length lists -> j < length lists ->
        count_occ Nat.eq_dec (rank_to_ranker_index r) i <=
        S (count_occ Nat.eq_dec (rank_to_ranker_index r) j)) \/
  (exists e,
      breakpoints_raise tau L e /\
      multileave rng tau fuel lists c = Raise e).
Proof.
  intros Hne Hk Hshuffle Hfuel Hbound.
  unfold Probabilistic.multileave.
  unfold bindM at 1. unfold lift. rewrite (min_least_length k lists Hk).
  pose proof (least_length_positive k lists Hk Hne) as Hpos.
  assert (Hm : 1 <= length lists).
  { destruct Hk as [Hin _]. destruct lists; [destruct Hin | simpl; lia]. }
  destruct (multileave_loop_trace document_eq_dec rng tau L k fuel
              Hshuffle lists
              {| items := @nil (option document);
                 number_of_rankers := length lists;
                 rank_to_ranker_index := [] |} c)
    as [(r & c' & rounds & Hloop & Hidx & _) | Hraise];
    try (simpl; lia); try assumption.
  - simpl in Hidx. left. exists r, c'. split; [exact Hloop |].
    intros i j Hi Hj. rewrite Hidx.
    destruct (firstn_pops_balanced rng (length lists) Hshuffle fuel
                (shuffle_pos c) (k - 0)) as (t & Ht).
    pose proof (Ht i Hi). pose proof (Ht j Hj). lia.
  - right. exact Hraise.
Qed.

(** X13.  With an empty list among the inputs [k] is [0], yet
    [multileave] samples once, from the list popped first, before it
    tests the length: unless the computation of the breakpoints for
    the length of that list raises, it returns a Ranking of one item,
    taken from that list, and the item is [None] when that list is the
    empty one. *)
Theorem multileave_empty_list_overshoots (rng : Draws) (tau : R)
    (lists : list (list document)) (fuel : nat) (c : Cursor) :
  In [] lists ->
  shuffle_permutes rng ->
  1 <= fuel ->
  exists ranker_index ranking,
    hd_error (pop_order rng (length lists) (shuffle_pos c)) =
    Some ranker_index /\
    nth_error lists ranker_index = Some ranking /\
    ((exists d c',
         multileave rng tau fuel lists c =
         Ok (Return {| items := [d];
                       number_of_rankers := length lists;
                       rank_to_ranker_index := [ranker_index] |}, c') /\
         random_pos c' = random_pos c + 1 /\
         (ranking = [] -> d = None)) \/
     (exists e,
         cumulation tau (length ranking) = Raise e /\
         multileave rng tau fuel lists c = Raise e)).
Proof.
  intros Hempty Hshuffle Hfuel.
  assert (Hk : least_length 0 lists).
  { split.
    - apply in_map_iff. exists []. split; [reflexivity | exact Hempty].
    - apply Forall_forall. intros; lia. }
  assert (Hm : 1 <= length lists) by (destruct lists; [destruct Hempty | simpl; lia]).
  destruct fuel as [| fuel]; [lia |].
  assert (Hrun : multileave rng tau (S fuel) lists c =
                 multileave_loop document_eq_dec rng tau (S fuel) 0 lists
                   {| items := [];
                      number_of_rankers := length lists;
                      rank_to_ranker_index := [] |} c).
  { unfold Probabilistic.multileave, bindM, lift.
    now rewrite (min_least_length 0 lists Hk). }
  rewrite Hrun, multileave_loop_S. clear Hrun.
  change (rev (shuffle_tape rng (shuffle_pos c) (seq 0 (length lists))))
    with (pop_order rng (length lists) (shuffle_pos c)).
  pose proof (pop_order_valid rng (length lists) (shuffle_pos c) Hshuffle)
    as Hperm.
  destruct (pop_order rng (length lists) (shuffle_pos c))
    as [| ranker_index popped] eqn:Hpop.
  { apply Permutation_length in Hperm. rewrite length_seq in Hperm.
    simpl in Hperm. lia. }
  assert (Hidx : ranker_index < length lists).
  { assert (Hin : In ranker_index (seq 0 (length lists))).
    { eapply Permutation_in; [exact Hperm | now left]. }
    apply in_seq in Hin. lia. }
  assert (Hsome : exists ranking, nth_error lists ranker_index = Some ranking).
  { destruct (nth_error lists ranker_index) as [ranking |] eqn:Hranking;
      [now exists ranking | apply nth_error_None in Hranking; lia]. }
  destruct Hsome as [ranking Hranking].
  exists ranker_index, ranking.
  split; [reflexivity |]. split; [exact Hranking |].
  cbn [Probabilistic.multileave_round]. unfold bindM.
  destruct (cumulation tau (length ranking)) as [cumulation | e] eqn:Hcum.
  - destruct (choice_one_of_total rng tau ranking (advance_shuffle c)
                cumulation Hcum) as (d & Hd & Hdin).
    left. exists d, (advance_random (advance_shuffle c)).
    split; [| split].
    + rewrite (pick_known document_eq_dec rng tau 0 ranker_index lists _
                 ranking _ d Hranking Hd).
      reflexivity.
    + simpl. lia.
    + intros ->. destruct d as [x |]; [destruct Hdin | reflexivity].
  - right. exists e. split; [reflexivity |].
    now rewrite (pick_raised document_eq_dec rng tau 0 ranker_index lists _
                   ranking _ e Hranking Hcum).
Qed.
End TraceExtras.

Lemma interleave_consumes_k_draws_witness :
  exists r c',
    interleave Nat.eq_dec constant_draws 3 [1; 2; 3] [4; 5; 6] start =
    Ok (Some r, c') /\
    rank_to_ranker_index r =
    map (randint_tape constant_draws) (seq (randint_pos start) 3) /\
    randint_pos c' = randint_pos start + 3 /\
    random_pos c' = random_pos start + 3 /\
    shuffle_pos c' = shuffle_pos start.
Proof.
  destruct (interleave_consumes_k_draws Nat.eq_dec constant_draws 3
              [1; 2; 3] [4; 5; 6] start ltac:(discriminate)
              ltac:(discriminate) EngineClaims.constant_draws_randint)
    as [H | (e & He & _)].
  - exact H.
  - exfalso. revert He. apply breakpoints_computed_or_raise.
    apply default_tau_computed. simpl. lia.
Defined.

Lemma multileave_ranker_order_witness :
  exists r c' rounds,
    multileave Nat.eq_dec constant_draws 3 4 [[1; 2; 3; 4]; [5; 6; 7; 8]]
      start = Ok (Return r, c') /\
    rank_to_ranker_index r = firstn 4 (pops constant_draws 2 0 4) /\
    randint_pos c' = randint_pos start /\
    shuffle_pos c' = shuffle_pos start + rounds /\
    (rounds - 1) * 2 < 4 <= rounds * 2.
Proof.
  destruct (multileave_ranker_order Nat.eq_dec constant_draws 3
              [[1; 2; 3; 4]; [5; 6; 7; 8]] 4 4 4 start
              ltac:(repeat constructor; discriminate)
              ltac:(split; [simpl; tauto | repeat constructor; simpl; lia])
              EngineClaims.constant_draws_shuffle
              ltac:(lia)
              ltac:(repeat constructor; simpl; lia))
    as [H | (e & He & _)].
  - exact H.
  - exfalso. revert He. apply breakpoints_computed_or_raise.
    apply default_tau_computed. lia.
Defined.

Lemma multileave_balanced_witness :
  exists r c',
    multileave Nat.eq_dec constant_draws 3 3 [[1; 2; 3]; [4; 5; 6]; [7; 8; 9]]
      start = Ok (Return r, c') /\
    forall i j,
      i < 3 -> j < 3 ->
      count_occ Nat.eq_dec (rank_to_ranker_index r) i <=
      S (count_occ Nat.eq_dec (rank_to_ranker_index r) j).
Proof.
  destruct (multileave_balanced Nat.eq_dec constant_draws 3
              [[1; 2; 3]; [4; 5; 6]; [7; 8; 9]] 3 3 3 start
              ltac:(repeat constructor; discriminate)
              ltac:(split; [simpl; tauto | repeat constructor; simpl; lia])
              EngineClaims.constant_draws_shuffle
              ltac:(lia)
              ltac:(repeat constructor; simpl; lia))
    as [H | (e & He & _)].
  - exact H.
  - exfalso. revert He. apply breakpoints_computed_or_raise.
    apply default_tau_computed. lia.
Defined.

Lemma multileave_empty_list_overshoots_witness :
  exists c',
    multileave Nat.eq_dec constant_draws 3 1 [[1; 2]; []] start =
    Ok (Return {| items := [None];
                  number_of_rankers := 2;
                  rank_to_ranker_index := [1] |}, c') /\
    random_pos c' = random_pos start + 1.
Proof.
  destruct (multileave_empty_list_overshoots Nat.eq_dec constant_draws 3
              [[1; 2]; []] 1 start ltac:(simpl; tauto)
              EngineClaims.constant_draws_shuffle ltac:(lia))
    as (ranker_index & ranking & Hpop & Hranking & Hrun).
  simpl in Hpop. injection Hpop as <-.
  simpl in Hranking. injection Hranking as <-.
  destruct Hrun as [(d & c' & Hrun & Hdraw & Hnone) | (e & He & _)].
  - exists c'. rewrite <- (Hnone eq_refl). split; assumption.
  - discriminate He.
Defined.

End TraceExtras.

(** ** The caches as the classes keep them: facts *)

Module RegistryFacts.

Section EntryFacts.
Context {K V : Type}.
Variable eq_dec : forall x y : K, {x = y} + {x <> y}.

Lemma entry_store_same (reg : registry K V) (tau : R) (k : K) (v : V) :
  entry eq_dec (store_entry reg tau k v) tau k = Some v.
Proof.
  unfold entry, instance, store_entry. simpl.
  destruct (Req_dec_T tau tau); [| congruence]. simpl.
  destruct (eq_dec k k); [reflexivity | congruence].
Qed.

Lemma entry_store_other (reg : registry K V) (tau tau' : R) (k k' : K)
    (v : V) :
  tau <> tau' \/ k <> k' ->
  entry eq_dec (store_entry reg tau k v) tau' k' = entry eq_dec reg tau' k'.
Proof.
  intros Hdiff. unfold entry, instance, store_entry. simpl.
  destruct (Req_dec_T tau tau') as [<- | _]; [| reflexivity]. simpl.
  destruct (eq_dec k k') as [<- | _]; [| reflexivity].
  destruct Hdiff; congruence.
Qed.

Lemma entry_store_kept (reg : registry K V) (tau tau' : R) (k k' : K)
    (v v' : V) :
  entry eq_dec reg tau k = None ->
  entry eq_dec reg tau' k' = Some v' ->
  entry eq_dec (store_entry reg tau k v) tau' k' = Some v'.
Proof.
  intros Hnone Hsome. rewrite entry_store_other; [exact Hsome |].
  destruct (Req_dec_T tau tau') as [<- | Hne]; [| now left].
  right. intros <-. congruence.
Qed.

Lemma entry_new_instance (reg : registry K V) (tau tau' : R) (k : K) :
  entry eq_dec (new_instance reg tau) tau' k = entry eq_dec reg tau' k.
Proof.
  unfold entry, instance, new_instance.
  destruct (Memo.find Req_dec_T reg tau) eqn:Hfind; [reflexivity |].
  simpl. destruct (Req_dec_T tau tau') as [<- | _]; [| reflexivity].
  now rewrite Hfind.
Qed.

Lemma new_instance_again (reg : registry K V) (tau : R) :
  new_instance (new_instance reg tau) tau = new_instance reg tau.
Proof.
  unfold new_instance.
  destruct (Memo.find Req_dec_T reg tau) eqn:Hfind.
  - now rewrite Hfind.
  - simpl. destruct (Req_dec_T tau tau); [reflexivity | congruence].
Qed.

Lemma new_instance_built (reg : registry K V) (tau : R) :
  Memo.find Req_dec_T (new_instance reg tau) tau <> None.
Proof.
  unfold new_instance.
  destruct (Memo.find Req_dec_T reg tau) eqn:Hfind; [congruence |].
  simpl. destruct (Req_dec_T tau tau); congruence.
Qed.
End EntryFacts.

Lemma consistent_empty : consistent empty.
Proof. repeat split; intros; discriminate. Defined.

Lemma extends_refl (s : Store) : extends s s.
Proof. repeat split; auto. Qed.

Lemma extends_trans (s1 s2 s3 : Store) :
  extends s1 s2 -> extends s2 s3 -> extends s1 s3.
Proof.
  intros (Hm & Hs & Hc) (Hm' & Hs' & Hc'). repeat split; auto.
Qed.

(** *** [MemberCache] *)

Lemma member_getitem_frame (tau : R) (r : Z) (s s' : Store) (o : outcome number) :
  member_getitem tau r s = (o, s') ->
  sum_instances s' = sum_instances s /\
  cumulation_instances s' = cumulation_instances s.
Proof.
  unfold member_getitem.
  destruct (entry Z.eq_dec (member_instances s) tau r);
    [| destruct (member_cache tau r)]; intros [= <- <-]; split; reflexivity.
Qed.

Lemma member_getitem_sound (tau : R) (r : Z) (s s' : Store) (o : outcome number) :
  consistent s ->
  member_getitem tau r s = (o, s') ->
  o = member_cache tau r /\ consistent s'.
Proof.
  intros Hs. pose proof Hs as (Hm & Hsum & Hcum). unfold member_getitem.
  destruct (entry Z.eq_dec (member_instances s) tau r) as [w |] eqn:Hentry.
  - intros [= <- <-]. split; [symmetry; now apply Hm | exact Hs].
  - destruct (member_cache tau r) as [w | e] eqn:Hw; intros [= <- <-].
    + split; [reflexivity |]. split; [| split]; simpl; try assumption.
      intros tau' r' w'.
      destruct (Req_dec_T tau tau') as [<- | Hne].
      * destruct (Z.eq_dec r r') as [<- | Hne].
        -- rewrite entry_store_same. congruence.
        -- rewrite entry_store_other by now right. apply Hm.
      * rewrite entry_store_other by now left. apply Hm.
    + split; [reflexivity | exact Hs].
Qed.

Lemma member_getitem_extends (tau : R) (r : Z) (s s' : Store)
    (o : outcome number) :
  member_getitem tau r s = (o, s') -> extends s s'.
Proof.
  unfold member_getitem.
  destruct (entry Z.eq_dec (member_instances s) tau r) as [w |] eqn:Hentry.
  - intros [= <- <-]. apply extends_refl.
  - destruct (member_cache tau r) as [w | e]; intros [= <- <-];
      [| apply extends_refl].
    repeat split; simpl; auto.
    intros tau' r' w'. now apply entry_store_kept.
Qed.

Lemma member_getitems_frame (tau : R) (rs : list Z) :
  forall (s s' : Store) (o : outcome (list number)),
    member_getitems tau rs s = (o, s') ->
    sum_instances s' = sum_instances s /\
    cumulation_instances s' = cumulation_instances s.
Proof.
  induction rs as [| r rs IH]; intros s s' o; simpl.
  - intros [= <- <-]. split; reflexivity.
  - unfold bindC.
    destruct (member_getitem tau r s) as [[w | e] s1] eqn:H1.
    + apply member_getitem_frame in H1. destruct H1 as [Hs1 Hc1].
      destruct (member_getitems tau rs s1) as [[ws | e] s2] eqn:H2;
        apply IH in H2; destruct H2 as [Hs2 Hc2]; intros [= <- <-];
        split; congruence.
    + apply member_getitem_frame in H1. intros [= <- <-]. exact H1.
Qed.

Lemma member_getitems_sound (tau : R) (rs : list Z) :
  forall (s s' : Store) (o : outcome (list number)),
    consistent s ->
    member_getitems tau rs s = (o, s') ->
    o = mapM (member_cache tau) rs /\ consistent s'.
Proof.
  induction rs as [| r rs IH]; intros s s' o Hs; simpl.
  - intros [= <- <-]. split; [reflexivity | exact Hs].
  - unfold bindC.
    destruct (member_getitem tau r s) as [o1 s1] eqn:H1.
    destruct (member_getitem_sound _ _ _ _ _ Hs H1) as [-> Hs1].
    destruct (member_cache tau r) as [w | e]; simpl.
    + destruct (member_getitems tau rs s1) as [o2 s2] eqn:H2.
      destruct (IH _ _ _ Hs1 H2) as [-> Hs2].
      destruct (mapM (member_cache tau) rs); intros [= <- <-];
        split; (reflexivity || assumption).
    + intros [= <- <-]. split; [reflexivity | exact Hs1].
Qed.

Lemma member_getitems_extends (tau : R) (rs : list Z) :
  forall (s s' : Store) (o : outcome (list number)),
    member_getitems tau rs s = (o, s') -> extends s s'.
Proof.
  induction rs as [| r rs IH]; intros s s' o; simpl.
  - intros [= <- <-]. apply extends_refl.
  - unfold bindC.
    destruct (member_getitem tau r s) as [[w | e] s1] eqn:H1;
      apply member_getitem_extends in H1.
    + destruct (member_getitems tau rs s1) as [[ws | e] s2] eqn:H2;
        apply IH in H2; intros [= <- <-]; eapply extends_trans; eassumption.
    + intros [= <- <-]. exact H1.
Qed.

(** *** [SumCache] *)

Lemma sum_getitem_frame (tau : R) (n : nat) (s s' : Store) (o : outcome number) :
  sum_getitem tau n s = (o, s') ->
  cumulation_instances s' = cumulation_instances s.
Proof.
  unfold sum_getitem.
  destruct (entry Nat.eq_dec (sum_instances s) tau n);
    [intros [= <- <-]; reflexivity |].
  destruct (member_getitems tau (range 1 (n + 1)) s) as [[ws | e] s1] eqn:H1;
    apply member_getitems_frame in H1; destruct H1 as [_ Hc];
    intros [= <- <-]; exact Hc.
Qed.

Lemma sum_getitem_sound (tau : R) (n : nat) (s s' : Store) (o : outcome number) :
  consistent s ->
  sum_getitem tau n s = (o, s') ->
  o = sum_cache tau n /\ consistent s'.
Proof.
  intros Hs. pose proof Hs as (Hm & Hsum & Hcum). unfold sum_getitem.
  destruct (entry Nat.eq_dec (sum_instances s) tau n) as [v |] eqn:Hentry.
  - intros [= <- <-]. split; [symmetry; now apply Hsum | exact Hs].
  - destruct (member_getitems tau (range 1 (n + 1)) s) as [o1 s1] eqn:H1.
    destruct (member_getitems_sound _ _ _ _ _ Hs H1) as [-> Hs1].
    unfold sum_cache.
    destruct (mapM (member_cache tau) (range 1 (n + 1))) as [ws | e] eqn:Hws;
      intros [= <- <-]; simpl.
    + split; [reflexivity |].
      destruct Hs1 as (Hm1 & Hsum1 & Hcum1).
      split; [| split]; simpl; try assumption.
      intros tau' n' v'.
      destruct (Req_dec_T tau tau') as [<- | Hne].
      * destruct (Nat.eq_dec n n') as [<- | Hne].
        -- rewrite entry_store_same. intros [= <-].
           unfold sum_cache. now rewrite Hws.
        -- rewrite entry_store_other by now right. apply Hsum1.
      * rewrite entry_store_other by now left. apply Hsum1.
    + split; [reflexivity | exact Hs1].
Qed.

Lemma sum_getitem_extends (tau : R) (n : nat) (s s' : Store)
    (o : outcome number) :
  sum_getitem tau n s = (o, s') -> extends s s'.
Proof.
  unfold sum_getitem.
  destruct (entry Nat.eq_dec (sum_instances s) tau n) as [v |] eqn:Hentry.
  - intros [= <- <-]. apply extends_refl.
  - destruct (member_getitems tau (range 1 (n + 1)) s) as [[ws | e] s1] eqn:H1;
      pose proof (member_getitems_frame _ _ _ _ _ H1) as [Hsum1 Hcum1];
      apply member_getitems_extends in H1; intros [= <- <-]; [| exact H1].
    eapply extends_trans; [exact H1 |].
    repeat split; simpl; auto.
    intros tau' n' v'. apply entry_store_kept. now rewrite Hsum1.
Qed.

(** *** [CumulationCache] *)

Lemma cumulate_cached_frame (tau : R) (rs : list Z) :
  forall (numerator denominator : number) (result : list number)
         (s s' : Store)
         (o : outcome (list number)),
    cumulate_cached tau rs numerator denominator result s = (o, s') ->
    cumulation_instances s' = cumulation_instances s.
Proof.
  induction rs as [| r rs IH]; intros numerator denominator result s s' o;
    simpl.
  - intros [= <- <-]. reflexivity.
  - unfold bindC at 1.
    destruct (member_getitem tau r s) as [[w | e] s1] eqn:H1;
      apply member_getitem_frame in H1; destruct H1 as [_ Hc1].
    + unfold bindC, liftC.
      destruct (truediv (add numerator w) denominator) as [q | e].
      * intros H. apply IH in H. congruence.
      * intros [= <- <-]. exact Hc1.
    + intros [= <- <-]. exact Hc1.
Qed.

Lemma cumulate_cached_sound (tau : R) (rs : list Z) :
  forall (numerator denominator : number) (result : list number)
         (s s' : Store)
         (o : outcome (list number)),
    consistent s ->
    cumulate_cached tau rs numerator denominator result s = (o, s') ->
    o = cumulate tau rs numerator denominator result /\ consistent s'.
Proof.
  induction rs as [| r rs IH]; intros numerator denominator result s s' o Hs;
    simpl.
  - intros [= <- <-]. split; [reflexivity | exact Hs].
  - unfold bindC at 1.
    destruct (member_getitem tau r s) as [o1 s1] eqn:H1.
    destruct (member_getitem_sound _ _ _ _ _ Hs H1) as [-> Hs1].
    destruct (member_cache tau r) as [w | e]; simpl.
    + unfold bindC, liftC.
      destruct (truediv (add numerator w) denominator) as [q | e]; simpl.
      * apply IH. exact Hs1.
      * intros [= <- <-]. split; [reflexivity | exact Hs1].
    + intros [= <- <-]. split; [reflexivity | exact Hs1].
Qed.

Lemma cumulate_cached_extends (tau : R) (rs : list Z) :
  forall (numerator denominator : number) (result : list number)
         (s s' : Store)
         (o : outcome (list number)),
    cumulate_cached tau rs numerator denominator result s = (o, s') ->
    extends s s'.
Proof.
  induction rs as [| r rs IH]; intros numerator denominator result s s' o;
    simpl.
  - intros [= <- <-]. apply extends_refl.
  - unfold bindC at 1.
    destruct (member_getitem tau r s) as [[w | e] s1] eqn:H1;
      apply member_getitem_extends in H1.
    + unfold bindC, liftC.
      destruct (truediv (add numerator w) denominator) as [q | e].
      * intros H. apply IH in H. eapply extends_trans; eassumption.
      * intros [= <- <-]. exact H1.
    + intros [= <- <-]. exact H1.
Qed.

Lemma cumulation_getitem_sound (tau : R) (l : nat) (s s' : Store)
    (o : outcome (list number)) :
  consistent s ->
  cumulation_getitem tau l s = (o, s') ->
  o = cumulation tau l /\ consistent s'.
Proof.
  intros Hs. pose proof Hs as (Hm & Hsum & Hcum). unfold cumulation_getitem.
  destruct (entry Nat.eq_dec (cumulation_instances s) tau l) as [v |]
    eqn:Hentry.
  - intros [= <- <-]. split; [symmetry; now apply Hcum | exact Hs].
  - unfold bindC, cumulation.
    destruct (sum_getitem tau l s) as [o1 s1] eqn:H1.
    destruct (sum_getitem_sound _ _ _ _ _ Hs H1) as [-> Hs1].
    destruct (sum_cache tau l) as [denominator | e] eqn:Hden; simpl.
    2:{ intros [= <- <-]. split; [reflexivity | exact Hs1]. }
    destruct (cumulate_cached tau (range 1 l) (real 0) denominator [] s1)
      as [o2 s2] eqn:H2.
    destruct (cumulate_cached_sound _ _ _ _ _ _ _ _ Hs1 H2) as [-> Hs2].
    destruct (cumulate tau (range 1 l) (real 0) denominator []) as [result | e]
      eqn:Hres; intros [= <- <-]; simpl.
    + split; [reflexivity |].
      destruct Hs2 as (Hm2 & Hsum2 & Hcum2).
      split; [| split]; simpl; try assumption.
      intros tau' l' v'.
      destruct (Req_dec_T tau tau') as [<- | Hne].
      * destruct (Nat.eq_dec l l') as [<- | Hne].
        -- rewrite entry_store_same. intros [= <-].
           unfold cumulation. rewrite Hden. simpl. now rewrite Hres.
        -- rewrite entry_store_other by now right. apply Hcum2.
      * rewrite entry_store_other by now left. apply Hcum2.
    + split; [reflexivity | exact Hs2].
Qed.

Lemma cumulation_getitem_extends (tau : R) (l : nat) (s s' : Store)
    (o : outcome (list number)) :
  cumulation_getitem tau l s = (o, s') -> extends s s'.
Proof.
  unfold cumulation_getitem.
  destruct (entry Nat.eq_dec (cumulation_instances s) tau l) as [v |]
    eqn:Hentry.
  - intros [= <- <-]. apply extends_refl.
  - unfold bindC.
    destruct (sum_getitem tau l s) as [[denominator | e] s1] eqn:H1;
      pose proof (sum_getitem_frame _ _ _ _ _ H1) as Hc1;
      apply sum_getitem_extends in H1.
    2:{ intros [= <- <-]. exact H1. }
    destruct (cumulate_cached tau (range 1 l) (real 0) denominator [] s1)
      as [[result | e] s2] eqn:H2;
      pose proof (cumulate_cached_frame _ _ _ _ _ _ _ _ H2) as Hc2;
      apply cumulate_cached_extends in H2; intros [= <- <-].
    + eapply extends_trans; [exact H1 |].
      eapply extends_trans; [exact H2 |].
      repeat split; simpl; auto.
      intros tau' l' v'. apply entry_store_kept. now rewrite Hc2, Hc1.
    + eapply extends_trans; eassumption.
Qed.

(** Once a lookup has returned, the same lookup is a hit. *)
Lemma member_getitem_again (tau : R) (r : Z) (s s' : Store) (w : number) :
  member_getitem tau r s = (Ok w, s') ->
  member_getitem tau r s' = (Ok w, s').
Proof.
  unfold member_getitem at 1.
  destruct (entry Z.eq_dec (member_instances s) tau r) as [w0 |] eqn:Hentry.
  - intros [= <- <-]. unfold member_getitem. now rewrite Hentry.
  - destruct (member_cache tau r) as [w0 | e]; intros [= <- <-].
    unfold member_getitem. simpl. now rewrite entry_store_same.
Qed.

Lemma sum_getitem_again (tau : R) (n : nat) (s s' : Store) (v : number) :
  sum_getitem tau n s = (Ok v, s') ->
  sum_getitem tau n s' = (Ok v, s').
Proof.
  unfold sum_getitem at 1.
  destruct (entry Nat.eq_dec (sum_instances s) tau n) as [v0 |] eqn:Hentry.
  - intros [= <- <-]. unfold sum_getitem. now rewrite Hentry.
  - destruct (member_getitems tau (range 1 (n + 1)) s) as [[ws | e] s1];
      intros [= <- <-].
    unfold sum_getitem. simpl. now rewrite entry_store_same.
Qed.

Lemma cumulation_getitem_again (tau : R) (l : nat) (s s' : Store)
    (v : list number) :
  cumulation_getitem tau l s = (Ok v, s') ->
  cumulation_getitem tau l s' = (Ok v, s').
Proof.
  unfold cumulation_getitem at 1.
  destruct (entry Nat.eq_dec (cumulation_instances s) tau l) as [v0 |]
    eqn:Hentry.
  - intros [= <- <-]. unfold cumulation_getitem. now rewrite Hentry.
  - destruct ((denominator <~~ sum_getitem tau l;;
               cumulate_cached tau (range 1 l) (real 0) denominator []) s)
      as [[result | e] s1]; intros [= <- <-].
    unfold cumulation_getitem. simpl. now rewrite entry_store_same.
Qed.

End RegistryFacts.

Import RegistryFacts.

Module RegistryExtras.

Lemma new_Probabilistic_entries (tau : R) (s : Store) :
  (forall tau' r,
      entry Z.eq_dec (member_instances (new_Probabilistic tau s)) tau' r =
      entry Z.eq_dec (member_instances s) tau' r) /\
  (forall tau' n,
      entry Nat.eq_dec (sum_instances (new_Probabilistic tau s)) tau' n =
      entry Nat.eq_dec (sum_instances s) tau' n) /\
  (forall tau' l,
      entry Nat.eq_dec (cumulation_instances (new_Probabilistic tau s)) tau' l =
      entry Nat.eq_dec (cumulation_instances s) tau' l).
Proof.
  repeat split; intros; simpl; now rewrite !entry_new_instance.
Qed.

(** X14.  Memoisation is transparent: in a store whose entries all stem
    from [__missing__], as the empty store does, a lookup in any of the
    three caches returns (or raises) what its [__missing__] computes
    for the key, and leaves such a store; so does building a
    [Probabilistic]. *)
Theorem lookups_return_what_missing_computes (s : Store) (tau : R) :
  consistent s ->
  (forall r,
      fst (member_getitem tau r s) = member_cache tau r /\
      consistent (snd (member_getitem tau r s))) /\
  (forall n,
      fst (sum_getitem tau n s) = sum_cache tau n /\
      consistent (snd (sum_getitem tau n s))) /\
  (forall l,
      fst (cumulation_getitem tau l s) = cumulation tau l /\
      consistent (snd (cumulation_getitem tau l s))) /\
  consistent (new_Probabilistic tau s).
Proof.
  intros Hs. split; [| split; [| split]].
  - intros r. destruct (member_getitem tau r s) as [o s'] eqn:H.
    exact (member_getitem_sound _ _ _ _ _ Hs H).
  - intros n. destruct (sum_getitem tau n s) as [o s'] eqn:H.
    exact (sum_getitem_sound _ _ _ _ _ Hs H).
  - intros l. destruct (cumulation_getitem tau l s) as [o s'] eqn:H.
    exact (cumulation_getitem_sound _ _ _ _ _ Hs H).
  - destruct Hs as (Hm & Hsum & Hcum).
    destruct (new_Probabilistic_entries tau s) as (Em & Es & Ec).
    split; [| split]; intros tau' k v; [rewrite Em | rewrite Es | rewrite Ec];
      auto.
Qed.

Lemma lookups_return_what_missing_computes_witness :
  fst (cumulation_getitem 3 4 empty) = cumulation 3 4 /\
  consistent (snd (cumulation_getitem 3 4 empty)).
Proof.
  destruct (lookups_return_what_missing_computes empty 3 consistent_empty)
    as (_ & _ & H & _).
  exact (H 4).
Defined.

(** X15.  Looking the same key up again is a hit: once a lookup of
    a length has returned, a second lookup returns the very same
    breakpoints and leaves the store as it is; likewise for the sums
    and for the weights. *)
Theorem second_lookup_is_a_hit (s s' : Store) (tau : R) :
  (forall l v,
      cumulation_getitem tau l s = (Ok v, s') ->
      cumulation_getitem tau l s' = (Ok v, s')) /\
  (forall n v,
      sum_getitem tau n s = (Ok v, s') ->
      sum_getitem tau n s' = (Ok v, s')) /\
  (forall r w,
      member_getitem tau r s = (Ok w, s') ->
      member_getitem tau r s' = (Ok w, s')).
Proof.
  split; [| split].
  - intros l v. apply cumulation_getitem_again.
  - intros n v. apply sum_getitem_again.
  - intros r w. apply member_getitem_again.
Qed.

Lemma second_lookup_is_a_hit_witness :
  cumulation_getitem 3 4 (snd (cumulation_getitem 3 4 empty)) =
  (Ok (map real (breakpoints 3 4)), snd (cumulation_getitem 3 4 empty)).
Proof.
  destruct (second_lookup_is_a_hit empty (snd (cumulation_getitem 3 4 empty)) 3)
    as (H & _ & _).
  apply H.
  destruct (cumulation_getitem 3 4 empty) as [o s'] eqn:Hget.
  destruct (cumulation_getitem_sound _ _ _ _ _ consistent_empty Hget)
    as [-> _].
  rewrite default_tau_cumulation by lia. reflexivity.
Defined.

(** X16.  Nothing is ever evicted or overwritten: whatever is stored
    under a key of any of the three caches, for any [tau], is still
    stored there, unchanged, after any lookup, whether it hits, misses
    or raises, and after building another [Probabilistic]. *)
Theorem entries_are_kept (s : Store) (tau : R) :
  (forall r, extends s (snd (member_getitem tau r s))) /\
  (forall n, extends s (snd (sum_getitem tau n s))) /\
  (forall l, extends s (snd (cumulation_getitem tau l s))) /\
  extends s (new_Probabilistic tau s).
Proof.
  split; [| split; [| split]].
  - intros r. destruct (member_getitem tau r s) as [o s'] eqn:H.
    exact (member_getitem_extends _ _ _ _ _ H).
  - intros n. destruct (sum_getitem tau n s) as [o s'] eqn:H.
    exact (sum_getitem_extends _ _ _ _ _ H).
  - intros l. destruct (cumulation_getitem tau l s) as [o s'] eqn:H.
    exact (cumulation_getitem_extends _ _ _ _ _ H).
  - destruct (new_Probabilistic_entries tau s) as (Em & Es & Ec).
    split; [| split]; intros tau' k v; [rewrite Em | rewrite Es | rewrite Ec];
      auto.
Qed.

(** X17.  Building a [Probabilistic] registers one instance of each
    cache class for its [tau], and building another with the same
    [tau] changes nothing: both share these instances. *)
Theorem new_Probabilistic_again (s : Store) (tau : R) :
  new_Probabilistic tau (new_Probabilistic tau s) = new_Probabilistic tau s /\
  Memo.find Req_dec_T (member_instances (new_Probabilistic tau s)) tau
    <> None /\
  Memo.find Req_dec_T (sum_instances (new_Probabilistic tau s)) tau
    <> None /\
  Memo.find Req_dec_T (cumulation_instances (new_Probabilistic tau s)) tau
    <> None.
Proof.
  split; [| split; [| split]].
  - unfold new_Probabilistic, new_CumulationCache, new_SumCache,
      new_MemberCache. simpl.
    now rewrite !new_instance_again.
  - simpl. apply new_instance_built.
  - simpl. apply new_instance_built.
  - simpl. apply new_instance_built.
Qed.

(** X18.  [choice_one_of] reading its breakpoints through the cache
    returns what it returns on freshly computed breakpoints, whatever
    lengths the cache already holds. *)
Theorem cached_choice_agrees {document : Type} (rng : Draws) (tau : R)
    (l : list document) (c : Cursor) (s : Store) :
  consistent s ->
  fst (choice_one_of_cached rng tau l c s) = choice_one_of rng tau l c /\
  consistent (snd (choice_one_of_cached rng tau l c s)).
Proof.
  intros Hs. unfold choice_one_of_cached, choice_one_of, bindM, lift, random.
  destruct (cumulation_getitem tau (length l) s) as [o s'] eqn:H.
  destruct (cumulation_getitem_sound _ _ _ _ _ Hs H) as [-> Hs'].
  destruct (cumulation tau (length l)) as [cumulation | e]; simpl;
    (split; [reflexivity | exact Hs']).
Qed.

Lemma cached_choice_agrees_witness :
  fst (choice_one_of_cached constant_draws 3 [7; 8; 9] start empty) =
  choice_one_of constant_draws 3 [7; 8; 9] start /\
  consistent (snd (choice_one_of_cached constant_draws 3 [7; 8; 9] start empty)).
Proof.
  apply (cached_choice_agrees constant_draws 3 [7; 8; 9] start empty).
  exact consistent_empty.
Defined.

End RegistryExtras.
